(** * Classifier heads of [backbone/linears.py]

    A shallow embedding of the classification heads used for
    class-incremental learning: [trunc_normal_], [SimpleLinear],
    [CosineLinear], [SplitCosineLinear], [reduce_proxies] and
    [SimpleContinualLinear].

    Tensor entries are real numbers (exact arithmetic); integers are
    Python integers ([Z]); Python's true division of integers is the
    correctly rounded binary64 quotient.  Parameters live in a store
    indexed by storage identity, so that in-place writes and aliasing
    through [state_dict] are visible. *)

From Stdlib Require Import Reals ZArith List Lia Lra Bool String.
From stdpp Require Import base list.
Import ListNotations.

Set Default Proof Using "Type".
Local Open Scope Z_scope.

(** ** Exceptions and results *)

Inductive exn : Type :=
| ZeroDivisionError
| OverflowError
| AssertionError (msg : string)
| RuntimeError
| AttributeError
| IndexError
| KeyError
| ValueError
| TypeError.

Inductive result (A : Type) : Type :=
| Ok (a : A)
| Raise (e : exn).

Arguments Ok {A} a.
Arguments Raise {A} e.

Definition rbind {A B : Type} (m : result A) (k : A -> result B) : result B :=
  match m with
  | Ok a => k a
  | Raise e => Raise e
  end.

Notation "x <- m ;; k" := (rbind m (fun x => k))
  (at level 100, m at next level, right associativity).

Definition raises {A : Type} (m : result A) : Prop :=
  exists e, m = Raise e.

(** ** Python numbers: [int / int] and the resulting [float] *)

Module PyNum.

(** A finite binary64 value, [fmant * 2 ^ fexp]. *)
Record pyfloat : Type := mkfloat { fmant : Z; fexp : Z }.

(** Nearest integer to [n / d] for [0 < d], ties to the even one. *)
Definition round_half_even (n d : Z) : Z :=
  let q := n / d in
  let r := n mod d in
  if 2 * r <? d then q
  else if d <? 2 * r then q + 1
  else if Z.even q then q else q + 1.

(** [floor (log2 (a / b))] for positive [a] and [b]. *)
Definition floor_log2_quot (a b : Z) : Z :=
  let d := Z.log2 a - Z.log2 b in
  if b * 2 ^ Z.max 0 d <=? a * 2 ^ Z.max 0 (- d) then d else d - 1.

(** [a / b] on Python integers: the binary64 value nearest to the exact
    quotient (53 significant bits, least exponent [-1074], ties to
    even). *)
Definition int_true_divide (a b : Z) : result pyfloat :=
  if b =? 0 then Raise ZeroDivisionError
  else if a =? 0 then Ok (mkfloat 0 0)
  else
    let s := Z.sgn a * Z.sgn b in
    let e := Z.max (- 1074) (floor_log2_quot (Z.abs a) (Z.abs b) - 52) in
    let m := round_half_even (Z.abs a * 2 ^ Z.max 0 (- e))
                             (Z.abs b * 2 ^ Z.max 0 e) in
    if 2 ^ 1024 <=? m * 2 ^ Z.max 0 e then Raise OverflowError
    else Ok (mkfloat (s * m) e).

(** [float.is_integer]. *)
Definition is_integer (f : pyfloat) : bool :=
  (0 <=? fexp f) || (fmant f mod 2 ^ (- fexp f) =? 0).

(** [int(float)]: truncation towards zero. *)
Definition int_of_float (f : pyfloat) : Z :=
  if 0 <=? fexp f then fmant f * 2 ^ fexp f
  else Z.quot (fmant f) (2 ^ (- fexp f)).

End PyNum.

(** ** Tensors *)

(** A contiguous tensor: its shape and its entries in row-major order. *)
Record Tensor : Type := mkTensor { shape : list Z; data : list R }.

Definition numel (s : list Z) : Z := fold_right Z.mul 1 s.

Definition int64_max : Z := 2 ^ 63 - 1.

(** Sizes are non-negative 64-bit integers and the entries fill the
    shape. *)
Definition wf_tensor (t : Tensor) : Prop :=
  Forall (fun d => 0 <= d <= int64_max) (shape t) /\
  Z.of_nat (length (data t)) = numel (shape t).

(** [t.shape[i]] *)
Definition shape_at (t : Tensor) (i : nat) : result Z :=
  match shape t !! i with
  | Some d => Ok d
  | None => Raise IndexError
  end.

Definition Rsum (l : list R) : R := fold_right Rplus 0%R l.

(** [n] consecutive blocks of [k] entries. *)
Fixpoint chunks (n k : nat) (l : list R) : list (list R) :=
  match n with
  | O => []
  | S n' => take k l :: chunks n' k (drop k l)
  end.

Definition last_dim (s : list Z) : Z := List.last s 1.
Definition lead_dims (s : list Z) : list Z := removelast s.

(** The vectors along the last dimension, in order. *)
Definition groups (t : Tensor) : list (list R) :=
  chunks (Z.to_nat (numel (lead_dims (shape t))))
         (Z.to_nat (last_dim (shape t))) (data t).

(** Entry [(i, j)] of a matrix. *)
Definition entry2 (t : Tensor) (i j : nat) : R :=
  nth (i * Z.to_nat (last_dim (shape t)) + j) (data t) 0%R.

(** Size inference of [Tensor.view]: one dimension may be [-1]. *)
Definition infer_size (s : list Z) (n : Z) : result (list Z) :=
  if existsb (fun d => (d <? -1) || (int64_max <? d)) s then Raise RuntimeError
  else
    match List.length (List.filter (Z.eqb (-1)) s) with
    | O => if numel s =? n then Ok s else Raise RuntimeError
    | S O =>
        let p := numel (List.filter (fun d => negb (-1 =? d)) s) in
        if (0 <? p) && (n mod p =? 0)
        then Ok (map (fun d => if -1 =? d then n / p else d) s)
        else Raise RuntimeError
    | _ => Raise RuntimeError
    end.

(** [t.view] with the sizes [s] on a contiguous tensor: same entries, new
    shape. *)
Definition view (t : Tensor) (s : list Z) : result Tensor :=
  s' <- infer_size s (numel (shape t));;
  Ok (mkTensor s' (data t)).

(** [F.softmax(t, dim=-1)] *)
Definition softmax_vec (v : list R) : list R :=
  map (fun x => (exp x / Rsum (map exp v))%R) v.

Definition F_softmax (t : Tensor) : Tensor :=
  mkTensor (shape t) (concat (map softmax_vec (groups t))).

(** [a * b] for tensors of one shape (broadcasting is not needed by the
    callers below and is rejected). *)
Definition tensor_mul (a b : Tensor) : result Tensor :=
  if decide (shape a = shape b)
  then Ok (mkTensor (shape a) (zip_with Rmult (data a) (data b)))
  else Raise RuntimeError.

(** [t.sum(-1)] *)
Definition tensor_sum_last (t : Tensor) : Tensor :=
  mkTensor (lead_dims (shape t)) (map Rsum (groups t)).

(** [s * t] for a one-element tensor [s]. *)
Definition tensor_scale (s : R) (t : Tensor) : Tensor :=
  mkTensor (shape t) (map (Rmult s) (data t)).

Definition dot (u v : list R) : R := Rsum (zip_with Rmult u v).

Definition norm2 (v : list R) : R := sqrt (Rsum (map (fun x => x * x)%R v)).

Definition normalize_eps : R := (/ 10 ^ 12)%R.

(** [F.normalize(t, p=2, dim=1)]: every entry is divided by the
    Euclidean norm, clamped below by [1e-12], of the vector through it
    along dimension 1. *)
Definition F_normalize (t : Tensor) : result Tensor :=
  match shape t with
  | _ :: d1 :: rest =>
      let n1 := Z.to_nat d1 in
      let inner := Z.to_nat (numel rest) in
      let fiber (p : nat) : list R :=
        map (fun i1 => nth ((p / (n1 * inner) * n1 + i1) * inner + p mod inner)%nat
                           (data t) 0%R)
            (seq 0 n1) in
      Ok (mkTensor (shape t)
            (imap (fun p x => (x / Rmax (norm2 (fiber p)) normalize_eps)%R) (data t)))
  | _ => Raise IndexError
  end.

(** [F.linear(x, w, b)] for a weight matrix [w] of shape [(o, k)] and an
    optional bias of shape [(o,)]: [x @ w.T + b] over the last dimension
    of [x]. *)
Definition linear_vec (w : list (list R)) (b : option (list R)) (x : list R) : list R :=
  match b with
  | None => map (dot x) w
  | Some bv => zip_with Rplus (map (dot x) w) bv
  end.

Definition F_linear (x w : Tensor) (b : option Tensor) : result Tensor :=
  match shape w, shape x with
  | [o; k], _ :: _ =>
      if negb (last_dim (shape x) =? k) then Raise RuntimeError
      else if negb (match b with
                    | Some bt => bool_decide (shape bt = [o])
                    | None => true
                    end) then Raise RuntimeError
      else Ok (mkTensor (lead_dims (shape x) ++ [o])
                 (concat (map (linear_vec (groups w) (data <$> b)) (groups x))))
  | _, _ => Raise RuntimeError
  end.

(** [torch.cat(ts, dim=1)] *)
Definition slab (t : Tensor) (i : nat) : list R :=
  let w := Z.to_nat (numel (List.tl (shape t))) in
  take w (drop (i * w) (data t)).

Definition cat_compatible (s0 s : list Z) : bool :=
  match s0, s with
  | d0 :: _ :: r0, d :: _ :: r => bool_decide (d0 = d) && bool_decide (r0 = r)
  | _, _ => false
  end.

Definition torch_cat1 (ts : list Tensor) : result Tensor :=
  match ts with
  | [] => Raise RuntimeError
  | t0 :: _ =>
      match shape t0 with
      | d0 :: _ :: r0 =>
          if forallb (fun t => cat_compatible (shape t0) (shape t)) ts
          then Ok (mkTensor
                     (d0 :: fold_right Z.add 0 (map (fun t => nth 1 (shape t) 0) ts) :: r0)
                     (concat (map (fun i => concat (map (fun t => slab t i) ts))
                                  (seq 0 (Z.to_nat d0)))))
          else Raise RuntimeError
      | _ => Raise IndexError
      end
  end.

(** [F.layer_norm(x, (dim,), weight, bias, eps=1e-5)] *)
Definition layer_norm_eps : R := (/ 10 ^ 5)%R.

Definition layer_norm_vec (g h v : list R) : list R :=
  let n := INR (List.length v) in
  let mean := (Rsum v / n)%R in
  let var := (Rsum (map (fun x => (x - mean) * (x - mean))%R v) / n)%R in
  zip_with Rplus
    (zip_with Rmult (map (fun x => (x - mean) / sqrt (var + layer_norm_eps))%R v) g) h.

Definition F_layer_norm (x : Tensor) (dim : Z) (g h : Tensor) : result Tensor :=
  match shape x with
  | [] => Raise RuntimeError
  | _ :: _ =>
      if last_dim (shape x) =? dim
      then Ok (mkTensor (shape x)
                 (concat (map (layer_norm_vec (data g) (data h)) (groups x))))
      else Raise RuntimeError
  end.

(** ** Proxy reduction *)

Import PyNum.

Definition reduce_proxies (out : Tensor) (nb_proxy : Z) : result Tensor :=
  if nb_proxy =? 1 then Ok out
  else
    bs <- shape_at out 0;;
    cols <- shape_at out 1;;
    nb_classes <- int_true_divide cols nb_proxy;;
    if negb (is_integer nb_classes) then Raise (AssertionError "Shape error")
    else
      let nb_classes := int_of_float nb_classes in
      simi_per_class <- view out [bs; nb_classes; nb_proxy];;
      let attentions := F_softmax simi_per_class in
      weighted <- tensor_mul attentions simi_per_class;;
      Ok (tensor_sum_last weighted).

(** The softmax-weighted sum of the [nb] similarities [s 0 .. s (nb-1)]
    of one class, as the specification words it. *)
Definition proxy_score (s : nat -> R) (nb : nat) : R :=
  Rsum (map (fun j => (exp (s j) / Rsum (map (fun k => exp (s k)) (seq 0 nb)) * s j)%R)
            (seq 0 nb)).

(** What the specification promises of [reduce_proxies out nb_proxy] on an
    input of shape [(bs, C * nb_proxy)]. *)
Definition reduce_proxies_claim (out : Tensor) (nb_proxy bs C : Z) : Prop :=
  exists r,
    reduce_proxies out nb_proxy = Ok r /\
    shape r = [bs; C] /\
    forall i c : nat, Z.of_nat i < bs -> Z.of_nat c < C ->
      entry2 r i c =
      proxy_score (fun j => entry2 out i (c * Z.to_nat nb_proxy + j)) (Z.to_nat nb_proxy).

(** What the specification promises of the shape assertion of
    [reduce_proxies] on an input whose second dimension is [cols]. *)
Definition reduce_proxies_assert_claim (out : Tensor) (nb_proxy cols : Z) : Prop :=
  (reduce_proxies out nb_proxy = Raise (AssertionError "Shape error") <->
   ~ (nb_proxy | cols)) /\
  ((nb_proxy | cols) -> exists r, reduce_proxies out nb_proxy = Ok r).

(** Two empty batches, as made by [torch.empty(0, n)]: of
    [2 ^ 53 + 1] columns and of [2 * (2 ^ 53 + 1)] columns. *)
Definition empty_batch_odd : Tensor := mkTensor [0; 2 ^ 53 + 1] [].
Definition empty_batch_wide : Tensor := mkTensor [0; (2 ^ 53 + 1) * 2] [].

(** ** Outputs of [forward]: a Python dict of tensors *)

Definition dict : Type := list (string * Tensor).

(** [d[k]] *)
Fixpoint getitem (d : dict) (k : string) : result Tensor :=
  match d with
  | [] => Raise KeyError
  | (k', v) :: d' => if String.eqb k' k then Ok v else getitem d' k
  end.

(** ** Random number generator *)

(** The framework's generator: [normal_ mean std n g] and
    [uniform_ lo hi n g] fill [n] entries and advance the generator. *)
Class Generator : Type := {
  Gen : Type;
  normal_ : R -> R -> nat -> Gen -> list R * Gen;
  uniform_ : R -> R -> nat -> Gen -> list R * Gen;
  normal_length : forall m s n g, length (fst (normal_ m s n g)) = n;
  uniform_length : forall a b n g, length (fst (uniform_ a b n g)) = n
}.

(** A generator that replays a given list of standard variates (and
    zeros once the list is used up). *)
Program Definition replay_generator : Generator := {|
  Gen := list R;
  normal_ := fun m s n g => (map (fun z => (m + s * z)%R) (take n (g ++ repeat 0%R n)), drop n g);
  uniform_ := fun a b n g => (map (fun z => (a + (b - a) * z)%R) (take n (g ++ repeat 0%R n)), drop n g)
|}.
Next Obligation.
  intros. simpl. rewrite length_map, length_take, length_app, repeat_length. lia.
Qed.
Next Obligation.
  intros. simpl. rewrite length_map, length_take, length_app, repeat_length. lia.
Qed.

(** [torch.Tensor(dims...)]: a fresh tensor.  Its entries are unspecified
    until they are initialised; zeros stand for them. *)
Definition torch_Tensor (dims : list Z) : result Tensor :=
  if forallb (fun d => (0 <=? d) && (d <=? int64_max)) dims && (numel dims <=? int64_max)
  then Ok (mkTensor dims (repeat 0%R (Z.to_nat (numel dims))))
  else Raise RuntimeError.

(** ** CosineLinear *)

(** The module with its parameters by value; [cl_sigma] is the entry of
    the one-element parameter [sigma], when it is registered. *)
Record CosineLinear : Type := mkCosineLinear {
  cl_in_features : Z;
  cl_out_features : Z;
  cl_nb_proxy : Z;
  cl_to_reduce : bool;
  cl_weight : Tensor;
  cl_sigma : option R
}.

Definition CosineLinear_init `{Generator}
    (in_features out_features nb_proxy : Z) (to_reduce sigma : bool) (g : Gen)
  : result (CosineLinear * Gen) :=
  let out_features := out_features * nb_proxy in
  weight <- torch_Tensor [out_features; in_features];;
  (* reset_parameters *)
  size1 <- shape_at weight 1;;
  if size1 =? 0 then Raise ZeroDivisionError
  else
    let stdv := (1 / sqrt (IZR size1))%R in
    let (vals, g') := uniform_ (- stdv) stdv (List.length (data weight)) g in
    Ok (mkCosineLinear in_features out_features nb_proxy to_reduce
          (mkTensor (shape weight) vals)
          (if sigma then Some 1%R else None), g').

Definition apply_sigma (sigma : option R) (out : Tensor) : Tensor :=
  match sigma with
  | Some s => tensor_scale s out
  | None => out
  end.

Definition CosineLinear_forward (self : CosineLinear) (input : Tensor) : result dict :=
  ni <- F_normalize input;;
  nw <- F_normalize (cl_weight self);;
  out <- F_linear ni nw None;;
  out <- (if cl_to_reduce self then reduce_proxies out (cl_nb_proxy self) else Ok out);;
  Ok [("logits"%string, apply_sigma (cl_sigma self) out)].

(** ** SplitCosineLinear *)

Record SplitCosineLinear : Type := mkSplitCosineLinear {
  sc_in_features : Z;
  sc_out_features : Z;
  sc_nb_proxy : Z;
  sc_fc1 : CosineLinear;
  sc_fc2 : CosineLinear;
  sc_sigma : option R
}.

Definition SplitCosineLinear_init `{Generator}
    (in_features out_features1 out_features2 nb_proxy : Z) (sigma : bool) (g : Gen)
  : result (SplitCosineLinear * Gen) :=
  r1 <- CosineLinear_init in_features out_features1 nb_proxy false false g;;
  r2 <- CosineLinear_init in_features out_features2 nb_proxy false false (snd r1);;
  Ok (mkSplitCosineLinear in_features ((out_features1 + out_features2) * nb_proxy)
        nb_proxy (fst r1) (fst r2) (if sigma then Some 1%R else None), snd r2).

Definition SplitCosineLinear_forward (self : SplitCosineLinear) (x : Tensor) : result dict :=
  out1 <- CosineLinear_forward (sc_fc1 self) x;;
  out2 <- CosineLinear_forward (sc_fc2 self) x;;
  l1 <- getitem out1 "logits";;
  l2 <- getitem out2 "logits";;
  out <- torch_cat1 [l1; l2];;
  out <- reduce_proxies out (sc_nb_proxy self);;
  let out := apply_sigma (sc_sigma self) out in
  l1' <- getitem out1 "logits";;
  old_scores <- reduce_proxies l1' (sc_nb_proxy self);;
  l2' <- getitem out2 "logits";;
  new_scores <- reduce_proxies l2' (sc_nb_proxy self);;
  Ok [("old_scores"%string, old_scores); ("new_scores"%string, new_scores);
      ("logits"%string, out)].

(** *** The cosine heads row by row *)

(** What [F.normalize] makes of one row: the row divided by its
    Euclidean norm, the norm clamped from below by [1e-12]. *)
Definition normalized (v : list R) : list R :=
  map (fun x => (x / Rmax (norm2 v) normalize_eps)%R) v.

(** Row [i] of a matrix. *)
Definition row (t : Tensor) (i : nat) : list R :=
  let k := Z.to_nat (last_dim (shape t)) in take k (drop (i * k) (data t)).

(** The matrix that the two normalisations and [F.linear] compute: its
    entry [(i, j)] is the dot product of the normalised row [i] of [x] and
    the normalised row [j] of [w]. *)
Definition cosine_matrix (x w : Tensor) : Tensor :=
  mkTensor [nth 0 (shape x) 0; nth 0 (shape w) 0]
    (concat (map (fun xi => map (fun wj => dot (normalized xi) (normalized wj)) (groups w))
                 (groups x))).

(** Two matrices side by side, the columns of [a] first. *)
Definition hcat (a b : Tensor) : Tensor :=
  mkTensor [nth 0 (shape a) 0; nth 1 (shape a) 0 + nth 1 (shape b) 0]
    (concat (zip_with app (groups a) (groups b))).

(** The module invariants that [__init__] sets up and that training (a
    change of parameter values) keeps. *)
Definition CosineLinear_ok (self : CosineLinear) : Prop :=
  wf_tensor (cl_weight self) /\
  shape (cl_weight self) = [cl_out_features self; cl_in_features self].

Definition SplitCosineLinear_ok (self : SplitCosineLinear) : Prop :=
  CosineLinear_ok (sc_fc1 self) /\ CosineLinear_ok (sc_fc2 self) /\
  cl_in_features (sc_fc1 self) = sc_in_features self /\
  cl_in_features (sc_fc2 self) = sc_in_features self /\
  cl_to_reduce (sc_fc1 self) = false /\ cl_to_reduce (sc_fc2 self) = false /\
  cl_sigma (sc_fc1 self) = None /\ cl_sigma (sc_fc2 self) = None.

(** Small concrete modules and inputs. *)
Definition unit_matrix : Tensor := mkTensor [1; 1] [1%R].
Definition zero_pair : Tensor := mkTensor [1; 2] [0%R; 0%R].
Definition cosine_head_1x1 : CosineLinear :=
  mkCosineLinear 1 1 1 false unit_matrix (Some 2%R).
Definition plain_cosine_head_1x1 : CosineLinear :=
  mkCosineLinear 1 1 1 false unit_matrix None.
Definition split_head_1x1 : SplitCosineLinear :=
  mkSplitCosineLinear 1 2 1 plain_cosine_head_1x1 plain_cosine_head_1x1 (Some 1%R).

(** ** The store of tensors and the monad of stateful code *)

(** A tensor object is known by the index of its storage; objects that
    share a storage (a parameter and its entry in [state_dict()]) have the
    same index. *)
Abbreviation loc := nat (only parsing).

Record World `{Generator} : Type := mkWorld { heap : list Tensor; gen : Gen }.

(** A computation either runs out of fuel ([None]), returns or raises;
    the store it leaves behind is kept in both cases. *)
Definition M `{Generator} (A : Type) : Type := World -> option (result A * World).

Definition ret `{Generator} {A : Type} (a : A) : M A :=
  fun w => Some (Ok a, w).

Definition raise `{Generator} {A : Type} (e : exn) : M A :=
  fun w => Some (Raise e, w).

Definition out_of_fuel `{Generator} {A : Type} : M A :=
  fun _ => None.

Definition bind `{Generator} {A B : Type} (m : M A) (k : A -> M B) : M B :=
  fun w =>
    match m w with
    | None => None
    | Some (Ok a, w') => k a w'
    | Some (Raise e, w') => Some (Raise e, w')
    end.

Notation "x <-- m ;; k" := (bind m (fun x => k))
  (at level 100, m at next level, right associativity).

Definition lift `{Generator} {A : Type} (r : result A) : M A :=
  match r with
  | Ok a => ret a
  | Raise e => raise e
  end.

(** A new tensor object. *)
Definition alloc `{Generator} (t : Tensor) : M loc :=
  fun w => Some (Ok (List.length (heap w)), mkWorld _ (heap w ++ [t]) (gen w)).

(** The tensor behind a reference.  References held by live objects are
    always allocated; the computation is stuck on any other. *)
Definition read `{Generator} (l : loc) : M Tensor :=
  fun w =>
    match heap w !! l with
    | Some t => Some (Ok t, w)
    | None => None
    end.

(** In-place overwrite of the entries of a tensor. *)
Definition write_data `{Generator} (l : loc) (d : list R) : M unit :=
  fun w =>
    match heap w !! l with
    | Some t => Some (Ok tt, mkWorld _ (<[l := mkTensor (shape t) d]> (heap w)) (gen w))
    | None => None
    end.

Definition Rltb (x y : R) : bool := if Rlt_dec x y then true else false.

(** [torch.empty(n).normal_(mean, std)] *)
Definition tensor_normal_ `{Generator} (mean std : R) (n : nat) : M (list R) :=
  fun w =>
    if Rltb std 0 then Some (Raise RuntimeError, w)
    else
      let (vals, g') := normal_ mean std n (gen w) in
      Some (Ok vals, mkWorld _ (heap w) g').

(** [t.uniform_(lo, hi)] *)
Definition tensor_uniform_ `{Generator} (l : loc) (lo hi : R) : M unit :=
  t <-- read l;;
  if Rltb hi lo then raise RuntimeError
  else
    vals <-- (fun w => let (vals, g') := uniform_ lo hi (List.length (data t)) (gen w) in
                       Some (Ok vals, mkWorld _ (heap w) g'));;
    write_data l vals.

(** ** trunc_normal_ *)

(** [torch.where(cond, x, y)] *)
Definition torch_where (cond : list bool) (x y : list R) : list R :=
  zip_with (fun (c : bool) (xy : R * R) => if c then fst xy else snd xy) cond (zip x y).

(** [torch.sum(cond)] of a boolean tensor. *)
Definition sum_bool (cond : list bool) : nat := List.length (List.filter (fun c : bool => c) cond).

(** The [while True] loop; [fuel] bounds the number of resamplings. *)
Fixpoint trunc_normal_loop `{Generator} (fuel : nat) (mean std a b : R) (tmp : list R)
  : M (list R) :=
  let cond := map (fun x => Rltb x a || Rltb b x) tmp in
  if (sum_bool cond =? 0)%nat then ret tmp
  else
    match fuel with
    | O => out_of_fuel
    | S fuel' =>
        fresh <-- tensor_normal_ mean std (List.length tmp);;
        trunc_normal_loop fuel' mean std a b (torch_where cond fresh tmp)
    end.

Definition trunc_normal_ `{Generator} (fuel : nat) (tensor : loc) (mean std a b : R)
  : M loc :=
  t <-- read tensor;;
  tmp <-- tensor_normal_ mean std (List.length (data t));;
  tmp <-- trunc_normal_loop fuel mean std a b tmp;;
  _ <-- write_data tensor tmp;;
  ret tensor.

(** [x] is a value that [normal_(mean, std)] has drawn. *)
Definition is_draw `{Generator} (mean std x : R) : Prop :=
  exists g n, In x (fst (normal_ mean std n g)).

(** ** Initialisers of [torch.nn.init] *)

(** [nn.init.constant_(tensor, val)]; the tensor may be [None]. *)
Definition constant_ `{Generator} (tensor : option loc) (val : R) : M unit :=
  match tensor with
  | None => raise AttributeError
  | Some l =>
      t <-- read l;;
      write_data l (repeat val (List.length (data t)))
  end.

(** [nn.init.kaiming_uniform_] in mode [fan_in] with the given gain. *)
Definition kaiming_uniform_ `{Generator} (tensor : loc) (gain : R) : M unit :=
  t <-- read tensor;;
  if existsb (Z.eqb 0) (shape t) then ret tt
  else
    match shape t with
    | _ :: d1 :: rest =>
        let fan := IZR (d1 * numel rest) in
        let std := (gain / sqrt fan)%R in
        let bound := (sqrt 3 * std)%R in
        tensor_uniform_ tensor (- bound) bound
    | _ => raise ValueError
    end.

(** ** Parameters and SimpleLinear *)

Record Param : Type := mkParam { storage : loc; requires_grad : bool }.

(** [nn.Parameter(torch.Tensor(dims...))] *)
Definition new_parameter `{Generator} (dims : list Z) : M Param :=
  t <-- lift (torch_Tensor dims);;
  l <-- alloc t;;
  ret (mkParam l true).

Record SimpleLinear : Type := mkSimpleLinear {
  sl_in_features : Z;
  sl_out_features : Z;
  sl_weight : Param;
  sl_bias : option Param
}.

Definition SimpleLinear_reset_parameters `{Generator} (self : SimpleLinear) : M unit :=
  _ <-- kaiming_uniform_ (storage (sl_weight self)) 1;;
  constant_ (storage <$> sl_bias self) 0.

Definition SimpleLinear_init `{Generator} (in_features out_features : Z) (bias : bool)
  : M SimpleLinear :=
  weight <-- new_parameter [out_features; in_features];;
  bias <-- (if bias
            then (p <-- new_parameter [out_features];; ret (Some p))
            else ret None);;
  let self := mkSimpleLinear in_features out_features weight bias in
  _ <-- SimpleLinear_reset_parameters self;;
  ret self.

Definition read_opt `{Generator} (p : option Param) : M (option Tensor) :=
  match p with
  | None => ret None
  | Some p => t <-- read (storage p);; ret (Some t)
  end.

Definition SimpleLinear_forward `{Generator} (self : SimpleLinear) (input : Tensor)
  : M dict :=
  w <-- read (storage (sl_weight self));;
  b <-- read_opt (sl_bias self);;
  out <-- lift (F_linear input w b);;
  ret [("logits"%string, out)].

(** A store with one one-element tensor and a generator that will draw
    [100] and then [0]. *)
Definition example_world : @World replay_generator :=
  @mkWorld replay_generator [mkTensor [1] [7%R]] [100%R; 0%R].

(** ** SimpleContinualLinear *)

Record nnLayerNorm : Type := mkLayerNorm {
  ln_normalized_shape : Z;
  ln_weight : Param;
  ln_bias : Param
}.

Record nnLinear : Type := mkLinear {
  lin_in_features : Z;
  lin_out_features : Z;
  lin_weight : Param;
  lin_bias : Param
}.

(** The two kinds of module a head is made of. *)
Inductive Layer : Type :=
| LayerNorm (m : nnLayerNorm)
| Linear (m : nnLinear).

(** [nn.Sequential] *)
Abbreviation Sequential := (list Layer) (only parsing).

(** The name of a parameter within its layer, and the dotted name
    ["heads.<i>.<j>.<name>"] of a parameter of the module. *)
Inductive pname : Type := weight_name | bias_name.

Definition key : Type := nat * nat * pname.

#[global] Instance pname_eq_dec : EqDecision pname.
Proof. solve_decision. Defined.

Record SimpleContinualLinear : Type := mkSimpleContinualLinear {
  embed_dim : Z;
  feat_expand : bool;
  with_norm : bool;
  heads : list Sequential;
  old_state_dict : option (list (key * loc))
}.

(** [nn.LayerNorm(dim)]: weight of ones, bias of zeros. *)
Definition nn_LayerNorm `{Generator} (dim : Z) : M nnLayerNorm :=
  weight <-- new_parameter [dim];;
  bias <-- new_parameter [dim];;
  _ <-- constant_ (Some (storage weight)) 1;;
  _ <-- constant_ (Some (storage bias)) 0;;
  ret (mkLayerNorm dim weight bias).

(** [nn.Linear(in_features, out_features, bias=True)] with the default
    initialisation of its [reset_parameters]. *)
Definition nn_Linear `{Generator} (in_features out_features : Z) : M nnLinear :=
  weight <-- new_parameter [out_features; in_features];;
  bias <-- new_parameter [out_features];;
  _ <-- kaiming_uniform_ (storage weight) (sqrt (2 / (1 + sqrt 5 * sqrt 5)));;
  let bound := if 0 <? in_features then (1 / sqrt (IZR in_features))%R else 0%R in
  _ <-- tensor_uniform_ (storage bias) (- bound) bound;;
  ret (mkLinear in_features out_features weight bias).

(** The head as [__init__] and [update] build it. *)
Definition single_head `{Generator} (with_norm : bool) (embed_dim : Z) : M (list Layer) :=
  if with_norm
  then (ln <-- nn_LayerNorm embed_dim;; ret [LayerNorm ln])
  else ret [].

(** [for m in self.modules(): if isinstance(m, nn.Linear): ...] *)
Fixpoint init_linears `{Generator} (fuel : nat) (ms : list Layer) : M unit :=
  match ms with
  | [] => ret tt
  | Linear m :: rest =>
      _ <-- trunc_normal_ fuel (storage (lin_weight m)) 0 (2 / 100) (-2) 2;;
      _ <-- constant_ (Some (storage (lin_bias m))) 0;;
      init_linears fuel rest
  | LayerNorm _ :: rest => init_linears fuel rest
  end.

Definition SimpleContinualLinear_init `{Generator} (fuel : nat)
    (embed_dim nb_classes : Z) (feat_expand with_norm : bool)
  : M SimpleContinualLinear :=
  head0 <-- single_head with_norm embed_dim;;
  fc <-- nn_Linear embed_dim nb_classes;;
  let head := head0 ++ [Linear fc] in
  let heads := [head] in
  _ <-- init_linears fuel (concat heads);;
  ret (mkSimpleContinualLinear embed_dim feat_expand with_norm heads None).

Definition freeze_param (p : Param) : Param := mkParam (storage p) false.

Definition freeze_layer (ly : Layer) : Layer :=
  match ly with
  | LayerNorm m =>
      LayerNorm (mkLayerNorm (ln_normalized_shape m)
                   (freeze_param (ln_weight m)) (freeze_param (ln_bias m)))
  | Linear m =>
      Linear (mkLinear (lin_in_features m) (lin_out_features m)
                (freeze_param (lin_weight m)) (freeze_param (lin_bias m)))
  end.

Definition SimpleContinualLinear_update `{Generator} (fuel : nat)
    (self : SimpleContinualLinear) (nb_classes : Z) (freeze_old : bool)
  : M SimpleContinualLinear :=
  head0 <-- single_head (with_norm self) (embed_dim self);;
  _fc <-- nn_Linear (embed_dim self) nb_classes;;
  _ <-- trunc_normal_ fuel (storage (lin_weight _fc)) 0 (2 / 100) (-2) 2;;
  _ <-- constant_ (Some (storage (lin_bias _fc))) 0;;
  let new_head := head0 ++ [Linear _fc] in
  let old_heads :=
    if freeze_old then map (map freeze_layer) (heads self) else heads self in
  ret (mkSimpleContinualLinear (embed_dim self) (feat_expand self) (with_norm self)
         (old_heads ++ [new_head]) (old_state_dict self)).

(** *** forward *)

(** The argument of [forward]: one tensor, or a sequence of tensors. *)
Inductive Features : Type :=
| Shared (x : Tensor)
| PerHead (xs : list Tensor).

(** [t[i]] for a tensor [t] *)
Definition tensor_getitem (t : Tensor) (i : nat) : result Tensor :=
  match shape t with
  | d0 :: rest =>
      if Z.of_nat i <? d0
      then let w := Z.to_nat (numel rest) in
           Ok (mkTensor rest (take w (drop (i * w) (data t))))
      else Raise IndexError
  | [] => Raise IndexError
  end.

(** [x[ti] if self.feat_expand else x]; a sequence is not a valid input
    of a layer. *)
Definition head_input (feat_expand : bool) (x : Features) (ti : nat) : result Tensor :=
  if feat_expand then
    match x with
    | Shared t => tensor_getitem t ti
    | PerHead xs =>
        match xs !! ti with
        | Some t => Ok t
        | None => Raise IndexError
        end
    end
  else
    match x with
    | Shared t => Ok t
    | PerHead _ => Raise TypeError
    end.

Definition Layer_forward `{Generator} (ly : Layer) (x : Tensor) : M Tensor :=
  match ly with
  | LayerNorm m =>
      g <-- read (storage (ln_weight m));;
      h <-- read (storage (ln_bias m));;
      lift (F_layer_norm x (ln_normalized_shape m) g h)
  | Linear m =>
      w <-- read (storage (lin_weight m));;
      b <-- read (storage (lin_bias m));;
      lift (F_linear x w (Some b))
  end.

Fixpoint Sequential_forward `{Generator} (ls : Sequential) (x : Tensor) : M Tensor :=
  match ls with
  | [] => ret x
  | ly :: rest => y <-- Layer_forward ly x;; Sequential_forward rest y
  end.

(** The loop of [forward] from head [ti] on. *)
Fixpoint forward_heads `{Generator} (fe : bool) (hs : list Sequential) (ti : nat)
    (x : Features) : M (list Tensor) :=
  match hs with
  | [] => ret []
  | h :: rest =>
      fc_inp <-- lift (head_input fe x ti);;
      o <-- Sequential_forward h fc_inp;;
      os <-- forward_heads fe rest (S ti) x;;
      ret (o :: os)
  end.

Definition SimpleContinualLinear_forward `{Generator}
    (self : SimpleContinualLinear) (x : Features) : M dict :=
  out <-- forward_heads (feat_expand self) (heads self) 0 x;;
  logits <-- lift (torch_cat1 out);;
  ret [("logits"%string, logits)].

(** *** state_dict, backup and recall *)

Definition Layer_parameters (ly : Layer) : list (pname * Param) :=
  match ly with
  | LayerNorm m => [(weight_name, ln_weight m); (bias_name, ln_bias m)]
  | Linear m => [(weight_name, lin_weight m); (bias_name, lin_bias m)]
  end.

(** The parameters of the layers of head [i], from layer [j] on. *)
Fixpoint layers_named (i j : nat) (ls : list Layer) : list (key * Param) :=
  match ls with
  | [] => []
  | ly :: rest =>
      map (fun np => ((i, j, fst np), snd np)) (Layer_parameters ly)
      ++ layers_named i (S j) rest
  end.

Fixpoint heads_named (i : nat) (hs : list Sequential) : list (key * Param) :=
  match hs with
  | [] => []
  | h :: rest => layers_named i 0 h ++ heads_named (S i) rest
  end.

(** [self.named_parameters()] *)
Definition named_parameters (self : SimpleContinualLinear) : list (key * Param) :=
  heads_named 0 (heads self).

(** [self.state_dict()]: the entries share the storage of the
    parameters. *)
Definition state_dict (self : SimpleContinualLinear) : list (key * loc) :=
  map (fun kp => (fst kp, storage (snd kp))) (named_parameters self).

(** [deepcopy] of a state dict: every tensor gets a storage of its own
    (the parameters of this module never share one). *)
Fixpoint deepcopy `{Generator} (sd : list (key * loc)) : M (list (key * loc)) :=
  match sd with
  | [] => ret []
  | kl :: rest =>
      t <-- read (snd kl);;
      l' <-- alloc t;;
      rest' <-- deepcopy rest;;
      ret ((fst kl, l') :: rest')
  end.

Definition SimpleContinualLinear_backup `{Generator} (self : SimpleContinualLinear)
  : M SimpleContinualLinear :=
  sd <-- deepcopy (state_dict self);;
  ret (mkSimpleContinualLinear (embed_dim self) (feat_expand self) (with_norm self)
         (heads self) (Some sd)).

Definition dict_lookup (sd : list (key * loc)) (k : key) : option loc :=
  snd <$> List.find (fun e => bool_decide (fst e = k)) sd.

(** The loop of [load_state_dict] over the parameters of the module: a
    parameter whose key is present and whose shape agrees is overwritten
    in place; the result is the list of the missing keys and the number
    of size mismatches. *)
Fixpoint load_params `{Generator} (params : list (key * Param)) (sd : list (key * loc))
  : M (list key * nat) :=
  match params with
  | [] => ret ([], O)
  | kp :: rest =>
      match dict_lookup sd (fst kp) with
      | Some src =>
          input_param <-- read src;;
          param <-- read (storage (snd kp));;
          if decide (shape input_param = shape param) then
            _ <-- write_data (storage (snd kp)) (data input_param);;
            load_params rest sd
          else
            r <-- load_params rest sd;;
            ret (fst r, S (snd r))
      | None =>
          r <-- load_params rest sd;;
          ret (fst kp :: fst r, snd r)
      end
  end.

Definition unexpected_keys (params : list (key * Param)) (sd : list (key * loc))
  : list key :=
  List.filter (fun k => negb (existsb (fun kp => bool_decide (fst kp = k)) params))
              (map fst sd).

(** [self.load_state_dict(sd)] with [strict=True]: the errors are raised
    once the loop is over. *)
Definition load_state_dict `{Generator} (self : SimpleContinualLinear)
    (sd : list (key * loc)) : M unit :=
  r <-- load_params (named_parameters self) sd;;
  match fst r, unexpected_keys (named_parameters self) sd, snd r with
  | [], [], O => ret tt
  | _, _, _ => raise RuntimeError
  end.

Definition SimpleContinualLinear_recall `{Generator} (self : SimpleContinualLinear)
  : M unit :=
  match old_state_dict self with
  | None => raise AttributeError
  | Some sd => load_state_dict self sd
  end.

(** An in-place change of the entries of a tensor, as a training step
    makes. *)
Definition set_data_ `{Generator} (l : loc) (v : list R) : M unit :=
  t <-- read l;;
  if (List.length v =? List.length (data t))%nat then write_data l v
  else raise RuntimeError.

Fixpoint set_all_ `{Generator} (steps : list (loc * list R)) : M unit :=
  match steps with
  | [] => ret tt
  | lv :: rest => _ <-- set_data_ (fst lv) (snd lv);; set_all_ rest
  end.

(** Successive calls of [update]. *)
Fixpoint updates `{Generator} (fuel : nat) (self : SimpleContinualLinear)
    (calls : list (Z * bool)) : M SimpleContinualLinear :=
  match calls with
  | [] => ret self
  | c :: rest =>
      self' <-- SimpleContinualLinear_update fuel self (fst c) (snd c);;
      updates fuel self' rest
  end.

(** *** Invariants of the module *)

(** The number of classes of a head: the [out_features] of its linear
    layer. *)
Definition head_out_features (h : Sequential) : Z :=
  match List.last h (LayerNorm (mkLayerNorm 0 (mkParam O true) (mkParam O true))) with
  | Linear m => lin_out_features m
  | LayerNorm _ => 0
  end.

Definition is_LayerNorm (ly : Layer) : Prop :=
  match ly with
  | LayerNorm _ => True
  | Linear _ => False
  end.

(** The parameters of a layer are live tensors of the shapes its
    constructor gave them. *)
Definition layer_ok (h : list Tensor) (embed : Z) (ly : Layer) : Prop :=
  match ly with
  | LayerNorm m =>
      ln_normalized_shape m = embed /\
      exists g b,
        h !! storage (ln_weight m) = Some g /\ h !! storage (ln_bias m) = Some b /\
        shape g = [embed] /\ shape b = [embed]
  | Linear m =>
      lin_in_features m = embed /\ 0 <= lin_out_features m /\
      exists tw tb,
        h !! storage (lin_weight m) = Some tw /\ h !! storage (lin_bias m) = Some tb /\
        shape tw = [lin_out_features m; embed] /\
        shape tb = [lin_out_features m] /\
        List.length (data tb) = Z.to_nat (lin_out_features m)
  end.

(** A head is a linear layer, possibly after layer normalisations. *)
Definition head_ok (h : list Tensor) (embed : Z) (head : Sequential) : Prop :=
  Forall (layer_ok h embed) head /\
  exists pre m, head = pre ++ [Linear m] /\ Forall is_LayerNorm pre.

Definition module_ok `{Generator} (self : SimpleContinualLinear) (w : World) : Prop :=
  Forall (head_ok (heap w) (embed_dim self)) (heads self).

(** Every parameter of the module is a live tensor. *)
Definition params_allocated `{Generator} (self : SimpleContinualLinear) (w : World) : Prop :=
  Forall (fun kp => is_Some (heap w !! storage (snd kp))) (named_parameters self).

(** The head that [__init__] and [update] build in the store [w], and the
    store [w'] they leave: fresh trainable parameters, a weight with
    entries drawn by [normal_(0, 0.02)] within [[-2, 2]], a zero bias, and
    (with [with_norm]) a layer normalisation of unit weight and zero
    bias. *)
Definition fresh_head `{Generator} (w w' : World) (wn : bool) (embed nb : Z)
    (head : Sequential) : Prop :=
  let n := List.length (heap w) in
  let norm_tensors :=
    if wn then [mkTensor [embed] (repeat 1%R (Z.to_nat embed));
                mkTensor [embed] (repeat 0%R (Z.to_nat embed))]
    else [] in
  let n0 := (n + List.length norm_tensors)%nat in
  0 <= embed /\ 0 <= nb /\
  head =
    (if wn then [LayerNorm (mkLayerNorm embed (mkParam n true) (mkParam (S n) true))]
     else [])
    ++ [Linear (mkLinear embed nb (mkParam n0 true) (mkParam (S n0) true))] /\
  exists d,
    heap w' = heap w ++ norm_tensors
              ++ [mkTensor [nb; embed] d; mkTensor [nb] (repeat 0%R (Z.to_nat nb))] /\
    List.length d = Z.to_nat (nb * embed) /\
    Forall (fun x => (-2 <= x <= 2)%R) d /\
    Forall (is_draw 0 (2 / 100)) d.

(** A generator whose draws are all equal to the mean (and to the lower
    bound for [uniform_]). *)
Program Definition constant_generator : Generator := {|
  Gen := unit;
  normal_ := fun m s n g => (repeat m n, g);
  uniform_ := fun a b n g => (repeat a n, g)
|}.
Next Obligation. intros. simpl. apply repeat_length. Qed.
Next Obligation. intros. simpl. apply repeat_length. Qed.

(** A module with one head of one class on one feature, in a store that
    holds its two parameters. *)
Definition one_head_module : SimpleContinualLinear :=
  mkSimpleContinualLinear 1 false false
    [[Linear (mkLinear 1 1 (mkParam O true) (mkParam (S O) true))]] None.

Definition one_head_world : @World constant_generator :=
  @mkWorld constant_generator [mkTensor [1; 1] [0%R]; mkTensor [1] [0%R]] tt.

(** [o] is a [bs] by [c] matrix. *)
Definition is_matrix (bs c : Z) (o : Tensor) : Prop :=
  shape o = [bs; c] /\ 0 <= c /\
  List.length (data o) = (Z.to_nat bs * Z.to_nat c)%nat.

(** [__init__] followed by the given calls of [update]. *)
Definition grown `{Generator} (fuel : nat) (embed_dim nb_classes : Z)
    (feat_expand with_norm : bool) (calls : list (Z * bool)) : M SimpleContinualLinear :=
  self <-- SimpleContinualLinear_init fuel embed_dim nb_classes feat_expand with_norm;;
  updates fuel self calls.

Definition empty_world : @World constant_generator := @mkWorld constant_generator [] tt.

(** The keys of the module that a state dict lacks. *)
Definition missing_keys (params : list (key * Param)) (sd : list (key * loc)) : list key :=
  map fst (List.filter (fun kp => match dict_lookup sd (fst kp) with
                                  | None => true
                                  | Some _ => false
                                  end) params).

(** The module and the store after [backup()] of [one_head_module] in
    [one_head_world], and the store after the weight has then been set to
    [5]. *)
Definition one_head_backed_up : SimpleContinualLinear :=
  mkSimpleContinualLinear 1 false false
    [[Linear (mkLinear 1 1 (mkParam O true) (mkParam (S O) true))]]
    (Some [((O, O, weight_name), 2%nat); ((O, O, bias_name), 3%nat)]).

Definition one_head_backup_world : @World constant_generator :=
  @mkWorld constant_generator
    [mkTensor [1; 1] [0%R]; mkTensor [1] [0%R]; mkTensor [1; 1] [0%R]; mkTensor [1] [0%R]] tt.

Definition one_head_trained_world : @World constant_generator :=
  @mkWorld constant_generator
    [mkTensor [1; 1] [5%R]; mkTensor [1] [0%R]; mkTensor [1; 1] [0%R]; mkTensor [1] [0%R]] tt.

(** A cosine head with two proxies for its one class, reduced in
    [forward]. *)
Definition two_proxy_weight : Tensor := mkTensor [2; 1] [1%R; 1%R].
Definition reducing_cosine_head : CosineLinear :=
  mkCosineLinear 1 2 2 true two_proxy_weight (Some 2%R).

(** A [SimpleLinear] of one output on one feature whose parameters are
    the two tensors of [one_head_world]. *)
Definition simple_linear_1x1 : SimpleLinear :=
  mkSimpleLinear 1 1 (mkParam O true) (Some (mkParam (S O) true)).

(** *** The cosine similarity, as the specification words it *)

(** A vector divided by its Euclidean norm, and the cosine similarity of
    two vectors: the dot product of their L2-normalised versions. *)
Definition l2_normalized (v : list R) : list R :=
  map (fun x => (x / norm2 v)%R) v.

Definition cosine_similarity (u v : list R) : R :=
  dot (l2_normalized u) (l2_normalized v).

(** What the specification promises of [CosineLinear.forward] with
    [sigma = s] and [to_reduce = False] on a batch of [bs] rows: the
    logits are [s] times the cosine similarities of the rows, and those
    lie in [[-1, 1]]. *)
Definition CosineLinear_forward_claim (self : CosineLinear) (input : Tensor)
    (bs : Z) (s : R) : Prop :=
  exists out,
    CosineLinear_forward self input = Ok [("logits"%string, out)] /\
    forall i j : nat, Z.of_nat i < bs -> Z.of_nat j < cl_out_features self ->
      entry2 out i j
        = (s * cosine_similarity (row input i) (row (cl_weight self) j))%R /\
      (-1 <= cosine_similarity (row input i) (row (cl_weight self) j) <= 1)%R.

(** A batch of one row of norm [1e-13], and a batch of one row [(3, 4)]
    for a cosine head with the weight rows [(1, 0)] and [(0, 2)]. *)
Definition tiny_row : Tensor := mkTensor [1; 1] [(/ 10 ^ 13)%R].
Definition row_3_4 : Tensor := mkTensor [1; 2] [3%R; 4%R].
Definition weight_2x2 : Tensor := mkTensor [2; 2] [1%R; 0%R; 0%R; 2%R].
Definition cosine_head_2x2 : CosineLinear :=
  mkCosineLinear 2 2 1 false weight_2x2 (Some 2%R).

(** A split head on two features with two proxies per class: one old
    class, two new classes, [sigma = 3]. *)
Definition old_proxies : Tensor := mkTensor [2; 2] [1%R; 0%R; 0%R; 1%R].
Definition new_proxies : Tensor :=
  mkTensor [4; 2] [1%R; 1%R; 1%R; (-1)%R; 0%R; 2%R; 2%R; 0%R].
Definition split_head_2_proxies : SplitCosineLinear :=
  mkSplitCosineLinear 2 6 2
    (mkCosineLinear 2 2 2 false old_proxies None)
    (mkCosineLinear 2 4 2 false new_proxies None)
    (Some 3%R).

(** One row with the two proxy similarities [1] and [3] of one class. *)
Definition proxy_pair : Tensor := mkTensor [1; 2] [1%R; 3%R].

(** A store with one two-entry tensor and a generator that will draw
    [100], [1] and then zeros. *)
Definition two_entry_world : @World replay_generator :=
  @mkWorld replay_generator [mkTensor [2] [7%R; 7%R]] [100%R; 1%R].

(** What the specification promises of a [recall()] that follows
    [backup()] and [update()]: it raises instead of restoring, so that
    every parameter of the module is after the call what it was before. *)
Definition recall_raises_without_restoring `{Generator}
    (self : SimpleContinualLinear) (w : World) : Prop :=
  exists e w',
    SimpleContinualLinear_recall self w = Some (Raise e, w') /\
    Forall (fun kp => heap w' !! storage (snd kp) = heap w !! storage (snd kp))
           (named_parameters self).

(** * Correctly rounded division of Python integers *)

Lemma pow2_pos (x : Z) : 0 <= x -> 0 < 2 ^ x.
Proof. intros. apply Z.pow_pos_nonneg; lia. Qed.

Lemma pow2_split (x y : Z) : 0 <= x -> 0 <= y -> 2 ^ (x + y) = 2 ^ x * 2 ^ y.
Proof. intros. apply Z.pow_add_r; lia. Qed.

Lemma pow2_le (x y : Z) : 0 <= x <= y -> 2 ^ x <= 2 ^ y.
Proof. intros. apply Z.pow_le_mono_r; lia. Qed.

Lemma round_half_even_exact (k d : Z) : 0 < d -> round_half_even (k * d) d = k.
Proof.
  intros Hd. unfold round_half_even.
  rewrite Z.mod_mul, Z.div_mul by lia.
  destruct (Z.ltb_spec (2 * 0) d); [reflexivity | lia].
Qed.

Lemma round_half_even_near (n d : Z) :
  0 < d -> 2 * Z.abs (n - round_half_even n d * d) <= d.
Proof.
  intros Hd. unfold round_half_even.
  pose proof (Z.div_mod n d ltac:(lia)) as E.
  pose proof (Z.mod_pos_bound n d Hd) as B.
  destruct (Z.ltb_spec (2 * (n mod d)) d).
  - nia.
  - destruct (Z.ltb_spec d (2 * (n mod d))).
    + nia.
    + destruct (Z.even (n / d)); nia.
Qed.

Lemma floor_log2_quot_spec (a b : Z) :
  0 < a -> 0 < b ->
  let f := floor_log2_quot a b in
  b * 2 ^ Z.max 0 f <= a * 2 ^ Z.max 0 (- f) /\
  a * 2 ^ Z.max 0 (- (f + 1)) < b * 2 ^ Z.max 0 (f + 1).
Proof.
  intros Ha Hb. unfold floor_log2_quot.
  destruct (Z.log2_spec a Ha) as [La Ua].
  destruct (Z.log2_spec b Hb) as [Lb Ub].
  pose proof (Z.log2_nonneg a) as Na.
  pose proof (Z.log2_nonneg b) as Nb.
  set (la := Z.log2 a) in *. set (lb := Z.log2 b) in *.
  set (d := la - lb).
  destruct (Z.leb_spec (b * 2 ^ Z.max 0 d) (a * 2 ^ Z.max 0 (- d))) as [T|T]; cbn zeta.
  - split; [exact T|].
    destruct (Z.le_gt_cases 0 d) as [D|D].
    + rewrite (Z.max_l 0 (- (d + 1))), (Z.max_r 0 (d + 1)) by lia.
      replace (Z.succ la) with (lb + (d + 1)) in Ua by lia.
      rewrite pow2_split in Ua by lia.
      pose proof (pow2_pos (d + 1) ltac:(lia)). rewrite Z.pow_0_r. nia.
    + rewrite (Z.max_r 0 (- (d + 1))), (Z.max_l 0 (d + 1)) by lia.
      replace lb with (Z.succ la + (- (d + 1))) in Lb by lia.
      rewrite pow2_split in Lb by lia.
      pose proof (pow2_pos (- (d + 1)) ltac:(lia)). rewrite Z.pow_0_r. nia.
  - split; [|replace (d - 1 + 1) with d by lia; exact T].
    destruct (Z.le_gt_cases 1 d) as [D|D].
    + rewrite (Z.max_r 0 (d - 1)), (Z.max_l 0 (- (d - 1))) by lia.
      replace la with (lb + 1 + (d - 1)) in La by lia.
      rewrite pow2_split in La by lia.
      replace (lb + 1) with (Z.succ lb) in La by lia.
      pose proof (pow2_pos (d - 1) ltac:(lia)). rewrite Z.pow_0_r. nia.
    + rewrite (Z.max_l 0 (d - 1)), (Z.max_r 0 (- (d - 1))) by lia.
      replace (Z.succ lb) with (la + (- (d - 1))) in Ub by lia.
      rewrite pow2_split in Ub by lia.
      pose proof (pow2_pos (- (d - 1)) ltac:(lia)). rewrite Z.pow_0_r. nia.
Qed.

Lemma floor_log2_quot_mul (c b : Z) :
  0 < c -> 0 < b -> floor_log2_quot (c * b) b = Z.log2 c.
Proof.
  intros Hc Hb.
  pose proof (floor_log2_quot_spec (c * b) b ltac:(nia) Hb) as [L U].
  set (f := floor_log2_quot (c * b) b) in *. cbn zeta in L, U.
  destruct (Z.le_gt_cases 0 f) as [F|F].
  - rewrite (Z.max_r 0 f), (Z.max_l 0 (- f)) in L by lia.
    rewrite (Z.max_l 0 (- (f + 1))), (Z.max_r 0 (f + 1)) in U by lia.
    rewrite Z.pow_0_r in L, U.
    symmetry. apply Z.log2_unique; [lia|].
    replace (f + 1) with (Z.succ f) in U by lia.
    rewrite Z.mul_1_r in L, U. split.
    + apply (Z.mul_le_mono_pos_l _ _ b); lia.
    + apply (Z.mul_lt_mono_pos_l b); lia.
  - exfalso.
    rewrite (Z.max_r 0 (- (f + 1))), (Z.max_l 0 (f + 1)) in U by lia.
    rewrite Z.pow_0_r in U.
    pose proof (pow2_pos (- (f + 1)) ltac:(lia)).
    assert (1 <= c * 2 ^ (- (f + 1))) by nia.
    replace (c * b * 2 ^ (- (f + 1))) with (b * (c * 2 ^ (- (f + 1)))) in U by ring.
    nia.
Qed.

(** Exact quotients below [2 ^ 53] are computed exactly. *)
Lemma int_true_divide_exact (c b : Z) :
  0 <= c < 2 ^ 53 -> 0 < b ->
  exists f, int_true_divide (c * b) b = Ok f /\
            is_integer f = true /\ int_of_float f = c.
Proof.
  intros [Hc0 Hc] Hb. unfold int_true_divide.
  destruct (Z.eqb_spec b 0) as [|_]; [lia|].
  destruct (Z.eqb_spec (c * b) 0) as [E|E].
  - exists (mkfloat 0 0). repeat split. cbn. nia.
  - assert (0 < c) as Hc1 by nia.
    rewrite (Z.abs_eq (c * b)), (Z.abs_eq b) by nia.
    rewrite floor_log2_quot_mul by lia.
    pose proof (Z.log2_nonneg c) as N.
    assert (Z.log2 c < 53) as L by (apply Z.log2_lt_pow2; lia).
    set (l := Z.log2 c) in *.
    rewrite (Z.max_r (- 1074) (l - 52)) by lia.
    rewrite (Z.max_r 0 (- (l - 52))), (Z.max_l 0 (l - 52)) by lia.
    rewrite Z.pow_0_r, !Z.mul_1_r.
    replace (c * b * 2 ^ (- (l - 52))) with (c * 2 ^ (- (l - 52)) * b) by ring.
    rewrite round_half_even_exact by lia.
    assert (Z.sgn (c * b) * Z.sgn b = 1) as -> by (rewrite !Z.sgn_pos; nia).
    pose proof (pow2_pos (- (l - 52)) ltac:(lia)) as P.
    assert (2 ^ (- (l - 52)) <= 2 ^ 52) by (apply pow2_le; lia).
    destruct (Z.leb_spec (2 ^ 1024) (c * 2 ^ (- (l - 52)))) as [O|_].
    { exfalso. assert (2 ^ 53 * 2 ^ 52 < 2 ^ 1024) by (vm_compute; reflexivity). nia. }
    eexists. split; [reflexivity|]. rewrite Z.mul_1_l.
    unfold is_integer, int_of_float; cbn [fmant fexp].
    rewrite Z.mod_mul by lia.
    split; [apply orb_true_r|].
    destruct (Z.leb_spec 0 (l - 52)).
    + replace (l - 52) with 0 by lia. cbn. lia.
    + rewrite Z.quot_mul by lia. reflexivity.
Qed.

(** An inexact quotient of a numerator below [2 ^ 53] is not rounded to an
    integer. *)
Lemma int_true_divide_inexact (a b : Z) :
  0 < a < 2 ^ 53 -> 0 < b < 2 ^ 1075 -> ~ (b | a) ->
  exists f, int_true_divide a b = Ok f /\ is_integer f = false.
Proof.
  intros [Ha0 Ha] [Hb0 Hb] Hnd. unfold int_true_divide.
  destruct (Z.eqb_spec b 0) as [|_]; [lia|].
  destruct (Z.eqb_spec a 0) as [|_]; [lia|].
  rewrite (Z.abs_eq a), (Z.abs_eq b) by lia.
  pose proof (floor_log2_quot_spec a b Ha0 Hb0) as [L U].
  set (f := floor_log2_quot a b) in *. cbn zeta in L, U.
  assert (f <= 52) as F52.
  { destruct (Z.le_gt_cases f 52) as [|G]; [assumption | exfalso].
    rewrite (Z.max_r 0 f), (Z.max_l 0 (- f)), Z.pow_0_r in L by lia.
    assert (2 ^ 53 <= 2 ^ f) by (apply pow2_le; lia). nia. }
  set (e := Z.max (- 1074) (f - 52)).
  assert (- 1074 <= e <= 0) as [E0 E1] by (unfold e; lia).
  assert (f - 52 <= e) as E2 by (unfold e; lia).
  rewrite (Z.max_r 0 (- e)), (Z.max_l 0 e), Z.pow_0_r, !Z.mul_1_r by lia.
  pose proof (round_half_even_near (a * 2 ^ (- e)) b Hb0) as Near.
  set (m := round_half_even (a * 2 ^ (- e)) b) in *.
  pose proof (pow2_pos (- e) ltac:(lia)) as P.
  (* a * 2^(-e) < b * 2^53 *)
  assert (a * 2 ^ (- e) < b * 2 ^ 53) as Up.
  { destruct (Z.le_gt_cases 0 (f + 1)) as [G|G].
    - rewrite (Z.max_l 0 (- (f + 1))), (Z.max_r 0 (f + 1)), Z.pow_0_r in U by lia.
      assert (2 ^ (f + 1) * 2 ^ (- e) <= 2 ^ 53).
      { rewrite <- pow2_split by lia. apply pow2_le; lia. }
      pose proof (pow2_pos (f + 1) G). nia.
    - rewrite (Z.max_r 0 (- (f + 1))), (Z.max_l 0 (f + 1)), Z.pow_0_r in U by lia.
      assert (2 ^ (- e) <= 2 ^ (- (f + 1)) * 2 ^ 53).
      { rewrite <- pow2_split by lia. apply pow2_le; lia. }
      pose proof (pow2_pos (- (f + 1)) ltac:(lia)). nia. }
  assert (m <= 2 ^ 53) as M53 by nia.
  destruct (Z.leb_spec (2 ^ 1024) m) as [O|_].
  { exfalso. assert (2 ^ 53 < 2 ^ 1024) by (vm_compute; reflexivity). lia. }
  eexists. split; [reflexivity|].
  assert (Z.sgn a * Z.sgn b = 1) as -> by (rewrite !Z.sgn_pos; lia).
  rewrite Z.mul_1_l. unfold is_integer; cbn [fmant fexp].
  apply orb_false_iff. split.
  - (* e = 0 forces b = 1, which divides a *)
    apply Z.leb_gt. destruct (Z.eq_dec e 0) as [E|]; [exfalso | lia].
    assert (f = 52) by lia. subst f.
    rewrite (Z.max_r 0 (floor_log2_quot a b)), (Z.max_l 0 (- floor_log2_quot a b)),
      Z.pow_0_r in L by lia.
    replace (floor_log2_quot a b) with 52 in L by lia.
    assert (b = 1) by nia. subst b. apply Hnd. apply Z.divide_1_l.
  - apply Z.eqb_neq. intros Hm.
    apply Z.mod_divide in Hm; [|lia]. destruct Hm as [k Hk].
    rewrite Hk in Near.
    assert (a - k * b <> 0) as NZ.
    { intros Z0. apply Hnd. exists k. lia. }
    assert (2 * 2 ^ (- e) <= b) as Big.
    { replace (a * 2 ^ (- e) - k * 2 ^ (- e) * b) with ((a - k * b) * 2 ^ (- e)) in Near by ring.
      rewrite Z.abs_mul, (Z.abs_eq (2 ^ (- e))) in Near by lia.
      assert (1 <= Z.abs (a - k * b)) by lia. nia. }
    destruct (Z.eq_dec e (f - 52)) as [Ee|Ee].
    + destruct (Z.le_gt_cases 0 f) as [G|G].
      * rewrite (Z.max_r 0 f), (Z.max_l 0 (- f)), Z.pow_0_r in L by lia.
        assert (2 ^ 53 = 2 * 2 ^ (- e) * 2 ^ f) as E53.
        { replace 53 with (1 + (- e) + f) by lia.
          rewrite !pow2_split by lia. reflexivity. }
        pose proof (pow2_pos f G). nia.
      * rewrite (Z.max_l 0 f), (Z.max_r 0 (- f)), Z.pow_0_r in L by lia.
        assert (2 * 2 ^ (- e) = 2 ^ 53 * 2 ^ (- f)) as E53.
        { replace (- e) with (52 + - f) by lia.
          rewrite pow2_split by lia. replace 53 with (1 + 52) by lia.
          rewrite (pow2_split 1 52) by lia. ring. }
        pose proof (pow2_pos (- f) ltac:(lia)). nia.
    + assert (e = - 1074) by (unfold e in *; lia).
      assert (2 ^ 1075 = 2 * 2 ^ (- e)) as E75.
      { replace (- e) with 1074 by lia. reflexivity. }
      lia.
Qed.

(** * Rows of a contiguous tensor *)

(** ** Blocks of a flat list *)

Lemma length_chunks n k l : length (chunks n k l) = n.
Proof. revert l. induction n as [|n IH]; intros l; simpl; [reflexivity | by rewrite IH]. Qed.

Lemma chunks_lookup n k l i :
  (i < n)%nat -> chunks n k l !! i = Some (take k (drop (i * k) l)).
Proof.
  revert l i. induction n as [|n IH]; intros l i Hi; [lia|].
  destruct i as [|i]; simpl.
  - reflexivity.
  - rewrite IH by lia. rewrite drop_drop. reflexivity.
Qed.

Lemma chunks_each_length n k l :
  (n * k <= length l)%nat -> Forall (fun c => length c = k) (chunks n k l).
Proof.
  revert l. induction n as [|n IH]; intros l Hl; simpl; constructor.
  - rewrite length_take. lia.
  - apply IH. rewrite length_drop. lia.
Qed.

Lemma concat_chunks n k l : length l = (n * k)%nat -> concat (chunks n k l) = l.
Proof.
  revert l. induction n as [|n IH]; intros l Hl; simpl.
  - destruct l; [reflexivity | discriminate].
  - rewrite IH by (rewrite length_drop; lia). apply take_drop.
Qed.

Lemma chunks_concat k (ls : list (list R)) :
  Forall (fun c => length c = k) ls -> chunks (length ls) k (concat ls) = ls.
Proof.
  induction 1 as [|c ls Hc _ IH]; simpl; [reflexivity|].
  rewrite take_app_length' by (symmetry; exact Hc).
  rewrite drop_app_length' by (symmetry; exact Hc).
  by rewrite IH.
Qed.

Lemma chunks_zip_with (f : R -> R -> R) n k a b :
  chunks n k (zip_with f a b) = zip_with (zip_with f) (chunks n k a) (chunks n k b).
Proof.
  revert a b. induction n as [|n IH]; intros a b; simpl; [reflexivity|].
  rewrite zip_with_take, zip_with_drop, IH. reflexivity.
Qed.

Lemma chunks_concat_map (g : list R -> list R) n k l :
  (forall c, length (g c) = length c) -> (n * k <= length l)%nat ->
  chunks n k (concat (map g (chunks n k l))) = map g (chunks n k l).
Proof.
  intros Hg Hl.
  rewrite <- (length_chunks n k l) at 1.
  rewrite <- (length_map g (chunks n k l)).
  apply chunks_concat.
  apply Forall_map. eapply Forall_impl; [apply chunks_each_length, Hl|].
  intros c Hc; simpl. by rewrite Hg.
Qed.

Lemma list_as_map_nth (l : list R) :
  l = map (fun j => nth j l 0%R) (seq 0 (length l)).
Proof.
  apply list_eq. intros i.
  rewrite list_lookup_fmap.
  destruct (decide (i < length l)%nat) as [Hi|Hi].
  - rewrite lookup_seq_lt by assumption. simpl.
    destruct (lookup_lt_is_Some_2 l i Hi) as [x Hx].
    rewrite Hx. f_equal. by rewrite (nth_lookup_Some _ _ _ _ Hx).
  - rewrite lookup_seq_ge by lia. simpl. apply lookup_ge_None. lia.
Qed.

Lemma nth_take_drop (l : list R) k o j :
  (j < k)%nat -> nth j (take k (drop o l)) 0%R = nth (o + j) l 0%R.
Proof.
  intros Hj. rewrite !nth_lookup, lookup_take_lt, lookup_drop by assumption.
  reflexivity.
Qed.

Lemma length_concat_uniform (ls : list (list R)) k :
  Forall (fun c => length c = k) ls -> length (concat ls) = (length ls * k)%nat.
Proof.
  induction 1 as [|c ls Hc _ IH]; simpl; [reflexivity|].
  rewrite length_app, IH, Hc. reflexivity.
Qed.

(** * [reduce_proxies] on a matrix *)

Lemma Rsum_map_ext {A} (f g : A -> R) (l : list A) :
  (forall x, In x l -> f x = g x) -> Rsum (map f l) = Rsum (map g l).
Proof.
  induction l as [|x l IH]; intros H; simpl; [reflexivity|].
  rewrite H by (left; reflexivity). rewrite IH; [reflexivity|].
  intros y Hy. apply H. right. exact Hy.
Qed.

Lemma zip_with_map_same (f : R -> R) (l : list R) :
  zip_with Rmult (map f l) l = map (fun x => (f x * x)%R) l.
Proof. induction l as [|x l IH]; simpl; [reflexivity | by rewrite IH]. Qed.

(** The weighted sum of one block, read entry by entry. *)
Lemma block_score (ch : list R) :
  Rsum (zip_with Rmult (softmax_vec ch) ch) =
  proxy_score (fun j => nth j ch 0%R) (length ch).
Proof.
  unfold softmax_vec, proxy_score. rewrite zip_with_map_same.
  rewrite <- (map_map (fun j => nth j ch 0%R) exp), <- list_as_map_nth.
  rewrite (list_as_map_nth ch) at 1. rewrite map_map. reflexivity.
Qed.

Lemma reduce_proxies_one (out : Tensor) : reduce_proxies out 1 = Ok out.
Proof. reflexivity. Qed.

Lemma infer_size_plain (s : list Z) (n : Z) :
  Forall (fun d => 0 <= d <= int64_max) s -> numel s = n -> infer_size s n = Ok s.
Proof.
  intros Hs Hn. unfold infer_size.
  assert (existsb (fun d => (d <? -1) || (int64_max <? d)) s = false) as ->.
  { apply not_true_is_false. intros H. apply existsb_exists in H as (d & Hd & Hb).
    rewrite Forall_forall in Hs. apply list_elem_of_In, Hs in Hd.
    apply orb_true_iff in Hb as [Hb|Hb]; [apply Z.ltb_lt in Hb | apply Z.ltb_lt in Hb]; lia. }
  assert (List.filter (Z.eqb (-1)) s = []) as ->.
  { clear Hn. induction Hs as [|d s Hd _ IH]; simpl; [reflexivity|].
    destruct d as [|q|q]; simpl; [exact IH | exact IH | lia]. }
  simpl. apply Z.eqb_eq in Hn. rewrite Hn. reflexivity.
Qed.

Lemma reduce_proxies_reduces (out : Tensor) (nb_proxy bs C : Z) :
  1 < nb_proxy <= int64_max -> 0 <= C < 2 ^ 53 ->
  wf_tensor out -> shape out = [bs; C * nb_proxy] ->
  reduce_proxies_claim out nb_proxy bs C.
Proof.
  intros [Hnb Hnb64] HC [Hdims Hlen] Hshape.
  rewrite Hshape in Hdims, Hlen.
  apply Forall_cons in Hdims as [Hbs Hdims].
  unfold numel in Hlen; simpl in Hlen.
  destruct (int_true_divide_exact C nb_proxy HC ltac:(lia)) as (f & Hf & Hint & Hval).
  unfold reduce_proxies_claim, reduce_proxies.
  destruct (Z.eqb_spec nb_proxy 1) as [|_]; [lia|].
  unfold shape_at. rewrite Hshape. simpl.
  rewrite Hf. simpl. rewrite Hint. simpl. rewrite Hval.
  unfold view. rewrite Hshape.
  rewrite infer_size_plain; cycle 1.
  { repeat constructor; unfold int64_max in *; lia. }
  { unfold numel; simpl. ring. }
  simpl. unfold tensor_mul, F_softmax. simpl.
  rewrite decide_True by reflexivity.
  eexists. split; [reflexivity|]. split; [reflexivity|].
  intros i c Hi Hc. unfold tensor_sum_last, groups, entry2; simpl.
  rewrite Hshape. unfold last_dim, lead_dims. simpl.
  set (n := Z.to_nat (bs * (C * 1))).
  set (k := Z.to_nat nb_proxy).
  assert (length (data out) = (n * k)%nat) as Hdata.
  { unfold n, k. rewrite <- Z2Nat.inj_mul by nia. lia. }
  rewrite chunks_zip_with.
  rewrite chunks_concat_map; [| intros; unfold softmax_vec; apply length_map | rewrite Hdata; reflexivity].
  set (p := (i * Z.to_nat C + c)%nat).
  assert (p < n)%nat as Hp.
  { unfold p, n. rewrite Z.mul_1_r. rewrite Z2Nat.inj_mul by lia.
    assert (i < Z.to_nat bs)%nat by lia. assert (c < Z.to_nat C)%nat by lia. nia. }
  assert (chunks n k (data out) !! p = Some (take k (drop (p * k) (data out)))) as Hch
    by (apply chunks_lookup; exact Hp).
  erewrite nth_lookup_Some; cycle 1.
  { rewrite list_lookup_fmap, lookup_zip_with, list_lookup_fmap, Hch. simpl. reflexivity. }
  rewrite block_score.
  assert (length (take k (drop (p * k) (data out))) = k) as ->.
  { rewrite length_take, length_drop. nia. }
  unfold proxy_score.
  assert (forall j, (j < k)%nat ->
            nth j (take k (drop (p * k) (data out))) 0%R =
            nth (i * Z.to_nat (C * nb_proxy) + (c * k + j)) (data out) 0%R) as Hnth.
  { intros j Hj. rewrite nth_take_drop by exact Hj. f_equal.
    unfold p, k. rewrite Z2Nat.inj_mul by lia. lia. }
  erewrite (Rsum_map_ext (fun k0 => exp (nth k0 _ _))); cycle 1.
  { intros j Hj. apply in_seq in Hj. rewrite Hnth by lia. reflexivity. }
  apply Rsum_map_ext. intros j Hj. apply in_seq in Hj.
  rewrite Hnth by lia. reflexivity.
Qed.

(** * [reduce_proxies] beyond 53 bits *)

Lemma wf_empty_batch_odd : wf_tensor empty_batch_odd.
Proof.
  split; [|reflexivity].
  repeat constructor; unfold int64_max; lia.
Qed.

Lemma wf_empty_batch_wide : wf_tensor empty_batch_wide.
Proof.
  split; [|reflexivity].
  repeat constructor; unfold int64_max; lia.
Qed.

Lemma reduce_proxies_empty_batch_wide :
  reduce_proxies empty_batch_wide 2 = Ok (mkTensor [0; 2 ^ 53] []).
Proof. vm_compute. reflexivity. Qed.

Lemma reduce_proxies_empty_batch_odd :
  reduce_proxies empty_batch_odd 2 = Ok (mkTensor [0; 2 ^ 52] []).
Proof. vm_compute. reflexivity. Qed.

(** C6: on an empty batch of [2 * (2 ^ 53 + 1)] columns with two proxies
    per class, that is with [C = 2 ^ 53 + 1] classes, the result does not
    have the shape [(0, C)]: the quotient [2 ^ 53 + 1] is not a binary64
    value, the division rounds it to [2 ^ 53], and the call returns a
    tensor of shape [(0, 2 ^ 53)]. *)
Lemma reduce_proxies_shape_counterexample :
  wf_tensor empty_batch_wide /\
  shape empty_batch_wide = [0; (2 ^ 53 + 1) * 2] /\
  reduce_proxies empty_batch_wide 2 = Ok (mkTensor [0; 2 ^ 53] []) /\
  ~ reduce_proxies_claim empty_batch_wide 2 0 (2 ^ 53 + 1).
Proof.
  split; [exact wf_empty_batch_wide|]. split; [reflexivity|].
  split; [exact reduce_proxies_empty_batch_wide|].
  intros (r & Hr & Hs & _).
  rewrite reduce_proxies_empty_batch_wide in Hr.
  injection Hr as <-. simpl in Hs. injection Hs as Hs. lia.
Qed.

(** C10: on an empty batch of [2 ^ 53 + 1] columns with two proxies per
    class the second dimension is not divisible by [nb_proxy], and yet
    no assertion error is raised: [(2 ^ 53 + 1) / 2] is rounded to the
    integer [2 ^ 52], and the call returns a tensor of shape
    [(0, 2 ^ 52)]. *)
Theorem reduce_proxies_assert_slip :
  wf_tensor empty_batch_odd /\
  ~ (2 | 2 ^ 53 + 1) /\
  reduce_proxies empty_batch_odd 2 = Ok (mkTensor [0; 2 ^ 52] []) /\
  ~ reduce_proxies_assert_claim empty_batch_odd 2 (2 ^ 53 + 1).
Proof.
  assert (~ (2 | 2 ^ 53 + 1)) as Hnd.
  { intros [k Hk]. lia. }
  split; [exact wf_empty_batch_odd|]. split; [exact Hnd|].
  split; [exact reduce_proxies_empty_batch_odd|].
  intros [[_ Hraise] _]. specialize (Hraise Hnd).
  rewrite reduce_proxies_empty_batch_odd in Hraise. discriminate.
Qed.

(** Below [2 ^ 53] columns the assertion is exactly the divisibility
    test. *)
Lemma reduce_proxies_assert_small (out : Tensor) (nb_proxy bs cols : Z) :
  1 < nb_proxy <= int64_max -> cols < 2 ^ 53 ->
  wf_tensor out -> shape out = [bs; cols] ->
  reduce_proxies_assert_claim out nb_proxy cols.
Proof.
  intros Hnb Hcols Hwf Hshape.
  assert (0 <= cols) as Hc0.
  { destruct Hwf as [Hd _]. rewrite Hshape in Hd.
    apply Forall_cons in Hd as [_ Hd]. apply Forall_cons in Hd as [Hd _]. lia. }
  assert ((nb_proxy | cols) -> exists r, reduce_proxies out nb_proxy = Ok r) as Hok.
  { intros [C HC]. subst cols.
    destruct (reduce_proxies_reduces out nb_proxy bs C) as (r & Hr & _); try assumption.
    - nia.
    - exists r. exact Hr. }
  split; [|exact Hok]. split.
  - intros Hraise [C HC]. destruct Hok as [r Hr]; [by exists C|]. congruence.
  - intros Hnd.
    assert (0 < cols) as Hpos.
    { destruct (Z.eq_dec cols 0) as [->|]; [|lia]. exfalso. apply Hnd. apply Z.divide_0_r. }
    assert (0 < nb_proxy < 2 ^ 1075) as Hb.
    { unfold int64_max in Hnb. assert (2 ^ 63 < 2 ^ 1075) by (vm_compute; reflexivity). lia. }
    destruct (int_true_divide_inexact cols nb_proxy ltac:(lia) Hb Hnd) as (f & Hf & Hint).
    unfold reduce_proxies.
    destruct (Z.eqb_spec nb_proxy 1) as [|_]; [lia|].
    unfold shape_at. rewrite Hshape. simpl. rewrite Hf. simpl. rewrite Hint. reflexivity.
Qed.

(** * Normalised rows and [F.linear] *)

(** ** Matrices *)

Lemma groups_matrix (t : Tensor) (r k : Z) :
  shape t = [r; k] -> groups t = chunks (Z.to_nat r) (Z.to_nat k) (data t).
Proof.
  intros Hs. unfold groups, lead_dims, last_dim. rewrite Hs. simpl.
  rewrite Z.mul_1_r. reflexivity.
Qed.

Lemma wf_matrix_length (t : Tensor) (r k : Z) :
  wf_tensor t -> shape t = [r; k] ->
  0 <= r /\ 0 <= k /\ length (data t) = (Z.to_nat r * Z.to_nat k)%nat.
Proof.
  intros [Hd Hl] Hs. rewrite Hs in Hd, Hl.
  apply Forall_cons in Hd as [Hr Hd]. apply Forall_cons in Hd as [Hk _].
  unfold numel in Hl; simpl in Hl.
  split; [lia|]. split; [lia|]. rewrite <- Z2Nat.inj_mul by lia. lia.
Qed.

Lemma chunks_as_map n k (l : list R) :
  chunks n k l = map (fun i => take k (drop (i * k) l)) (seq 0 n).
Proof.
  apply list_eq. intros i. rewrite list_lookup_fmap.
  destruct (decide (i < n)%nat) as [Hi|Hi].
  - rewrite chunks_lookup, lookup_seq_lt by assumption. reflexivity.
  - rewrite lookup_seq_ge by lia. apply lookup_ge_None. rewrite length_chunks. lia.
Qed.

(** Entry [j] of block [i] of a concatenation of blocks of one length. *)
Lemma nth_concat_uniform (ls : list (list R)) k i j (b : list R) :
  Forall (fun c => length c = k) ls -> ls !! i = Some b -> (j < k)%nat ->
  nth (i * k + j) (concat ls) 0%R = nth j b 0%R.
Proof.
  intros Hall Hb Hj.
  pose proof (chunks_concat k ls Hall) as Hc.
  assert (i < length ls)%nat as Hi by (eapply lookup_lt_Some; eassumption).
  pose proof (chunks_lookup (length ls) k (concat ls) i Hi) as Hl.
  rewrite Hc, Hb in Hl. injection Hl as ->.
  rewrite nth_take_drop by assumption. reflexivity.
Qed.

(** [F.normalize] on a matrix normalises every row. *)
Lemma F_normalize_matrix (t : Tensor) (r k : Z) :
  wf_tensor t -> shape t = [r; k] ->
  F_normalize t = Ok (mkTensor [r; k] (concat (map normalized (groups t)))).
Proof.
  intros Hwf Hs.
  destruct (wf_matrix_length t r k Hwf Hs) as (Hr & Hk & Hlen).
  unfold F_normalize. rewrite Hs. f_equal. f_equal.
  rewrite (groups_matrix t r k Hs).
  change (numel []) with 1. change (Z.to_nat 1) with 1%nat.
  set (n := Z.to_nat r) in *. set (m := Z.to_nat k) in *.
  set (f := fun (p : nat) (x : R) => _).
  rewrite <- (concat_chunks n m (imap f (data t))) by (rewrite length_imap; exact Hlen).
  f_equal. apply list_eq. intros i.
  rewrite list_lookup_fmap.
  destruct (decide (i < n)%nat) as [Hi|Hi]; cycle 1.
  { rewrite (proj2 (lookup_ge_None _ _)) by (rewrite length_chunks; lia).
    rewrite (proj2 (lookup_ge_None _ _)) by (rewrite length_chunks; lia). reflexivity. }
  rewrite !chunks_lookup by assumption. simpl. f_equal.
  set (rw := take m (drop (i * m) (data t))).
  assert (length rw = m) as Hrw.
  { unfold rw. rewrite length_take, length_drop. nia. }
  apply list_eq. intros j. unfold normalized.
  rewrite list_lookup_fmap.
  destruct (decide (j < m)%nat) as [Hj|Hj]; cycle 1.
  { rewrite lookup_take_ge by lia.
    rewrite (proj2 (lookup_ge_None rw j)) by lia. reflexivity. }
  rewrite lookup_take_lt, lookup_drop, list_lookup_imap by assumption.
  unfold rw at 2. rewrite lookup_take_lt, lookup_drop by assumption.
  destruct (data t !! (i * m + j)%nat) as [x|]; [simpl | reflexivity].
  f_equal. unfold f. f_equal. f_equal. f_equal.
  rewrite (list_as_map_nth rw), Hrw.
  apply map_ext_in. intros c Hc. apply in_seq in Hc.
  unfold rw. rewrite nth_take_drop by lia. f_equal.
  assert (((i * m + j) / (m * 1))%nat = i) as ->.
  { rewrite Nat.mul_1_r. symmetry. apply (Nat.div_unique _ _ _ j); lia. }
  rewrite Nat.mod_1_r. lia.
Qed.

Lemma normalized_length (v : list R) : length (normalized v) = length v.
Proof. unfold normalized. apply length_map. Qed.

Lemma groups_normalized (t : Tensor) (r k : Z) :
  wf_tensor t -> shape t = [r; k] ->
  groups (mkTensor [r; k] (concat (map normalized (groups t)))) =
  map normalized (groups t).
Proof.
  intros Hwf Hs.
  destruct (wf_matrix_length t r k Hwf Hs) as (Hr & Hk & Hlen).
  rewrite (groups_matrix (mkTensor _ _) r k eq_refl), (groups_matrix t r k Hs). simpl.
  apply chunks_concat_map; [apply normalized_length | lia].
Qed.

(** [F.linear] without bias on matrices. *)
Lemma F_linear_matrix (x w : Tensor) (bs o k : Z) :
  shape x = [bs; k] -> shape w = [o; k] ->
  F_linear x w None =
  Ok (mkTensor [bs; o] (concat (map (fun xi => map (dot xi) (groups w)) (groups x)))).
Proof.
  intros Hx Hw. unfold F_linear. rewrite Hx, Hw.
  unfold last_dim, lead_dims. simpl. rewrite Z.eqb_refl. reflexivity.
Qed.

Lemma F_linear_mismatch (x w : Tensor) (bs o k k' : Z) :
  shape x = [bs; k] -> shape w = [o; k'] -> k <> k' ->
  F_linear x w None = Raise RuntimeError.
Proof.
  intros Hx Hw Hk. unfold F_linear. rewrite Hx, Hw.
  unfold last_dim. simpl. destruct (Z.eqb_spec k k'); [contradiction | reflexivity].
Qed.

(** The raw scores of a cosine head are the cosine matrix. *)
Lemma cosine_scores (x w : Tensor) (bs o k : Z) :
  wf_tensor x -> shape x = [bs; k] -> wf_tensor w -> shape w = [o; k] ->
  (nx <- F_normalize x;; nw <- F_normalize w;; F_linear nx nw None) =
  Ok (cosine_matrix x w).
Proof.
  intros Hwx Hx Hww Hw.
  rewrite (F_normalize_matrix x bs k Hwx Hx). simpl.
  rewrite (F_normalize_matrix w o k Hww Hw). simpl.
  erewrite (F_linear_matrix _ _ bs o k); [| reflexivity | reflexivity].
  rewrite (groups_normalized x bs k Hwx Hx), (groups_normalized w o k Hww Hw).
  unfold cosine_matrix. rewrite Hx, Hw. simpl. f_equal. f_equal. f_equal.
  rewrite map_map. apply map_ext. intros xi. rewrite map_map. reflexivity.
Qed.

(** * Cosines lie in the unit interval *)

(** ** The Cauchy-Schwarz bound *)

Lemma Rsum_squares_nonneg (v : list R) : (0 <= Rsum (map (fun x => x * x) v))%R.
Proof. induction v as [|x v IH]; simpl; [lra | nra]. Qed.

Lemma cauchy_schwarz (u v : list R) :
  (dot u v * dot u v <=
   Rsum (map (fun x => x * x) u) * Rsum (map (fun x => x * x) v))%R.
Proof.
  unfold dot. revert v. induction u as [|a u IH]; intros v.
  - simpl. pose proof (Rsum_squares_nonneg v). lra.
  - destruct v as [|b v].
    + simpl. pose proof (Rsum_squares_nonneg u). nra.
    + simpl. specialize (IH v).
      pose proof (Rsum_squares_nonneg u) as HA.
      pose proof (Rsum_squares_nonneg v) as HB.
      set (S := Rsum (zip_with Rmult u v)) in *.
      set (A := Rsum (map (fun x => x * x) u)%R) in *.
      set (B := Rsum (map (fun x => x * x) v)%R) in *.
      assert (0 <= a * a)%R as Ha by nra.
      assert (0 <= b * b)%R as Hb by nra.
      assert (0 <= a * a * B)%R as HaB by (apply Rmult_le_pos; assumption).
      assert (0 <= b * b * A)%R as HbA by (apply Rmult_le_pos; assumption).
      assert (0 <= a * a * B + b * b * A)%R as HX by lra.
      assert ((2 * a * b * S) * (2 * a * b * S) <=
              (a * a * B + b * b * A) * (a * a * B + b * b * A))%R as HY.
      { assert (0 <= (a * a * B - b * b * A) * (a * a * B - b * b * A))%R as H1
          by apply (Rle_0_sqr (a * a * B - b * b * A)).
        assert (0 <= (a * b) * (a * b) * (A * B - S * S))%R as H2.
        { apply Rmult_le_pos; [apply (Rle_0_sqr (a * b)) | lra]. }
        assert ((a * a * B + b * b * A) * (a * a * B + b * b * A)
                - (2 * a * b * S) * (2 * a * b * S)
                = (a * a * B - b * b * A) * (a * a * B - b * b * A)
                  + 4 * ((a * b) * (a * b) * (A * B - S * S)))%R as H3 by ring.
        lra. }
      assert (2 * a * b * S <= a * a * B + b * b * A)%R as HZ.
      { apply Rsqr_incr_0_var; [exact HY | exact HX]. }
      assert ((a * b + S) * (a * b + S)
              = a * a * (b * b) + 2 * a * b * S + S * S)%R as H4 by ring.
      assert ((a * a + A) * (b * b + B)
              = a * a * (b * b) + (a * a * B + b * b * A) + A * B)%R as H5 by ring.
      lra.
Qed.

Lemma dot_scaled (a b : R) (u v : list R) :
  a <> 0%R -> b <> 0%R ->
  dot (map (fun x => x / a)%R u) (map (fun y => y / b)%R v) = (dot u v / (a * b))%R.
Proof.
  intros Ha Hb. unfold dot. revert v.
  induction u as [|x u IH]; intros v; simpl.
  - field. split; assumption.
  - destruct v as [|y v]; simpl.
    + field. split; assumption.
    + rewrite IH. field. split; assumption.
Qed.

Lemma norm2_nonneg (v : list R) : (0 <= norm2 v)%R.
Proof. unfold norm2. apply sqrt_pos. Qed.

Lemma normalize_eps_pos : (0 < normalize_eps)%R.
Proof. unfold normalize_eps. apply Rinv_0_lt_compat. apply pow_lt. lra. Qed.

Lemma abs_dot_le_norms (u v : list R) : (Rabs (dot u v) <= norm2 u * norm2 v)%R.
Proof.
  unfold norm2. rewrite <- sqrt_mult by apply Rsum_squares_nonneg.
  rewrite <- sqrt_Rsqr_abs. apply sqrt_le_1_alt. unfold Rsqr.
  apply cauchy_schwarz.
Qed.

(** The cosine of two normalised vectors lies in [[-1, 1]]. *)
Lemma cosine_bounded (u v : list R) :
  (-1 <= dot (normalized u) (normalized v) <= 1)%R.
Proof.
  unfold normalized.
  pose proof normalize_eps_pos as He.
  pose proof (norm2_nonneg u) as Hu. pose proof (norm2_nonneg v) as Hv.
  pose proof (Rmax_l (norm2 u) normalize_eps) as Hau.
  pose proof (Rmax_r (norm2 u) normalize_eps) as Hau'.
  pose proof (Rmax_l (norm2 v) normalize_eps) as Hbv.
  pose proof (Rmax_r (norm2 v) normalize_eps) as Hbv'.
  set (a := Rmax (norm2 u) normalize_eps) in *.
  set (b := Rmax (norm2 v) normalize_eps) in *.
  rewrite dot_scaled by lra.
  pose proof (abs_dot_le_norms u v) as Hcs.
  assert (0 < a * b)%R as Hab by (apply Rmult_lt_0_compat; lra).
  assert (norm2 u * norm2 v <= a * b)%R as Hle
    by (apply Rmult_le_compat; lra).
  assert (Rabs (dot u v) <= a * b)%R as Habs by lra.
  assert (- (a * b) <= dot u v <= a * b)%R as [Hlo Hhi].
  { unfold Rabs in Habs. destruct (Rcase_abs (dot u v)); lra. }
  split.
  - apply (Rmult_le_reg_r (a * b)); [exact Hab|].
    unfold Rdiv. rewrite Rmult_assoc, Rinv_l by lra. lra.
  - apply (Rmult_le_reg_r (a * b)); [exact Hab|].
    unfold Rdiv. rewrite Rmult_assoc, Rinv_l by lra. lra.
Qed.

(** ** Entries of the cosine matrix *)

Lemma row_groups (t : Tensor) (r k : Z) (i : nat) :
  shape t = [r; k] -> (i < Z.to_nat r)%nat -> groups t !! i = Some (row t i).
Proof.
  intros Hs Hi. rewrite (groups_matrix t r k Hs). unfold row, last_dim.
  rewrite Hs. simpl. apply chunks_lookup. exact Hi.
Qed.

Lemma length_groups_matrix (t : Tensor) (r k : Z) :
  shape t = [r; k] -> length (groups t) = Z.to_nat r.
Proof. intros Hs. rewrite (groups_matrix t r k Hs). apply length_chunks. Qed.

Lemma cosine_matrix_shape (x w : Tensor) (bs o k : Z) :
  shape x = [bs; k] -> shape w = [o; k] -> shape (cosine_matrix x w) = [bs; o].
Proof. intros Hx Hw. unfold cosine_matrix. rewrite Hx, Hw. reflexivity. Qed.

Lemma cosine_matrix_entry (x w : Tensor) (bs o k : Z) (i j : nat) :
  shape x = [bs; k] -> shape w = [o; k] ->
  (i < Z.to_nat bs)%nat -> (j < Z.to_nat o)%nat ->
  entry2 (cosine_matrix x w) i j = dot (normalized (row x i)) (normalized (row w j)).
Proof.
  intros Hx Hw Hi Hj. unfold entry2.
  rewrite (cosine_matrix_shape x w bs o k Hx Hw). unfold last_dim. simpl.
  unfold cosine_matrix. simpl.
  rewrite (nth_concat_uniform _ (Z.to_nat o) i j
             (map (fun wj => dot (normalized (row x i)) (normalized wj)) (groups w)));
    [| | | exact Hj].
  - rewrite nth_lookup, list_lookup_fmap, (row_groups w o k j Hw Hj). reflexivity.
  - apply Forall_map. apply Forall_forall. intros xi _. simpl.
    rewrite length_map. apply (length_groups_matrix w o k Hw).
  - rewrite list_lookup_fmap, (row_groups x bs k i Hx Hi). reflexivity.
Qed.

Lemma cosine_matrix_wf (x w : Tensor) (bs o k : Z) :
  wf_tensor x -> shape x = [bs; k] -> wf_tensor w -> shape w = [o; k] ->
  wf_tensor (cosine_matrix x w).
Proof.
  intros [Hdx _] Hx [Hdw _] Hw. rewrite Hx in Hdx. rewrite Hw in Hdw.
  apply Forall_cons in Hdx as [Hbs _]. apply Forall_cons in Hdw as [Ho _].
  split.
  - rewrite (cosine_matrix_shape x w bs o k Hx Hw). repeat constructor; lia.
  - rewrite (cosine_matrix_shape x w bs o k Hx Hw). unfold cosine_matrix. simpl.
    rewrite (length_concat_uniform _ (Z.to_nat o)).
    + rewrite length_map, (length_groups_matrix x bs k Hx).
      rewrite <- Z2Nat.inj_mul by lia. lia.
    + apply Forall_map. apply Forall_forall. intros xi _. simpl.
      rewrite length_map. apply (length_groups_matrix w o k Hw).
Qed.

(** * Concatenation of score blocks *)

(** ** Concatenation of two matrices along dimension 1 *)

Lemma zip_with_app_map_seq (f g : nat -> list R) (n : nat) :
  zip_with app (map f (seq 0 n)) (map g (seq 0 n)) = map (fun i => f i ++ g i) (seq 0 n).
Proof.
  generalize 0%nat. induction n as [|n IH]; intros s; simpl; [reflexivity|].
  rewrite IH. reflexivity.
Qed.

Lemma torch_cat1_pair (a b : Tensor) (bs p q : Z) :
  shape a = [bs; p] -> shape b = [bs; q] ->
  torch_cat1 [a; b] = Ok (hcat a b).
Proof.
  intros Ha Hb. unfold torch_cat1, hcat. rewrite Ha. simpl.
  rewrite Ha, Hb. simpl. rewrite !bool_decide_eq_true_2 by reflexivity. simpl.
  rewrite Z.add_0_r. f_equal. f_equal. f_equal.
  rewrite (groups_matrix a bs p Ha), (groups_matrix b bs q Hb).
  rewrite !chunks_as_map, zip_with_app_map_seq.
  apply map_ext. intros i. unfold slab. rewrite Ha, Hb. simpl.
  rewrite !Z.mul_1_r, app_nil_r. reflexivity.
Qed.

Lemma hcat_shape (a b : Tensor) (bs p q : Z) :
  shape a = [bs; p] -> shape b = [bs; q] -> shape (hcat a b) = [bs; p + q].
Proof. intros Ha Hb. unfold hcat. rewrite Ha, Hb. reflexivity. Qed.

Lemma hcat_blocks (a b : Tensor) (bs p q : Z) :
  wf_tensor a -> shape a = [bs; p] -> wf_tensor b -> shape b = [bs; q] ->
  Forall (fun c => length c = Z.to_nat (p + q)) (zip_with app (groups a) (groups b)).
Proof.
  intros Hwa Ha Hwb Hb.
  destruct (wf_matrix_length a bs p Hwa Ha) as (Hbs & Hp & Hla).
  destruct (wf_matrix_length b bs q Hwb Hb) as (_ & Hq & Hlb).
  rewrite (groups_matrix a bs p Ha), (groups_matrix b bs q Hb).
  rewrite !chunks_as_map, zip_with_app_map_seq.
  apply Forall_map. apply Forall_forall. intros i Hi. simpl.
  apply list_elem_of_In, in_seq in Hi.
  rewrite length_app, !length_take, !length_drop, Z2Nat.inj_add by lia. nia.
Qed.

Lemma hcat_wf (a b : Tensor) (bs p q : Z) :
  wf_tensor a -> shape a = [bs; p] -> wf_tensor b -> shape b = [bs; q] ->
  p + q <= int64_max -> wf_tensor (hcat a b).
Proof.
  intros Hwa Ha Hwb Hb Hpq.
  destruct (wf_matrix_length a bs p Hwa Ha) as (Hbs & Hp & Hla).
  destruct (wf_matrix_length b bs q Hwb Hb) as (_ & Hq & Hlb).
  assert (bs <= int64_max) as Hbs'.
  { destruct Hwa as [Hd _]. rewrite Ha in Hd. apply Forall_cons in Hd as [Hd _]. lia. }
  split; rewrite (hcat_shape a b bs p q Ha Hb).
  - repeat constructor; lia.
  - unfold hcat; simpl.
    rewrite (length_concat_uniform _ _ (hcat_blocks a b bs p q Hwa Ha Hwb Hb)).
    rewrite length_zip_with, (length_groups_matrix a bs p Ha),
      (length_groups_matrix b bs q Hb).
    rewrite Nat.min_id, <- Z2Nat.inj_mul by lia. lia.
Qed.

(** The columns of the first matrix come first. *)
Lemma hcat_entry (a b : Tensor) (bs p q : Z) (i j : nat) :
  wf_tensor a -> shape a = [bs; p] -> wf_tensor b -> shape b = [bs; q] ->
  (i < Z.to_nat bs)%nat -> (j < Z.to_nat (p + q))%nat ->
  entry2 (hcat a b) i j =
  if (j <? Z.to_nat p)%nat then entry2 a i j else entry2 b i (j - Z.to_nat p).
Proof.
  intros Hwa Ha Hwb Hb Hi Hj.
  destruct (wf_matrix_length a bs p Hwa Ha) as (Hbs & Hp & Hla).
  destruct (wf_matrix_length b bs q Hwb Hb) as (_ & Hq & Hlb).
  unfold entry2 at 1. rewrite (hcat_shape a b bs p q Ha Hb).
  unfold last_dim. simpl. unfold hcat. simpl.
  rewrite (nth_concat_uniform _ (Z.to_nat (p + q)) i j (row a i ++ row b i));
    [| exact (hcat_blocks a b bs p q Hwa Ha Hwb Hb) | | exact Hj].
  - assert (length (row a i) = Z.to_nat p) as Hra.
    { unfold row, last_dim. rewrite Ha. simpl. rewrite length_take, length_drop. nia. }
    destruct (Nat.ltb_spec j (Z.to_nat p)) as [Hlt|Hge].
    + rewrite app_nth1 by lia. unfold row, entry2, last_dim. rewrite Ha. simpl.
      apply nth_take_drop. exact Hlt.
    + rewrite app_nth2 by lia. rewrite Hra.
      unfold row, entry2, last_dim. rewrite Hb. simpl.
      apply nth_take_drop. rewrite Z2Nat.inj_add in Hj by lia. lia.
  - rewrite lookup_zip_with, (row_groups a bs p i Ha Hi), (row_groups b bs q i Hb Hi).
    reflexivity.
Qed.

(** ** Forward passes of the cosine heads *)

Lemma CosineLinear_forward_unfold (self : CosineLinear) (input : Tensor) (bs : Z) :
  CosineLinear_ok self -> wf_tensor input ->
  shape input = [bs; cl_in_features self] ->
  CosineLinear_forward self input =
  (out <- (if cl_to_reduce self
           then reduce_proxies (cosine_matrix input (cl_weight self)) (cl_nb_proxy self)
           else Ok (cosine_matrix input (cl_weight self)));;
   Ok [("logits"%string, apply_sigma (cl_sigma self) out)]).
Proof.
  intros [Hww Hw] Hwx Hx.
  pose proof (cosine_scores input (cl_weight self) bs _ _ Hwx Hx Hww Hw) as H.
  unfold CosineLinear_forward.
  destruct (F_normalize input) as [ni|e1]; simpl in H |- *; [|discriminate].
  destruct (F_normalize (cl_weight self)) as [nw|e2]; simpl in H |- *; [|discriminate].
  rewrite H. reflexivity.
Qed.

Lemma entry2_tensor_scale (s : R) (t : Tensor) (i j : nat) :
  entry2 (tensor_scale s t) i j = (s * entry2 t i j)%R.
Proof.
  unfold entry2, tensor_scale. simpl.
  rewrite !nth_lookup, list_lookup_fmap.
  destruct (data t !! _); simpl; [reflexivity | lra].
Qed.

Lemma getitem_logits (t : Tensor) : getitem [("logits"%string, t)] "logits" = Ok t.
Proof. reflexivity. Qed.

(** * The cosine classifiers *)

Lemma wf_unit_matrix : wf_tensor unit_matrix.
Proof. split; [repeat constructor; unfold int64_max; lia | reflexivity]. Qed.

Lemma wf_zero_pair : wf_tensor zero_pair.
Proof. split; [repeat constructor; unfold int64_max; lia | reflexivity]. Qed.

Lemma wf_row_3_4 : wf_tensor row_3_4.
Proof. split; [repeat constructor; unfold int64_max; lia | reflexivity]. Qed.

Lemma wf_weight_2x2 : wf_tensor weight_2x2.
Proof. split; [repeat constructor; unfold int64_max; lia | reflexivity]. Qed.

Lemma wf_tiny_row : wf_tensor tiny_row.
Proof. split; [repeat constructor; unfold int64_max; lia | reflexivity]. Qed.

Lemma clamp_le_1 : (/ 10 ^ 12 <= 1)%R.
Proof.
  apply Rmult_le_reg_l with (10 ^ 12)%R; [apply pow_lt; lra|].
  rewrite Rinv_r by (apply pow_nonzero; lra). rewrite Rmult_1_r.
  apply pow_R1_Rle. lra.
Qed.

Lemma clamp_pos (x : R) : (0 < Rmax x (/ 10 ^ 12))%R.
Proof.
  assert (0 < / 10 ^ 12)%R by (apply Rinv_0_lt_compat, pow_lt; lra).
  pose proof (Rmax_r x (/ 10 ^ 12)). lra.
Qed.

(** Entry [(i, j)] of the matrix that [forward] computes: the dot product
    of the two rows over the product of their norms, each norm clamped
    from below by [1e-12]. *)
Lemma cosine_matrix_clamped (x w : Tensor) (bs o k : Z) (i j : nat) :
  shape x = [bs; k] -> shape w = [o; k] ->
  (i < Z.to_nat bs)%nat -> (j < Z.to_nat o)%nat ->
  entry2 (cosine_matrix x w) i j =
  (dot (row x i) (row w j)
   / (Rmax (norm2 (row x i)) (/ 10 ^ 12) * Rmax (norm2 (row w j)) (/ 10 ^ 12)))%R.
Proof.
  intros Hx Hw Hi Hj.
  rewrite (cosine_matrix_entry x w bs o k i j Hx Hw Hi Hj).
  unfold normalized, normalize_eps.
  apply dot_scaled.
  - pose proof (clamp_pos (norm2 (row x i))). lra.
  - pose proof (clamp_pos (norm2 (row w j))). lra.
Qed.

Lemma clamped_is_cosine (u v : list R) :
  (/ 10 ^ 12 <= norm2 u)%R -> (/ 10 ^ 12 <= norm2 v)%R ->
  (dot u v / (Rmax (norm2 u) (/ 10 ^ 12) * Rmax (norm2 v) (/ 10 ^ 12)))%R
  = cosine_similarity u v.
Proof.
  intros Hu Hv.
  assert (0 < / 10 ^ 12)%R as He by (apply Rinv_0_lt_compat, pow_lt; lra).
  rewrite (Rmax_left (norm2 u)), (Rmax_left (norm2 v)) by assumption.
  unfold cosine_similarity, l2_normalized. symmetry. apply dot_scaled; lra.
Qed.

Lemma CosineLinear_forward_entries
    (self : CosineLinear) (input : Tensor) (bs : Z) (s : R) :
  CosineLinear_ok self -> cl_sigma self = Some s ->
  wf_tensor input -> shape input = [bs; cl_in_features self] ->
  let sim := cosine_matrix input (cl_weight self) in
  shape sim = [bs; cl_out_features self] /\
  (cl_to_reduce self = false ->
   CosineLinear_forward self input = Ok [("logits"%string, tensor_scale s sim)]) /\
  (cl_to_reduce self = true ->
   CosineLinear_forward self input =
   (r <- reduce_proxies sim (cl_nb_proxy self);;
    Ok [("logits"%string, tensor_scale s r)])) /\
  forall i j : nat, Z.of_nat i < bs -> Z.of_nat j < cl_out_features self ->
    entry2 sim i j =
    (dot (row input i) (row (cl_weight self) j)
     / (Rmax (norm2 (row input i)) (/ 10 ^ 12)
        * Rmax (norm2 (row (cl_weight self) j)) (/ 10 ^ 12)))%R.
Proof.
  intros Hok Hs Hwx Hx sim.
  pose proof (CosineLinear_forward_unfold self input bs Hok Hwx Hx) as Hf.
  rewrite Hs in Hf. simpl in Hf. fold sim in Hf.
  destruct Hok as [Hww Hw].
  split; [|split; [|split]].
  - apply (cosine_matrix_shape input _ bs _ (cl_in_features self)); assumption.
  - intros Hr. rewrite Hf, Hr. reflexivity.
  - intros Hr. rewrite Hf, Hr. reflexivity.
  - intros i j Hi Hj.
    apply (cosine_matrix_clamped input (cl_weight self) bs (cl_out_features self)
             (cl_in_features self)); try assumption; lia.
Qed.

(** C4 (amended): with [sigma] present and [to_reduce = False], [forward]
    returns as ['logits'] sigma times the matrix whose entry [(i, j)] is
    the dot product of row [i] of the input and row [j] of the weight
    divided by the product of their Euclidean norms, each norm clamped
    from below by [1e-12]; for rows of norm at least [1e-12] this is
    their cosine similarity.  In exact arithmetic every entry of that
    matrix lies in [[-1, 1]].  With [to_reduce = True], [reduce_proxies]
    is applied to the matrix before the scaling by sigma. *)
Theorem CosineLinear_forward_clamped_cosine
    (self : CosineLinear) (input : Tensor) (bs : Z) (s : R) :
  CosineLinear_ok self -> cl_sigma self = Some s ->
  wf_tensor input -> shape input = [bs; cl_in_features self] ->
  exists sim,
    shape sim = [bs; cl_out_features self] /\
    (cl_to_reduce self = false ->
     CosineLinear_forward self input = Ok [("logits"%string, tensor_scale s sim)]) /\
    (cl_to_reduce self = true ->
     CosineLinear_forward self input =
     (r <- reduce_proxies sim (cl_nb_proxy self);;
      Ok [("logits"%string, tensor_scale s r)])) /\
    forall i j : nat, Z.of_nat i < bs -> Z.of_nat j < cl_out_features self ->
      entry2 sim i j =
      (dot (row input i) (row (cl_weight self) j)
       / (Rmax (norm2 (row input i)) (/ 10 ^ 12)
          * Rmax (norm2 (row (cl_weight self) j)) (/ 10 ^ 12)))%R /\
      ((/ 10 ^ 12 <= norm2 (row input i))%R ->
       (/ 10 ^ 12 <= norm2 (row (cl_weight self) j))%R ->
       entry2 sim i j = cosine_similarity (row input i) (row (cl_weight self) j)) /\
      (-1 <= entry2 sim i j <= 1)%R /\
      entry2 (tensor_scale s sim) i j = (s * entry2 sim i j)%R.
Proof.
  intros Hok Hs Hwx Hx.
  destruct (CosineLinear_forward_entries self input bs s Hok Hs Hwx Hx)
    as (Hshape & Hfalse & Htrue & Hent).
  destruct Hok as [Hww Hw].
  exists (cosine_matrix input (cl_weight self)).
  split; [exact Hshape|]. split; [exact Hfalse|]. split; [exact Htrue|].
  intros i j Hi Hj. split; [exact (Hent i j Hi Hj)|]. split; [|split].
  - intros Hu Hv. rewrite (Hent i j Hi Hj). apply clamped_is_cosine; assumption.
  - rewrite (cosine_matrix_entry input (cl_weight self) bs (cl_out_features self)
               (cl_in_features self)) by (try assumption; lia).
    apply cosine_bounded.
  - apply entry2_tensor_scale.
Qed.

Lemma norm2_above_clamp (v : list R) :
  (1 <= Rsum (map (fun x => x * x) v))%R -> (/ 10 ^ 12 <= norm2 v)%R.
Proof.
  intros H. unfold norm2.
  pose proof clamp_le_1 as He.
  assert (1 <= sqrt (Rsum (map (fun x => x * x) v)))%R.
  { rewrite <- sqrt_1 at 1. apply sqrt_le_1; lra. }
  lra.
Qed.

Lemma CosineLinear_forward_clamped_cosine_witness :
  exists sim,
    shape sim = [1; 2] /\
    CosineLinear_forward cosine_head_2x2 row_3_4
      = Ok [("logits"%string, tensor_scale 2 sim)] /\
    entry2 sim 0 1 = cosine_similarity (row row_3_4 0) (row weight_2x2 1) /\
    (-1 <= entry2 sim 0 1 <= 1)%R /\
    entry2 (tensor_scale 2 sim) 0 1 = (2 * entry2 sim 0 1)%R.
Proof.
  destruct (CosineLinear_forward_clamped_cosine cosine_head_2x2 row_3_4 1 2)
    as (sim & Hshape & Hfalse & _ & Hent).
  - split; [exact wf_weight_2x2 | reflexivity].
  - reflexivity.
  - exact wf_row_3_4.
  - reflexivity.
  - destruct (Hent 0%nat 1%nat) as (_ & Hcos & Hb & Hs); [simpl; lia | simpl; lia |].
    exists sim. split; [exact Hshape|]. split; [exact (Hfalse eq_refl)|].
    split; [|split; [exact Hb | exact Hs]].
    apply Hcos; apply norm2_above_clamp; simpl; lra.
Defined.

Lemma norm2_singleton (x : R) : (0 <= x)%R -> norm2 [x] = x.
Proof.
  intros Hx. unfold norm2. simpl. rewrite Rplus_0_r. apply sqrt_square. exact Hx.
Qed.

(** C4, as stated, fails on an input row of norm below [1e-12]: the row
    [(1e-13)] and the weight row [(1)] have the cosine similarity [1],
    and [forward] returns sigma times [0.1]. *)
Lemma CosineLinear_forward_small_norm_counterexample :
  CosineLinear_ok cosine_head_1x1 /\ wf_tensor tiny_row /\
  shape tiny_row = [1; cl_in_features cosine_head_1x1] /\
  cosine_similarity (row tiny_row 0) (row (cl_weight cosine_head_1x1) 0) = 1%R /\
  (exists out,
     CosineLinear_forward cosine_head_1x1 tiny_row = Ok [("logits"%string, out)] /\
     entry2 out 0 0 = (2 * / 10)%R) /\
  ~ CosineLinear_forward_claim cosine_head_1x1 tiny_row 1 2.
Proof.
  assert (CosineLinear_ok cosine_head_1x1) as Hok
    by (split; [exact wf_unit_matrix | reflexivity]).
  destruct (CosineLinear_forward_entries cosine_head_1x1 tiny_row 1 2 Hok eq_refl
              wf_tiny_row eq_refl) as (_ & Hfalse & _ & Hent).
  specialize (Hfalse eq_refl). specialize (Hent 0%nat 0%nat ltac:(lia) ltac:(simpl; lia)).
  change (row tiny_row 0) with [(/ 10 ^ 13)%R] in *.
  change (row (cl_weight cosine_head_1x1) 0) with [1%R] in *.
  assert (0 < / 10 ^ 13)%R as Hx by (apply Rinv_0_lt_compat, pow_lt; lra).
  assert (/ 10 ^ 13 = / 10 ^ 12 * / 10)%R as Hx10.
  { change (10 ^ 13)%R with (10 * 10 ^ 12)%R. field; try apply pow_nonzero; lra. }
  assert (0 < / 10 ^ 12)%R as He by (apply Rinv_0_lt_compat, pow_lt; lra).
  pose proof clamp_le_1 as He1.
  assert (cosine_similarity [(/ 10 ^ 13)%R] [1%R] = 1%R) as Hcos.
  { unfold cosine_similarity, l2_normalized, dot.
    rewrite !norm2_singleton by lra. simpl. field; lra. }
  assert (entry2 (cosine_matrix tiny_row (cl_weight cosine_head_1x1)) 0 0 = (/ 10)%R) as Hval.
  { rewrite Hent. rewrite !norm2_singleton by lra.
    rewrite (Rmax_right (/ 10 ^ 13)) by (rewrite Hx10; nra).
    rewrite (Rmax_left 1) by exact He1.
    unfold dot. simpl. first [lra | field; lra]. }
  split; [exact Hok|]. split; [exact wf_tiny_row|]. split; [reflexivity|].
  split; [exact Hcos|]. split.
  - eexists. split; [exact Hfalse|]. rewrite entry2_tensor_scale, Hval. reflexivity.
  - intros (out & Hout & Hclaim).
    rewrite Hfalse in Hout. injection Hout as <-.
    destruct (Hclaim 0%nat 0%nat ltac:(lia) ltac:(simpl; lia)) as [Heq _].
    change (row tiny_row 0) with [(/ 10 ^ 13)%R] in Heq.
    change (row (cl_weight cosine_head_1x1) 0) with [1%R] in Heq.
    change unit_matrix with (cl_weight cosine_head_1x1) in Heq.
    rewrite entry2_tensor_scale, Hval, Hcos in Heq. lra.
Qed.


Lemma wf_old_proxies : wf_tensor old_proxies.
Proof. split; [repeat constructor; unfold int64_max; lia | reflexivity]. Qed.

Lemma wf_new_proxies : wf_tensor new_proxies.
Proof. split; [repeat constructor; unfold int64_max; lia | reflexivity]. Qed.

Lemma split_head_2_proxies_ok : SplitCosineLinear_ok split_head_2_proxies.
Proof.
  repeat split; try reflexivity;
    try apply wf_old_proxies; try apply wf_new_proxies.
Qed.


(** [reduce_proxies out 1] is [out]; for [1 < nb_proxy < 2 ^ 63] and an
    input of shape [(bs, C * nb_proxy)] with [C < 2 ^ 53], where the
    division of the sizes is exact, the result has shape [(bs, C)] and
    its entry
    [(i, c)] is the sum over the proxies of class [c] of the similarity
    weighted by its softmax among the proxies of that class. *)
Theorem reduce_proxies_softmax_sum (out : Tensor) (nb_proxy bs C : Z) :
  1 < nb_proxy <= int64_max -> 0 <= C < 2 ^ 53 ->
  wf_tensor out -> shape out = [bs; C * nb_proxy] ->
  reduce_proxies out 1 = Ok out /\ reduce_proxies_claim out nb_proxy bs C.
Proof.
  intros Hnb HC Hwf Hs. split.
  - apply reduce_proxies_one.
  - apply reduce_proxies_reduces; assumption.
Qed.

Lemma wf_proxy_pair : wf_tensor proxy_pair.
Proof. split; [repeat constructor; unfold int64_max; lia | reflexivity]. Qed.

Lemma reduce_proxies_softmax_sum_witness :
  reduce_proxies proxy_pair 1 = Ok proxy_pair /\ reduce_proxies_claim proxy_pair 2 1 1.
Proof.
  apply (reduce_proxies_softmax_sum proxy_pair 2 1 1).
  - unfold int64_max. lia.
  - lia.
  - exact wf_proxy_pair.
  - reflexivity.
Defined.

(** * The store monad and the resampling loop *)

(** ** The monad *)

Section Monad.
Context `{G : Generator}.

Lemma bind_Ok {A B : Type} (m : M A) (k : A -> M B) w b w2 :
  bind m k w = Some (Ok b, w2) ->
  exists a w1, m w = Some (Ok a, w1) /\ k a w1 = Some (Ok b, w2).
Proof.
  unfold bind. destruct (m w) as [[[a|e] w1]|]; intros H; try discriminate.
  exists a, w1. split; [reflexivity | exact H].
Qed.

Lemma bind_step {A B : Type} (m : M A) (k : A -> M B) w a w1 :
  m w = Some (Ok a, w1) -> bind m k w = k a w1.
Proof. intros H. unfold bind. rewrite H. reflexivity. Qed.

Lemma bind_raise {A B : Type} (m : M A) (k : A -> M B) w e w1 :
  m w = Some (Raise e, w1) -> bind m k w = Some (Raise e, w1).
Proof. intros H. unfold bind. rewrite H. reflexivity. Qed.

Lemma read_Ok (l : loc) w t w1 :
  read l w = Some (Ok t, w1) -> heap w !! l = Some t /\ w1 = w.
Proof.
  unfold read. destruct (heap w !! l); intros H; [|discriminate].
  injection H as -> ->. split; reflexivity.
Qed.

Lemma read_at (l : loc) w t : heap w !! l = Some t -> read l w = Some (Ok t, w).
Proof. intros H. unfold read. rewrite H. reflexivity. Qed.

Lemma write_data_at (l : loc) d w t :
  heap w !! l = Some t ->
  write_data l d w =
  Some (Ok tt, mkWorld _ (<[l := mkTensor (shape t) d]> (heap w)) (gen w)).
Proof. intros H. unfold write_data. rewrite H. reflexivity. Qed.

Lemma write_data_Ok (l : loc) d w u w1 :
  write_data l d w = Some (Ok u, w1) ->
  exists t, heap w !! l = Some t /\
            w1 = mkWorld _ (<[l := mkTensor (shape t) d]> (heap w)) (gen w).
Proof.
  unfold write_data. destruct (heap w !! l) as [t|]; intros H; [|discriminate].
  injection H as _ <-. exists t. split; reflexivity.
Qed.

Lemma Rltb_false (x y : R) : Rltb x y = false <-> (y <= x)%R.
Proof. unfold Rltb. destruct (Rlt_dec x y); split; intros; try lra; congruence. Qed.

Lemma Rltb_true (x y : R) : Rltb x y = true <-> (x < y)%R.
Proof. unfold Rltb. destruct (Rlt_dec x y); split; intros; try lra; congruence. Qed.

Lemma tensor_normal__Ok mean std n w vals w1 :
  tensor_normal_ mean std n w = Some (Ok vals, w1) ->
  vals = fst (normal_ mean std n (gen w)) /\ heap w1 = heap w /\
  length vals = n.
Proof.
  unfold tensor_normal_. destruct (Rltb std 0); [discriminate|].
  pose proof (normal_length mean std n (gen w)) as Hlen.
  destruct (normal_ mean std n (gen w)) as [v g']. simpl in Hlen.
  intros H. injection H as <- <-. repeat split. exact Hlen.
Qed.

(** *** The resampling loop *)

Lemma sum_bool_zero (cond : list bool) :
  sum_bool cond = 0%nat -> Forall (fun c => c = false) cond.
Proof.
  unfold sum_bool. induction cond as [|c cond IH]; simpl; intros H; constructor.
  - destruct c; [discriminate | reflexivity].
  - apply IH. destruct c; [discriminate | exact H].
Qed.

Lemma torch_where_length (cond : list bool) (x y : list R) :
  length x = length cond -> length y = length cond ->
  length (torch_where cond x y) = length cond.
Proof.
  intros Hx Hy. unfold torch_where.
  rewrite length_zip_with, length_zip. lia.
Qed.

Lemma torch_where_Forall (P : R -> Prop) (cond : list bool) (x y : list R) :
  Forall P x -> Forall P y -> Forall P (torch_where cond x y).
Proof.
  intros Hx Hy. unfold torch_where. apply Forall_forall. intros z Hz.
  apply list_elem_of_lookup in Hz as [i Hi].
  apply lookup_zip_with_Some in Hi as (c & [x0 y0] & -> & _ & Hxy).
  apply lookup_zip_with_Some in Hxy as (x1 & y1 & Heq & Hx1 & Hy1).
  injection Heq as -> ->.
  destruct c; simpl.
  - exact (Forall_lookup_1 _ _ _ _ Hx Hx1).
  - exact (Forall_lookup_1 _ _ _ _ Hy Hy1).
Qed.

Lemma trunc_normal_loop_Ok fuel mean std a b tmp w res w1 :
  trunc_normal_loop fuel mean std a b tmp w = Some (Ok res, w1) ->
  heap w1 = heap w /\ length res = length tmp /\
  Forall (fun x => (a <= x <= b)%R) res /\
  (Forall (is_draw mean std) tmp -> Forall (is_draw mean std) res).
Proof.
  revert tmp w. induction fuel as [|fuel IH]; intros tmp w; simpl.
  - destruct (Nat.eqb_spec (sum_bool (map (fun x => Rltb x a || Rltb b x) tmp)) 0)
      as [Hz|_]; [|discriminate].
    intros H. injection H as <- <-.
    repeat split; try tauto.
    apply sum_bool_zero in Hz. rewrite Forall_map in Hz.
    eapply Forall_impl; [exact Hz|]. intros x Hx. simpl in Hx.
    apply orb_false_iff in Hx as [H1 H2].
    apply Rltb_false in H1, H2. lra.
  - destruct (Nat.eqb_spec (sum_bool (map (fun x => Rltb x a || Rltb b x) tmp)) 0)
      as [Hz|_].
    + intros H. injection H as <- <-.
      repeat split; try tauto.
      apply sum_bool_zero in Hz. rewrite Forall_map in Hz.
      eapply Forall_impl; [exact Hz|]. intros x Hx. simpl in Hx.
      apply orb_false_iff in Hx as [H1 H2].
      apply Rltb_false in H1, H2. lra.
    + intros H. apply bind_Ok in H as (fresh & w0 & Hd & Hl).
      apply tensor_normal__Ok in Hd as (Hfresh & Hh & Hlen).
      apply IH in Hl as (Hh1 & Hlen1 & Hrange & Hdraw).
      assert (length (torch_where (map (fun x => Rltb x a || Rltb b x) tmp) fresh tmp)
              = length tmp) as Hw.
      { rewrite torch_where_length; rewrite length_map; [reflexivity | exact Hlen | reflexivity]. }
      repeat split.
      * congruence.
      * rewrite Hlen1. exact Hw.
      * exact Hrange.
      * intros Htmp. apply Hdraw. apply torch_where_Forall; [|exact Htmp].
        apply Forall_forall. intros x Hx. exists (gen w), (length tmp).
        rewrite <- Hfresh. apply list_elem_of_In. exact Hx.
Qed.

(** A first draw within the bounds ends the loop at once. *)
Lemma trunc_normal_loop_done fuel mean std a b tmp w :
  Forall (fun x => (a <= x <= b)%R) tmp ->
  trunc_normal_loop fuel mean std a b tmp w = Some (Ok tmp, w).
Proof.
  intros Hr.
  assert (sum_bool (map (fun x => Rltb x a || Rltb b x) tmp) = 0%nat) as Hz.
  { unfold sum_bool. induction Hr as [|x tmp Hx _ IH]; simpl; [reflexivity|].
    assert (Rltb x a = false) as -> by (apply Rltb_false; lra).
    assert (Rltb b x = false) as -> by (apply Rltb_false; lra).
    simpl. exact IH. }
  destruct fuel; simpl; rewrite Hz; reflexivity.
Qed.

End Monad.

(** * [trunc_normal_] and the initialisers *)

(** What a returning call of [trunc_normal_] has done. *)
Lemma trunc_normal__Ok `{G : Generator}
    (fuel : nat) (tensor : loc) (mean std a b : R) (w w1 : World) (l : loc) :
  trunc_normal_ fuel tensor mean std a b w = Some (Ok l, w1) ->
  l = tensor /\
  exists t d,
    heap w !! tensor = Some t /\
    heap w1 = <[tensor := mkTensor (shape t) d]> (heap w) /\
    length d = length (data t) /\
    Forall (fun x => (a <= x <= b)%R) d /\
    Forall (is_draw mean std) d.
Proof.
  unfold trunc_normal_. intros H.
  apply bind_Ok in H as (t & w2 & Hr & H). apply read_Ok in Hr as [Ht ->].
  apply bind_Ok in H as (tmp & w2 & Hn & H).
  apply tensor_normal__Ok in Hn as (Htmp & Hh2 & Hlen).
  apply bind_Ok in H as (res & w3 & Hloop & H).
  apply trunc_normal_loop_Ok in Hloop as (Hh3 & Hlen3 & Hrange & Hdraw).
  apply bind_Ok in H as (u & w4 & Hw & H).
  apply write_data_Ok in Hw as (t' & Ht' & ->).
  injection H as <- <-.
  split; [reflexivity|].
  rewrite Hh3, Hh2 in Ht'. rewrite Ht in Ht'. injection Ht' as <-.
  exists t, res. simpl. rewrite Hh3, Hh2.
  repeat split; try assumption.
  - congruence.
  - apply Hdraw. apply Forall_forall. intros x Hx.
    exists (gen w), (length (data t)). rewrite <- Htmp.
    apply list_elem_of_In. exact Hx.
Qed.

(** C7: when [trunc_normal_] returns, it returns the tensor it was given,
    overwritten in place, and every entry lies in [[a, b]] and is a value
    drawn by [normal_(mean, std)] (draws out of range are drawn again,
    not clipped). *)
Theorem trunc_normal__within_bounds `{G : Generator}
    (fuel : nat) (tensor : loc) (mean std a b : R) (w w1 : World) (l : loc) :
  trunc_normal_ fuel tensor mean std a b w = Some (Ok l, w1) ->
  l = tensor /\
  exists t d,
    heap w !! tensor = Some t /\
    heap w1 = <[tensor := mkTensor (shape t) d]> (heap w) /\
    length d = length (data t) /\
    Forall (fun x => (a <= x <= b)%R) d /\
    Forall (is_draw mean std) d.
Proof. apply trunc_normal__Ok. Qed.

Lemma trunc_normal__example :
  trunc_normal_ 1 0%nat 0 1 (-2) 2 example_world =
  Some (Ok 0%nat, @mkWorld replay_generator [mkTensor [1] [(0 + 1 * 0)%R]] []).
Proof.
  assert (Rltb 1 0 = false) as H10 by (apply Rltb_false; lra).
  assert (Rltb (0 + 1 * 100) (-2) = false) as H1 by (apply Rltb_false; lra).
  assert (Rltb 2 (0 + 1 * 100) = true) as H2 by (apply Rltb_true; lra).
  assert (Rltb (0 + 1 * 0) (-2) = false) as H3 by (apply Rltb_false; lra).
  assert (Rltb 2 (0 + 1 * 0) = false) as H4 by (apply Rltb_false; lra).
  unfold trunc_normal_, bind, read, tensor_normal_, example_world. simpl.
  rewrite H10. simpl. rewrite H1, H2. simpl.
  unfold bind, tensor_normal_. simpl. rewrite H10. simpl.
  rewrite H3, H4. simpl. reflexivity.
Qed.

Lemma trunc_normal__within_bounds_witness :
  exists t d,
    heap example_world !! 0%nat = Some t /\
    [mkTensor [1] [(0 + 1 * 0)%R]] = <[0%nat := mkTensor (shape t) d]> (heap example_world) /\
    length d = length (data t) /\
    Forall (fun x => (-2 <= x <= 2)%R) d /\
    Forall (@is_draw replay_generator 0 1) d.
Proof.
  exact (proj2 (trunc_normal__within_bounds 1 0%nat 0 1 (-2) 2 example_world _ _
                  trunc_normal__example)).
Defined.

(** With every draw within the bounds, [trunc_normal_] returns whatever
    the fuel. *)
Lemma trunc_normal__returns `{G : Generator}
    (fuel : nat) (tensor : loc) (mean std a b : R) (w : World) (t : Tensor) :
  heap w !! tensor = Some t -> (0 <= std)%R ->
  (forall g n, Forall (fun x => (a <= x <= b)%R) (fst (normal_ mean std n g))) ->
  exists w1, trunc_normal_ fuel tensor mean std a b w = Some (Ok tensor, w1).
Proof.
  intros Ht Hstd Hdraws. unfold trunc_normal_.
  rewrite (bind_step _ _ _ _ _ (read_at tensor w t Ht)).
  unfold bind at 1. unfold tensor_normal_.
  assert (Rltb std 0 = false) as -> by (apply Rltb_false; exact Hstd).
  specialize (Hdraws (gen w) (length (data t))).
  destruct (normal_ mean std (length (data t)) (gen w)) as [vals g'] eqn:Hn.
  simpl in Hdraws.
  rewrite (bind_step _ _ _ _ _ (trunc_normal_loop_done fuel mean std a b vals _ Hdraws)).
  erewrite bind_step; [| apply write_data_at; simpl; exact Ht].
  eexists. reflexivity.
Qed.

(** ** Allocation and the initialisers *)

Section Init.
Context `{G : Generator}.

Lemma alloc_lookup (h : list Tensor) (t : Tensor) :
  (h ++ [t]) !! length h = Some t.
Proof. apply list_lookup_middle. reflexivity. Qed.

Lemma torch_Tensor_Ok (dims : list Z) (t : Tensor) :
  torch_Tensor dims = Ok t ->
  shape t = dims /\ Forall (fun d => 0 <= d <= int64_max) dims /\
  numel dims <= int64_max /\
  data t = repeat 0%R (Z.to_nat (numel dims)).
Proof.
  unfold torch_Tensor.
  destruct (forallb (fun d => (0 <=? d) && (d <=? int64_max)) dims) eqn:Hd;
    simpl; [|discriminate].
  destruct (Z.leb_spec (numel dims) int64_max) as [Hn|]; [|discriminate].
  intros H. injection H as <-. repeat split; try assumption.
  apply Forall_forall. intros d Hin. apply list_elem_of_In in Hin.
  rewrite forallb_forall in Hd. apply Hd in Hin. lia.
Qed.

Lemma torch_Tensor_Raise (dims : list Z) (e : exn) :
  torch_Tensor dims = Raise e -> e = RuntimeError.
Proof. unfold torch_Tensor. destruct (_ && _); congruence. Qed.

Lemma new_parameter_Ok (dims : list Z) (t : Tensor) (w : World) :
  torch_Tensor dims = Ok t ->
  new_parameter dims w =
  Some (Ok (mkParam (length (heap w)) true), mkWorld _ (heap w ++ [t]) (gen w)).
Proof. intros H. unfold new_parameter. rewrite H. reflexivity. Qed.

Lemma new_parameter_Raise (dims : list Z) (e : exn) (w : World) :
  torch_Tensor dims = Raise e -> new_parameter dims w = Some (Raise e, w).
Proof. intros H. unfold new_parameter. rewrite H. reflexivity. Qed.

Lemma world_eta (w : World) : mkWorld _ (heap w) (gen w) = w.
Proof. destruct w. reflexivity. Qed.

Lemma tensor_eta (t : Tensor) : mkTensor (shape t) (data t) = t.
Proof. destruct t. reflexivity. Qed.

Lemma tensor_uniform__Ok (l : loc) (lo hi : R) (w : World) (t : Tensor) :
  heap w !! l = Some t -> Rltb hi lo = false ->
  exists d g',
    tensor_uniform_ l lo hi w =
    Some (Ok tt, mkWorld _ (<[l := mkTensor (shape t) d]> (heap w)) g') /\
    length d = length (data t).
Proof.
  intros Ht Hord. unfold tensor_uniform_.
  rewrite (bind_step _ _ _ _ _ (read_at l w t Ht)). rewrite Hord.
  pose proof (uniform_length lo hi (length (data t)) (gen w)) as Hlen.
  destruct (uniform_ lo hi (length (data t)) (gen w)) as [vals g'] eqn:Hu.
  simpl in Hlen. exists vals, g'. split; [|exact Hlen].
  unfold bind. rewrite Hu. unfold write_data. simpl. rewrite Ht. reflexivity.
Qed.

Lemma bound_order (gain x : R) :
  (0 <= gain)%R ->
  Rltb (sqrt 3 * (gain / sqrt x)) (- (sqrt 3 * (gain / sqrt x))) = false.
Proof.
  intros Hg. apply Rltb_false.
  assert (0 <= sqrt 3 * (gain / sqrt x))%R; [|lra].
  apply Rmult_le_pos; [apply sqrt_pos|].
  unfold Rdiv. apply Rmult_le_pos; [exact Hg|].
  destruct (Rle_lt_dec (sqrt x) 0) as [Hle|Hlt].
  - assert (sqrt x = 0%R) as -> by (pose proof (sqrt_pos x); lra).
    rewrite Rinv_0. lra.
  - left. apply Rinv_0_lt_compat. exact Hlt.
Qed.

(** On a matrix, [kaiming_uniform_] overwrites the entries in place. *)
Lemma kaiming_uniform__matrix (l : loc) (gain : R) (w : World) (t : Tensor) (o k : Z) :
  heap w !! l = Some t -> shape t = [o; k] -> (0 <= gain)%R ->
  exists d g',
    kaiming_uniform_ l gain w =
    Some (Ok tt, mkWorld _ (<[l := mkTensor (shape t) d]> (heap w)) g') /\
    length d = length (data t).
Proof.
  intros Ht Hs Hg. unfold kaiming_uniform_.
  rewrite (bind_step _ _ _ _ _ (read_at l w t Ht)).
  destruct (existsb (Z.eqb 0) (shape t)).
  - exists (data t), (gen w). split; [|reflexivity].
    rewrite tensor_eta, list_insert_id by exact Ht. rewrite world_eta. reflexivity.
  - destruct t as [sh dt]. simpl in Hs. subst sh. cbn [shape].
    destruct (tensor_uniform__Ok l
                (- (sqrt 3 * (gain / sqrt (IZR (k * numel [])))))
                (sqrt 3 * (gain / sqrt (IZR (k * numel [])))) w _ Ht
                (bound_order gain _ Hg))
      as (d & g' & Hu & Hlen).
    exists d, g'. split; [exact Hu | exact Hlen].
Qed.

Lemma constant__Ok (l : loc) (v : R) (w : World) (t : Tensor) :
  heap w !! l = Some t ->
  constant_ (Some l) v w =
  Some (Ok tt, mkWorld _ (<[l := mkTensor (shape t) (repeat v (length (data t)))]> (heap w))
                 (gen w)).
Proof.
  intros Ht. unfold constant_.
  rewrite (bind_step _ _ _ _ _ (read_at l w t Ht)).
  apply write_data_at. exact Ht.
Qed.

End Init.

(** ** SimpleLinear *)

(** C9: constructing [SimpleLinear] with [bias=False] raises, whatever
    the sizes: past the allocation of the weight, [reset_parameters]
    reaches [constant_] on the [None] bias.  A constructor call that
    returns was therefore made with [bias=True]. *)
Theorem SimpleLinear_init_without_bias_raises `{G : Generator}
    (in_features out_features : Z) (w : World) :
  (exists e w1, SimpleLinear_init in_features out_features false w = Some (Raise e, w1) /\
                (e = RuntimeError \/ e = AttributeError)) /\
  (torch_Tensor [out_features; in_features] <> Raise RuntimeError ->
   exists w1, SimpleLinear_init in_features out_features false w
              = Some (Raise AttributeError, w1)) /\
  (forall bias self w1,
     SimpleLinear_init in_features out_features bias w = Some (Ok self, w1) ->
     bias = true).
Proof.
  assert (torch_Tensor [out_features; in_features] = Raise RuntimeError \/
          exists w1, SimpleLinear_init in_features out_features false w
                     = Some (Raise AttributeError, w1)) as Hcases.
  { destruct (torch_Tensor [out_features; in_features]) as [t|e] eqn:Ht.
    - right. unfold SimpleLinear_init.
      rewrite (bind_step _ _ _ _ _ (new_parameter_Ok _ t w Ht)).
      rewrite (bind_step _ _ _ None _ eq_refl).
      apply torch_Tensor_Ok in Ht as (Hs & _).
      unfold SimpleLinear_reset_parameters. simpl sl_weight. simpl sl_bias.
      simpl storage.
      destruct (kaiming_uniform__matrix (length (heap w)) 1
                  (mkWorld _ (heap w ++ [t]) (gen w)) t out_features in_features)
        as (d & g' & Hk & _); [apply alloc_lookup | exact Hs | lra |].
      eexists. erewrite bind_raise; [reflexivity|].
      rewrite (bind_step _ _ _ _ _ Hk). reflexivity.
    - left. f_equal. eapply torch_Tensor_Raise. exact Ht. }
  split; [|split].
  - destruct Hcases as [Hr|[w1 Hw1]].
    + exists RuntimeError, w. split; [|left; reflexivity].
      unfold SimpleLinear_init. erewrite bind_raise; [reflexivity|].
      apply new_parameter_Raise. exact Hr.
    + exists AttributeError, w1. split; [exact Hw1 | right; reflexivity].
  - intros Hne. destruct Hcases as [Hr|Hw1]; [contradiction | exact Hw1].
  - intros [|] self w1 H; [reflexivity | exfalso].
    destruct Hcases as [Hr|[w2 Hw2]].
    + unfold SimpleLinear_init in H.
      erewrite bind_raise in H; [discriminate|].
      apply new_parameter_Raise. exact Hr.
    + rewrite Hw2 in H. discriminate.
Qed.

(** * What the constructors have done *)

(** ** Building a head *)

Section Build.
Context `{G : Generator}.

Lemma new_parameter_inv (dims : list Z) (w w1 : World) (p : Param) :
  new_parameter dims w = Some (Ok p, w1) ->
  exists t, torch_Tensor dims = Ok t /\ p = mkParam (length (heap w)) true /\
            w1 = mkWorld _ (heap w ++ [t]) (gen w).
Proof.
  destruct (torch_Tensor dims) as [t|e] eqn:Ht.
  - rewrite (new_parameter_Ok dims t w Ht). intros H. injection H as <- <-.
    exists t. repeat split.
  - rewrite (new_parameter_Raise dims e w Ht). discriminate.
Qed.

Lemma constant__inv (l : loc) (v : R) (w w1 : World) (u : unit) :
  constant_ (Some l) v w = Some (Ok u, w1) ->
  exists t, heap w !! l = Some t /\
    w1 = mkWorld _ (<[l := mkTensor (shape t) (repeat v (length (data t)))]> (heap w))
           (gen w).
Proof.
  unfold constant_. intros H.
  apply bind_Ok in H as (t & w2 & Hr & H). apply read_Ok in Hr as [Ht ->].
  apply write_data_Ok in H as (t' & Ht' & ->).
  rewrite Ht in Ht'. injection Ht' as <-. exists t. split; [exact Ht | reflexivity].
Qed.

Lemma tensor_uniform__inv (l : loc) (lo hi : R) (w w1 : World) (u : unit) :
  tensor_uniform_ l lo hi w = Some (Ok u, w1) ->
  exists t d, heap w !! l = Some t /\
    heap w1 = <[l := mkTensor (shape t) d]> (heap w) /\ length d = length (data t).
Proof.
  unfold tensor_uniform_. intros H.
  apply bind_Ok in H as (t & w2 & Hr & H). apply read_Ok in Hr as [Ht ->].
  destruct (Rltb hi lo); [discriminate|].
  apply bind_Ok in H as (vals & w2 & Hu & H).
  pose proof (uniform_length lo hi (length (data t)) (gen w)) as Hlen.
  destruct (uniform_ lo hi (length (data t)) (gen w)) as [v g']. simpl in Hlen.
  injection Hu as <- <-.
  apply write_data_Ok in H as (t' & Ht' & ->). simpl in Ht'.
  rewrite Ht in Ht'. injection Ht' as <-.
  exists t, v. repeat split; assumption.
Qed.

Lemma kaiming_uniform__inv (l : loc) (gain : R) (w w1 : World) (u : unit) :
  kaiming_uniform_ l gain w = Some (Ok u, w1) ->
  exists t d, heap w !! l = Some t /\
    heap w1 = <[l := mkTensor (shape t) d]> (heap w) /\ length d = length (data t).
Proof.
  unfold kaiming_uniform_. intros H.
  apply bind_Ok in H as (t & w2 & Hr & H). apply read_Ok in Hr as [Ht ->].
  destruct (existsb (Z.eqb 0) (shape t)).
  - injection H as _ <-. exists t, (data t). repeat split; try assumption.
    rewrite tensor_eta, list_insert_id by exact Ht. reflexivity.
  - destruct (shape t) as [|d0 [|d1 rest]] eqn:Hs; try discriminate.
    apply tensor_uniform__inv in H as (t' & d & Ht' & Hh & Hlen).
    rewrite Ht in Ht'. injection Ht' as <-.
    exists t, d. rewrite Hs in Hh. rewrite Hs. repeat split; assumption.
Qed.

Lemma insert_tail2_0 (h : list Tensor) (a b x : Tensor) :
  <[length h := x]> (h ++ [a; b]) = h ++ [x; b].
Proof. rewrite insert_app_r_alt, Nat.sub_diag by lia. reflexivity. Qed.

Lemma insert_tail2_1 (h : list Tensor) (a b x : Tensor) :
  <[S (length h) := x]> (h ++ [a; b]) = h ++ [a; x].
Proof.
  rewrite insert_app_r_alt by lia.
  replace (S (length h) - length h)%nat with 1%nat by lia. reflexivity.
Qed.

Lemma lookup_tail2_0 (h : list Tensor) (a b : Tensor) :
  (h ++ [a; b]) !! length h = Some a.
Proof. apply list_lookup_middle. reflexivity. Qed.

Lemma lookup_tail2_1 (h : list Tensor) (a b : Tensor) :
  (h ++ [a; b]) !! S (length h) = Some b.
Proof.
  rewrite lookup_app_r by lia.
  replace (S (length h) - length h)%nat with 1%nat by lia. reflexivity.
Qed.

Lemma numel_1 (d : Z) : numel [d] = d.
Proof. unfold numel. simpl. lia. Qed.

Lemma numel_2 (a b : Z) : numel [a; b] = a * b.
Proof. unfold numel. simpl. lia. Qed.

Lemma nn_LayerNorm_inv (dim : Z) (w w1 : World) (m : nnLayerNorm) :
  nn_LayerNorm dim w = Some (Ok m, w1) ->
  0 <= dim /\
  m = mkLayerNorm dim (mkParam (length (heap w)) true)
                      (mkParam (S (length (heap w))) true) /\
  heap w1 = heap w ++ [mkTensor [dim] (repeat 1%R (Z.to_nat dim));
                       mkTensor [dim] (repeat 0%R (Z.to_nat dim))].
Proof.
  unfold nn_LayerNorm. intros H.
  apply bind_Ok in H as (pw & w2 & Hw & H).
  apply new_parameter_inv in Hw as (tw & Htw & -> & ->).
  apply bind_Ok in H as (pb & w3 & Hb & H).
  apply new_parameter_inv in Hb as (tb & Htb & -> & ->).
  cbn [heap gen storage] in H.
  apply bind_Ok in H as (u1 & w4 & H1 & H).
  apply constant__inv in H1 as (t1 & Ht1 & ->). cbn [heap gen] in Ht1.
  apply bind_Ok in H as (u2 & w5 & H2 & H).
  apply constant__inv in H2 as (t2 & Ht2 & ->). cbn [heap gen] in Ht2.
  injection H as <- <-. cbn [heap].
  apply torch_Tensor_Ok in Htw as (Hsw & Hdw & _ & Hdataw).
  apply torch_Tensor_Ok in Htb as (Hsb & _ & _ & Hdatab).
  apply Forall_cons in Hdw as [Hdim _].
  rewrite length_app in *. simpl length in *.
  replace (length (heap w) + 1)%nat with (S (length (heap w))) in * by lia.
  rewrite <- app_assoc in *. simpl app in *.
  rewrite lookup_tail2_0 in Ht1. injection Ht1 as <-.
  rewrite insert_tail2_0 in *.
  rewrite lookup_tail2_1 in Ht2. injection Ht2 as <-.
  rewrite insert_tail2_1.
  rewrite Hsw, Hsb, Hdataw, Hdatab, !repeat_length, numel_1.
  split; [lia|]. split; reflexivity.
Qed.

Lemma nn_Linear_inv (i o : Z) (w w1 : World) (m : nnLinear) :
  nn_Linear i o w = Some (Ok m, w1) ->
  0 <= i /\ 0 <= o /\
  m = mkLinear i o (mkParam (length (heap w)) true)
                   (mkParam (S (length (heap w))) true) /\
  exists dw db,
    heap w1 = heap w ++ [mkTensor [o; i] dw; mkTensor [o] db] /\
    length dw = Z.to_nat (o * i) /\ length db = Z.to_nat o.
Proof.
  unfold nn_Linear. intros H.
  apply bind_Ok in H as (pw & w2 & Hw & H).
  apply new_parameter_inv in Hw as (tw & Htw & -> & ->).
  apply bind_Ok in H as (pb & w3 & Hb & H).
  apply new_parameter_inv in Hb as (tb & Htb & -> & ->).
  cbn [heap gen storage] in H.
  apply bind_Ok in H as (u1 & w4 & H1 & H).
  apply kaiming_uniform__inv in H1 as (t1 & d1 & Ht1 & Hh1 & Hl1).
  cbn [heap gen] in Ht1, Hh1.
  apply bind_Ok in H as (u2 & w5 & H2 & H).
  apply tensor_uniform__inv in H2 as (t2 & d2 & Ht2 & Hh2 & Hl2).
  injection H as <- <-.
  apply torch_Tensor_Ok in Htw as (Hsw & Hdw & _ & Hdataw).
  apply torch_Tensor_Ok in Htb as (Hsb & _ & _ & Hdatab).
  apply Forall_cons in Hdw as [Ho Hdw]. apply Forall_cons in Hdw as [Hi _].
  rewrite length_app in *. simpl length in *.
  replace (length (heap w) + 1)%nat with (S (length (heap w))) in * by lia.
  rewrite <- app_assoc in *. simpl app in *.
  rewrite lookup_tail2_0 in Ht1. injection Ht1 as <-.
  rewrite insert_tail2_0 in Hh1. rewrite Hh1 in Ht2, Hh2.
  rewrite lookup_tail2_1 in Ht2. injection Ht2 as <-.
  rewrite insert_tail2_1 in Hh2.
  split; [lia|]. split; [lia|]. split; [reflexivity|].
  exists d1, d2. rewrite Hh2, Hsw, Hsb. split; [reflexivity|].
  rewrite Hl1, Hl2, Hdataw, Hdatab, !repeat_length, numel_1, numel_2.
  split; reflexivity.
Qed.


Lemma single_head_inv (wn : bool) (embed : Z) (w w1 : World) (hd : list Layer) :
  single_head wn embed w = Some (Ok hd, w1) ->
  (wn = true -> 0 <= embed) /\
  hd = (if wn
        then [LayerNorm (mkLayerNorm embed (mkParam (length (heap w)) true)
                           (mkParam (S (length (heap w))) true))]
        else []) /\
  heap w1 = heap w ++ (if wn
                       then [mkTensor [embed] (repeat 1%R (Z.to_nat embed));
                             mkTensor [embed] (repeat 0%R (Z.to_nat embed))]
                       else []).
Proof.
  unfold single_head. destruct wn.
  - intros H. apply bind_Ok in H as (m & w2 & Hm & H).
    apply nn_LayerNorm_inv in Hm as (Hd & -> & Hh).
    injection H as <- <-.
    split; [intros _; exact Hd|]. split; [reflexivity | exact Hh].
  - intros H. injection H as <- <-. rewrite app_nil_r.
    split; [discriminate|]. split; reflexivity.
Qed.

(** The steps that [__init__] and [update] share. *)
Lemma build_head (fuel : nat) (wn : bool) (embed nb : Z)
    (w w1 w2 w3 w4 : World) (hd : list Layer) (fc : nnLinear) (l : loc) (u : unit) :
  single_head wn embed w = Some (Ok hd, w1) ->
  nn_Linear embed nb w1 = Some (Ok fc, w2) ->
  trunc_normal_ fuel (storage (lin_weight fc)) 0 (2 / 100) (-2) 2 w2 = Some (Ok l, w3) ->
  constant_ (Some (storage (lin_bias fc))) 0 w3 = Some (Ok u, w4) ->
  fresh_head w w4 wn embed nb (hd ++ [Linear fc]).
Proof.
  intros Hhd Hfc Htn Hc.
  apply single_head_inv in Hhd as (_ & -> & Hh1).
  apply nn_Linear_inv in Hfc as (He & Hn & -> & dw & db & Hh2 & Hlw & Hlb).
  cbn [storage lin_weight lin_bias] in Htn, Hc.
  apply trunc_normal__Ok in Htn as (_ & t & d & Ht & Hh3 & Hld & Hr & Hdr).
  apply constant__inv in Hc as (tb & Htb & ->). cbn [heap] in *.
  rewrite Hh2 in Ht, Hh3. rewrite lookup_tail2_0 in Ht. injection Ht as <-.
  rewrite insert_tail2_0 in Hh3. rewrite Hh3 in Htb.
  rewrite lookup_tail2_1 in Htb. injection Htb as <-.
  rewrite Hh3, insert_tail2_1. cbn [shape data] in *.
  unfold fresh_head. cbn zeta.
  assert (length (heap w1) =
          (length (heap w) +
           length (if wn
                   then [mkTensor [embed] (repeat 1%R (Z.to_nat embed));
                         mkTensor [embed] (repeat 0%R (Z.to_nat embed))]
                   else []))%nat) as Hlen1.
  { rewrite Hh1, length_app. reflexivity. }
  split; [exact He|]. split; [exact Hn|]. split.
  - rewrite Hlen1. reflexivity.
  - exists d. split; [|split; [|split]].
    + rewrite Hh1, <- app_assoc, Hlb. reflexivity.
    + rewrite Hld. exact Hlw.
    + exact Hr.
    + exact Hdr.
Qed.

Lemma SimpleContinualLinear_update_inv (fuel : nat) (self self' : SimpleContinualLinear)
    (nb : Z) (freeze : bool) (w w' : World) :
  SimpleContinualLinear_update fuel self nb freeze w = Some (Ok self', w') ->
  exists new_head,
    fresh_head w w' (with_norm self) (embed_dim self) nb new_head /\
    self' = mkSimpleContinualLinear (embed_dim self) (feat_expand self) (with_norm self)
              ((if freeze then map (map freeze_layer) (heads self) else heads self)
               ++ [new_head])
              (old_state_dict self).
Proof.
  unfold SimpleContinualLinear_update. intros H.
  apply bind_Ok in H as (hd & w1 & Hhd & H).
  apply bind_Ok in H as (fc & w2 & Hfc & H).
  apply bind_Ok in H as (l & w3 & Htn & H).
  apply bind_Ok in H as (u & w4 & Hc & H).
  injection H as <- <-.
  exists (hd ++ [Linear fc]). split; [|reflexivity].
  eapply build_head; eassumption.
Qed.

Lemma init_linears_head (fuel : nat) (hd : list Layer) (fc : nnLinear) :
  Forall is_LayerNorm hd ->
  init_linears fuel (hd ++ [Linear fc]) =
  (_ <-- trunc_normal_ fuel (storage (lin_weight fc)) 0 (2 / 100) (-2) 2;;
   _ <-- constant_ (Some (storage (lin_bias fc))) 0;;
   ret tt).
Proof.
  induction 1 as [|ly hd Hly _ IH]; simpl.
  - reflexivity.
  - destruct ly as [m|m]; [exact IH | destruct Hly].
Qed.

Lemma SimpleContinualLinear_init_inv (fuel : nat) (embed nb : Z) (fe wn : bool)
    (self : SimpleContinualLinear) (w w' : World) :
  SimpleContinualLinear_init fuel embed nb fe wn w = Some (Ok self, w') ->
  exists head,
    fresh_head w w' wn embed nb head /\
    self = mkSimpleContinualLinear embed fe wn [head] None.
Proof.
  unfold SimpleContinualLinear_init. intros H.
  apply bind_Ok in H as (hd & w1 & Hhd & H).
  apply bind_Ok in H as (fc & w2 & Hfc & H).
  apply bind_Ok in H as (u0 & w5 & Hinit & H).
  injection H as <- <-.
  exists (hd ++ [Linear fc]). split; [|reflexivity].
  simpl concat in Hinit. rewrite app_nil_r in Hinit.
  rewrite init_linears_head in Hinit.
  - apply bind_Ok in Hinit as (l & w3 & Htn & Hinit).
    apply bind_Ok in Hinit as (u & w4 & Hc & Hinit).
    injection Hinit as _ <-.
    eapply build_head; eassumption.
  - pose proof (single_head_inv _ _ _ _ _ Hhd) as (_ & -> & _).
    destruct wn; repeat constructor.
Qed.

End Build.

(** * The constructors return *)

(** ** The constructors return *)

Section Returns.
Context `{G : Generator}.

Lemma torch_Tensor_returns (dims : list Z) :
  Forall (fun d => 0 <= d <= int64_max) dims -> numel dims <= int64_max ->
  torch_Tensor dims = Ok (mkTensor dims (repeat 0%R (Z.to_nat (numel dims)))).
Proof.
  intros Hd Hn. unfold torch_Tensor.
  assert (forallb (fun d => (0 <=? d) && (d <=? int64_max)) dims = true) as ->.
  { apply forallb_forall. intros d Hin. rewrite Forall_forall in Hd.
    apply list_elem_of_In, Hd in Hin. lia. }
  destruct (Z.leb_spec (numel dims) int64_max); [reflexivity | lia].
Qed.

Lemma app_tail2 (h : list Tensor) (a b : Tensor) : (h ++ [a]) ++ [b] = h ++ [a; b].
Proof. rewrite <- app_assoc. reflexivity. Qed.

Lemma length_tail1 (h : list Tensor) (a : Tensor) : length (h ++ [a]) = S (length h).
Proof. rewrite length_app. simpl. lia. Qed.

Lemma nn_LayerNorm_returns (dim : Z) (w : World) :
  0 <= dim <= int64_max ->
  exists m w1, nn_LayerNorm dim w = Some (Ok m, w1).
Proof.
  intros Hd. unfold nn_LayerNorm.
  assert (torch_Tensor [dim] = Ok (mkTensor [dim] (repeat 0%R (Z.to_nat (numel [dim])))))
    as Ht.
  { apply torch_Tensor_returns; [repeat constructor; lia | rewrite numel_1; lia]. }
  rewrite (bind_step _ _ _ _ _ (new_parameter_Ok _ _ w Ht)).
  rewrite (bind_step _ _ _ _ _ (new_parameter_Ok _ _ _ Ht)).
  cbn [heap gen storage].
  erewrite bind_step; cycle 1.
  { apply constant__Ok. cbn [heap]. rewrite app_tail2. apply lookup_tail2_0. }
  erewrite bind_step; cycle 1.
  { apply constant__Ok. cbn [heap]. rewrite app_tail2, insert_tail2_0, length_tail1.
    apply lookup_tail2_1. }
  eexists _, _. reflexivity.
Qed.

Lemma single_head_returns (wn : bool) (embed : Z) (w : World) :
  0 <= embed <= int64_max ->
  exists hd w1, single_head wn embed w = Some (Ok hd, w1).
Proof.
  intros He. unfold single_head. destruct wn.
  - destruct (nn_LayerNorm_returns embed w He) as (m & w1 & Hm).
    rewrite (bind_step _ _ _ _ _ Hm). eexists _, _. reflexivity.
  - eexists _, _. reflexivity.
Qed.

Lemma bias_bound_order (i : Z) :
  let bound := if 0 <? i then (1 / sqrt (IZR i))%R else 0%R in
  Rltb bound (- bound) = false.
Proof.
  cbn zeta. apply Rltb_false. destruct (0 <? i); [|lra].
  assert (0 <= 1 / sqrt (IZR i))%R; [|lra].
  unfold Rdiv. rewrite Rmult_1_l.
  destruct (Rle_lt_dec (sqrt (IZR i)) 0) as [Hle|Hlt].
  - assert (sqrt (IZR i) = 0%R) as -> by (pose proof (sqrt_pos (IZR i)); lra).
    rewrite Rinv_0. lra.
  - left. apply Rinv_0_lt_compat. exact Hlt.
Qed.

Lemma nn_Linear_returns (i o : Z) (w : World) :
  0 <= i <= int64_max -> 0 <= o <= int64_max -> o * i <= int64_max ->
  exists m w1, nn_Linear i o w = Some (Ok m, w1).
Proof.
  intros Hi Ho Hoi. unfold nn_Linear.
  assert (torch_Tensor [o; i] = Ok (mkTensor [o; i] (repeat 0%R (Z.to_nat (numel [o; i])))))
    as Htw.
  { apply torch_Tensor_returns; [repeat constructor; lia | rewrite numel_2; lia]. }
  assert (torch_Tensor [o] = Ok (mkTensor [o] (repeat 0%R (Z.to_nat (numel [o])))))
    as Htb.
  { apply torch_Tensor_returns; [repeat constructor; lia | rewrite numel_1; lia]. }
  set (tw := mkTensor [o; i] (repeat 0%R (Z.to_nat (numel [o; i])))) in *.
  set (tb := mkTensor [o] (repeat 0%R (Z.to_nat (numel [o])))) in *.
  rewrite (bind_step _ _ _ _ _ (new_parameter_Ok _ _ w Htw)).
  rewrite (bind_step _ _ _ _ _ (new_parameter_Ok _ _ _ Htb)).
  cbn [heap gen storage]. rewrite app_tail2, length_tail1.
  destruct (kaiming_uniform__matrix (length (heap w))
              (sqrt (2 / (1 + sqrt 5 * sqrt 5)))
              (mkWorld _ (heap w ++ [tw; tb]) (gen w)) tw o i)
    as (dw & g1 & Hk & _);
    [ apply lookup_tail2_0 | reflexivity | apply sqrt_pos | ].
  rewrite (bind_step _ _ _ _ _ Hk). cbn [heap]. rewrite insert_tail2_0.
  destruct (tensor_uniform__Ok (S (length (heap w)))
              (- (if 0 <? i then (1 / sqrt (IZR i))%R else 0%R))
              (if 0 <? i then (1 / sqrt (IZR i))%R else 0%R)
              (mkWorld _ (heap w ++ [mkTensor (shape tw) dw; tb]) g1) tb)
    as (db & g2 & Hu & _);
    [ apply lookup_tail2_1 | apply (bias_bound_order i) | ].
  rewrite (bind_step _ _ _ _ _ Hu).
  eexists _, _. reflexivity.
Qed.

(** With every draw of [normal_(0, 0.02)] within [[-2, 2]], [update]
    returns for all sizes that fit. *)
Lemma SimpleContinualLinear_update_returns (fuel : nat) (self : SimpleContinualLinear)
    (nb : Z) (freeze : bool) (w : World) :
  0 <= embed_dim self <= int64_max -> 0 <= nb <= int64_max ->
  nb * embed_dim self <= int64_max ->
  (forall g n, Forall (fun x => (-2 <= x <= 2)%R) (fst (normal_ 0 (2 / 100) n g))) ->
  exists self' w', SimpleContinualLinear_update fuel self nb freeze w = Some (Ok self', w').
Proof.
  intros He Hn Hne Hdraws. unfold SimpleContinualLinear_update.
  destruct (single_head_returns (with_norm self) (embed_dim self) w He) as (hd & w1 & Hhd).
  rewrite (bind_step _ _ _ _ _ Hhd).
  destruct (nn_Linear_returns (embed_dim self) nb w1 He Hn Hne) as (fc & w2 & Hfc).
  rewrite (bind_step _ _ _ _ _ Hfc).
  pose proof (nn_Linear_inv _ _ _ _ _ Hfc) as (_ & _ & -> & dw & db & Hh2 & _ & _).
  cbn [storage lin_weight lin_bias].
  destruct (trunc_normal__returns fuel (length (heap w1)) 0 (2 / 100) (-2) 2 w2
              (mkTensor [nb; embed_dim self] dw)) as (w3 & Htn);
    [rewrite Hh2; apply lookup_tail2_0 | lra | exact Hdraws |].
  rewrite (bind_step _ _ _ _ _ Htn).
  pose proof (trunc_normal__Ok _ _ _ _ _ _ _ _ _ Htn)
    as (_ & t & d & Ht & Hh3 & _).
  erewrite bind_step; cycle 1.
  { apply constant__Ok. rewrite Hh3, Hh2, insert_tail2_0. apply lookup_tail2_1. }
  eexists _, _. reflexivity.
Qed.

Lemma SimpleContinualLinear_init_returns (fuel : nat) (embed nb : Z) (fe wn : bool)
    (w : World) :
  0 <= embed <= int64_max -> 0 <= nb <= int64_max -> nb * embed <= int64_max ->
  (forall g n, Forall (fun x => (-2 <= x <= 2)%R) (fst (normal_ 0 (2 / 100) n g))) ->
  exists self w', SimpleContinualLinear_init fuel embed nb fe wn w = Some (Ok self, w').
Proof.
  intros He Hn Hne Hdraws. unfold SimpleContinualLinear_init.
  destruct (single_head_returns wn embed w He) as (hd & w1 & Hhd).
  rewrite (bind_step _ _ _ _ _ Hhd).
  destruct (nn_Linear_returns embed nb w1 He Hn Hne) as (fc & w2 & Hfc).
  rewrite (bind_step _ _ _ _ _ Hfc).
  pose proof (nn_Linear_inv _ _ _ _ _ Hfc) as (_ & _ & -> & dw & db & Hh2 & _ & _).
  simpl concat. rewrite app_nil_r.
  rewrite init_linears_head; cycle 1.
  { pose proof (single_head_inv _ _ _ _ _ Hhd) as (_ & -> & _).
    destruct wn; repeat constructor. }
  cbn [storage lin_weight lin_bias].
  destruct (trunc_normal__returns fuel (length (heap w1)) 0 (2 / 100) (-2) 2 w2
              (mkTensor [nb; embed] dw)) as (w3 & Htn);
    [rewrite Hh2; apply lookup_tail2_0 | lra | exact Hdraws |].
  pose proof (trunc_normal__Ok _ _ _ _ _ _ _ _ _ Htn)
    as (_ & t & d & Ht & Hh3 & _).
  erewrite bind_step; cycle 1.
  { rewrite (bind_step _ _ _ _ _ Htn).
    erewrite bind_step; [reflexivity|].
    apply constant__Ok. rewrite Hh3, Hh2, insert_tail2_0. apply lookup_tail2_1. }
  eexists _, _. reflexivity.
Qed.

End Returns.

(** * [update] appends one head *)

(** ** Named parameters *)

Lemma layers_named_app (i j : nat) (ls ls' : list Layer) :
  layers_named i j (ls ++ ls') = layers_named i j ls ++ layers_named i (j + length ls) ls'.
Proof.
  revert j. induction ls as [|ly ls IH]; intros j; simpl.
  - rewrite Nat.add_0_r. reflexivity.
  - rewrite IH, <- app_assoc.
    replace (j + S (length ls))%nat with (S j + length ls)%nat by lia. reflexivity.
Qed.

Lemma heads_named_app (i : nat) (hs hs' : list Sequential) :
  heads_named i (hs ++ hs') = heads_named i hs ++ heads_named (i + length hs) hs'.
Proof.
  revert i. induction hs as [|h hs IH]; intros i; simpl.
  - rewrite Nat.add_0_r. reflexivity.
  - rewrite IH, <- app_assoc.
    replace (i + S (length hs))%nat with (S i + length hs)%nat by lia. reflexivity.
Qed.

Lemma layers_named_freeze (i j : nat) (ls : list Layer) :
  layers_named i j (map freeze_layer ls) =
  map (fun kp => (fst kp, freeze_param (snd kp))) (layers_named i j ls).
Proof.
  revert j. induction ls as [|ly ls IH]; intros j; simpl; [reflexivity|].
  rewrite IH, map_app. f_equal. destruct ly; reflexivity.
Qed.

Lemma heads_named_freeze (i : nat) (hs : list Sequential) :
  heads_named i (map (map freeze_layer) hs) =
  map (fun kp => (fst kp, freeze_param (snd kp))) (heads_named i hs).
Proof.
  revert i. induction hs as [|h hs IH]; intros i; simpl; [reflexivity|].
  rewrite IH, map_app, layers_named_freeze. reflexivity.
Qed.

Section Update.
Context `{G : Generator}.

(** What [fresh_head] says of the parameters of the new head. *)
Lemma fresh_head_parameters (w w' : World) (wn : bool) (embed nb : Z)
    (head : Sequential) (i : nat) :
  fresh_head w w' wn embed nb head ->
  Forall (fun kp => requires_grad (snd kp) = true /\
                    (length (heap w) <= storage (snd kp))%nat)
         (layers_named i 0 head).
Proof.
  intros (_ & _ & -> & _). destruct wn; simpl; repeat constructor; simpl; lia.
Qed.

Lemma fresh_head_keeps (w w' : World) (wn : bool) (embed nb : Z) (head : Sequential)
    (l : loc) (t : Tensor) :
  fresh_head w w' wn embed nb head -> heap w !! l = Some t -> heap w' !! l = Some t.
Proof.
  intros (_ & _ & _ & d & Hh & _) Hl. rewrite Hh.
  apply lookup_app_l_Some. exact Hl.
Qed.

End Update.

(** C2: [update(nb_classes, freeze_old)] appends one head; the parameters
    of the heads that were there keep their names, their storage and their
    values, and the [requires_grad] of each of them is [False] after
    [freeze_old=True] and what it was after [freeze_old=False]; the
    appended head is freshly initialised (a
    weight drawn by [normal_(0, 0.02)] within [[-2, 2]], a zero bias) and
    its parameters are trainable. *)
Theorem SimpleContinualLinear_update_freezes `{G : Generator}
    (fuel : nat) (self self' : SimpleContinualLinear) (nb_classes : Z)
    (freeze_old : bool) (w w' : World) :
  params_allocated self w ->
  SimpleContinualLinear_update fuel self nb_classes freeze_old w = Some (Ok self', w') ->
  exists new_head,
    heads self' =
      (if freeze_old then map (map freeze_layer) (heads self) else heads self)
      ++ [new_head] /\
    Forall (fun kp => heap w' !! storage (snd kp) = heap w !! storage (snd kp))
           (named_parameters self) /\
    heads_named 0 (take (length (heads self)) (heads self')) =
      map (fun kp => (fst kp, if freeze_old then freeze_param (snd kp) else snd kp))
          (named_parameters self) /\
    Forall2 (fun old new =>
               fst new = fst old /\ storage (snd new) = storage (snd old) /\
               requires_grad (snd new) =
                 (if freeze_old then false else requires_grad (snd old)))
            (named_parameters self)
            (heads_named 0 (take (length (heads self)) (heads self'))) /\
    fresh_head w w' (with_norm self) (embed_dim self) nb_classes new_head /\
    Forall (fun kp => requires_grad (snd kp) = true /\
                      (length (heap w) <= storage (snd kp))%nat)
           (layers_named (length (heads self)) 0 new_head).
Proof.
  intros Halloc Hup.
  apply SimpleContinualLinear_update_inv in Hup as (new_head & Hfresh & ->).
  exists new_head. cbn [heads].
  assert (heads_named 0
            (take (length (heads self))
               ((if freeze_old then map (map freeze_layer) (heads self) else heads self)
                ++ [new_head])) =
          map (fun kp => (fst kp, if freeze_old then freeze_param (snd kp) else snd kp))
              (named_parameters self)) as Hold.
  { rewrite take_app_length'; cycle 1.
    { destruct freeze_old; [rewrite length_map|]; reflexivity. }
    unfold named_parameters. destruct freeze_old.
    + apply heads_named_freeze.
    + rewrite <- (map_id (heads_named 0 (heads self))) at 1.
      apply map_ext. intros [k p]. reflexivity. }
  split; [reflexivity|]. split; [|split; [exact Hold|split; [|split]]].
  - unfold params_allocated in Halloc.
    eapply Forall_impl; [exact Halloc|]. intros kp [t Ht]. simpl in Ht |- *.
    rewrite Ht. eapply fresh_head_keeps; eassumption.
  - rewrite Hold. apply Forall2_fmap_r. apply Forall_Forall2_diag.
    apply Forall_forall. intros kp _. cbn [fst snd].
    destruct freeze_old; repeat split; reflexivity.
  - exact Hfresh.
  - eapply fresh_head_parameters. exact Hfresh.
Qed.

Lemma one_head_allocated :
  @params_allocated constant_generator one_head_module one_head_world.
Proof. repeat constructor; simpl; eexists; reflexivity. Qed.

Lemma constant_draws_in_range :
  forall (g : @Gen constant_generator) (n : nat),
    Forall (fun x => (-2 <= x <= 2)%R) (fst (@normal_ constant_generator 0 (2 / 100) n g)).
Proof.
  intros g n. simpl. apply Forall_forall. intros x Hx.
  apply list_elem_of_In, repeat_spec in Hx. subst x. lra.
Qed.

Lemma one_head_update_returns (freeze : bool) :
  exists self' w',
    @SimpleContinualLinear_update constant_generator 0 one_head_module 1 freeze
      one_head_world = Some (Ok self', w').
Proof.
  apply SimpleContinualLinear_update_returns.
  - simpl. unfold int64_max. lia.
  - unfold int64_max. lia.
  - simpl. unfold int64_max. lia.
  - exact constant_draws_in_range.
Qed.

Lemma Forall2_right {A B : Type} (R : A -> B -> Prop) (Q : B -> Prop)
    (l : list A) (k : list B) :
  (forall x y, R x y -> Q y) -> Forall2 R l k -> Forall Q k.
Proof. intros H. induction 1; constructor; eauto. Qed.

Lemma SimpleContinualLinear_update_freezes_witness :
  exists (self' : SimpleContinualLinear) (w' : @World constant_generator) new_head,
    heads self' = map (map freeze_layer) (heads one_head_module) ++ [new_head] /\
    Forall (fun kp => heap w' !! storage (snd kp) = heap one_head_world !! storage (snd kp))
           (named_parameters one_head_module) /\
    Forall (fun kp => requires_grad (snd kp) = false)
           (heads_named 0 (take 1 (heads self'))) /\
    Forall (fun kp => requires_grad (snd kp) = true) (layers_named 1 0 new_head).
Proof.
  destruct (one_head_update_returns true) as (self' & w' & Hup).
  destruct (SimpleContinualLinear_update_freezes 0 one_head_module self' 1 true
              one_head_world w' one_head_allocated Hup)
    as (new_head & Hheads & Hvals & _ & Hflags & _ & Hnew).
  exists self', w', new_head. split; [exact Hheads|]. split; [exact Hvals|]. split.
  - eapply Forall2_right; [|exact Hflags]. intros x y (_ & _ & H). exact H.
  - eapply Forall_impl; [exact Hnew|]. intros kp [H _]. exact H.
Defined.

(** * The module invariant *)

(** ** The invariant of the module *)

Lemma layer_ok_extend (h x : list Tensor) (embed : Z) (ly : Layer) :
  layer_ok h embed ly -> layer_ok (h ++ x) embed ly.
Proof.
  destruct ly as [m|m]; simpl.
  - intros (Hd & g & b & Hg & Hb & Hsg & Hsb). split; [exact Hd|].
    exists g, b. repeat split; try assumption; apply lookup_app_l_Some; assumption.
  - intros (Hi & Ho & tw & tb & Hw & Hb & Hsw & Hsb & Hl). split; [exact Hi|].
    split; [exact Ho|].
    exists tw, tb. repeat split; try assumption; apply lookup_app_l_Some; assumption.
Qed.

Lemma layer_ok_freeze (h : list Tensor) (embed : Z) (ly : Layer) :
  layer_ok h embed ly -> layer_ok h embed (freeze_layer ly).
Proof. destruct ly as [m|m]; simpl; intros H; exact H. Qed.

Lemma is_LayerNorm_freeze (ly : Layer) : is_LayerNorm ly -> is_LayerNorm (freeze_layer ly).
Proof. destruct ly; simpl; intros H; exact H. Qed.

Lemma head_ok_extend (h x : list Tensor) (embed : Z) (hd : Sequential) :
  head_ok h embed hd -> head_ok (h ++ x) embed hd.
Proof.
  intros [Hall Hshape]. split; [|exact Hshape].
  eapply Forall_impl; [exact Hall|]. intros ly. apply layer_ok_extend.
Qed.

Lemma head_ok_freeze (h : list Tensor) (embed : Z) (hd : Sequential) :
  head_ok h embed hd -> head_ok h embed (map freeze_layer hd).
Proof.
  intros [Hall (pre & m & -> & Hpre)]. split.
  - apply Forall_map. eapply Forall_impl; [exact Hall|]. intros ly. apply layer_ok_freeze.
  - rewrite map_app. simpl. eexists _, _. split; [reflexivity|].
    apply Forall_map. eapply Forall_impl; [exact Hpre|]. intros ly. apply is_LayerNorm_freeze.
Qed.

Lemma head_out_features_snoc (pre : list Layer) (m : nnLinear) :
  head_out_features (pre ++ [Linear m]) = lin_out_features m.
Proof. unfold head_out_features. rewrite last_last. reflexivity. Qed.

Lemma head_out_features_freeze (h : list Tensor) (embed : Z) (hd : Sequential) :
  head_ok h embed hd -> head_out_features (map freeze_layer hd) = head_out_features hd.
Proof.
  intros [_ (pre & m & -> & _)]. rewrite map_app. simpl.
  rewrite !head_out_features_snoc. reflexivity.
Qed.

Section Invariant.
Context `{G : Generator}.

Lemma fresh_head_ok (w w' : World) (wn : bool) (embed nb : Z) (head : Sequential) :
  fresh_head w w' wn embed nb head ->
  head_ok (heap w') embed head /\ head_out_features head = nb.
Proof.
  intros (He & Hn & -> & d & Hh & Hld & _).
  split; [|apply head_out_features_snoc].
  split.
  - rewrite Hh. apply Forall_app. split.
    + destruct wn; constructor; [|constructor]. simpl.
      split; [reflexivity|].
      exists (mkTensor [embed] (repeat 1%R (Z.to_nat embed))),
             (mkTensor [embed] (repeat 0%R (Z.to_nat embed))).
      split; [|split; [|split; reflexivity]].
      * cbn [app]. rewrite lookup_app_r by lia.
        rewrite Nat.sub_diag. reflexivity.
      * cbn [app]. rewrite lookup_app_r by lia.
        replace (S (length (heap w)) - length (heap w))%nat with 1%nat by lia.
        reflexivity.
    + constructor; [|constructor]. simpl.
      split; [reflexivity|]. split; [exact Hn|].
      exists (mkTensor [nb; embed] d), (mkTensor [nb] (repeat 0%R (Z.to_nat nb))).
      rewrite app_assoc.
      split; [|split; [|split; [|split]]]; [| | reflexivity | reflexivity |].
      * rewrite <- length_app. apply lookup_tail2_0.
      * rewrite <- length_app. apply lookup_tail2_1.
      * simpl. apply repeat_length.
  - eexists _, _. split; [reflexivity|]. destruct wn; repeat constructor.
Qed.

Lemma fresh_head_extends (w w' : World) (wn : bool) (embed nb : Z) (head : Sequential) :
  fresh_head w w' wn embed nb head -> exists x, heap w' = heap w ++ x.
Proof. intros (_ & _ & _ & d & Hh & _). eexists. exact Hh. Qed.

Lemma SimpleContinualLinear_init_ok (fuel : nat) (embed nb : Z) (fe wn : bool)
    (self : SimpleContinualLinear) (w w' : World) :
  SimpleContinualLinear_init fuel embed nb fe wn w = Some (Ok self, w') ->
  module_ok self w' /\ embed_dim self = embed /\ feat_expand self = fe /\
  map head_out_features (heads self) = [nb].
Proof.
  intros H. apply SimpleContinualLinear_init_inv in H as (head & Hf & ->).
  apply fresh_head_ok in Hf as [Hok Hout].
  unfold module_ok. cbn. rewrite Hout. repeat split. constructor; [exact Hok | constructor].
Qed.

Lemma SimpleContinualLinear_update_ok (fuel : nat) (self self' : SimpleContinualLinear)
    (nb : Z) (freeze : bool) (w w' : World) :
  module_ok self w ->
  SimpleContinualLinear_update fuel self nb freeze w = Some (Ok self', w') ->
  module_ok self' w' /\ embed_dim self' = embed_dim self /\
  feat_expand self' = feat_expand self /\
  map head_out_features (heads self') = map head_out_features (heads self) ++ [nb].
Proof.
  intros Hok H. apply SimpleContinualLinear_update_inv in H as (head & Hf & ->).
  destruct (fresh_head_extends _ _ _ _ _ _ Hf) as [x Hx].
  apply fresh_head_ok in Hf as [Hhead Hout].
  unfold module_ok in *. cbn [heads embed_dim feat_expand].
  assert (Forall (head_ok (heap w') (embed_dim self)) (heads self)) as Hold.
  { rewrite Hx. eapply Forall_impl; [exact Hok|]. intros hd. apply head_ok_extend. }
  split; [|split; [reflexivity|split; [reflexivity|]]].
  - apply Forall_app. split; [|constructor; [exact Hhead | constructor]].
    destruct freeze; [|exact Hold].
    apply Forall_map. eapply Forall_impl; [exact Hold|]. intros hd. apply head_ok_freeze.
  - rewrite map_app. simpl. rewrite Hout. f_equal.
    destruct freeze; [|reflexivity].
    rewrite map_map. apply map_ext_Forall.
    apply Forall_forall. rewrite Forall_forall in Hok.
    intros hd Hin. apply Hok in Hin. rename Hin into Hhd.
    eapply head_out_features_freeze. exact Hhd.
Qed.

Lemma updates_ok (fuel : nat) (calls : list (Z * bool))
    (self self' : SimpleContinualLinear) (w w' : World) :
  module_ok self w ->
  updates fuel self calls w = Some (Ok self', w') ->
  module_ok self' w' /\ embed_dim self' = embed_dim self /\
  feat_expand self' = feat_expand self /\
  map head_out_features (heads self') =
    map head_out_features (heads self) ++ map fst calls.
Proof.
  revert self w. induction calls as [|c calls IH]; intros self w Hok H; simpl in H.
  - injection H as <- <-. simpl. rewrite app_nil_r. repeat split. exact Hok.
  - apply bind_Ok in H as (self1 & w1 & Hup & H).
    apply (SimpleContinualLinear_update_ok _ _ _ _ _ _ _ Hok) in Hup
      as (Hok1 & He1 & Hf1 & Hm1).
    apply (IH _ _ Hok1) in H as (Hok2 & He2 & Hf2 & Hm2).
    split; [exact Hok2|]. split; [congruence|]. split; [congruence|].
    rewrite Hm2, Hm1, <- app_assoc. reflexivity.
Qed.

End Invariant.

(** * The forward pass over the heads *)

(** ** Concatenation of several matrices along dimension 1 *)

Lemma slab_row (t : Tensor) (bs c : Z) (i : nat) :
  shape t = [bs; c] -> slab t i = row t i.
Proof.
  intros Hs. unfold slab, row, last_dim. rewrite Hs. simpl.
  unfold numel. simpl. rewrite Z.mul_1_r. reflexivity.
Qed.

Lemma row_length (t : Tensor) (bs c : Z) (i : nat) :
  is_matrix bs c t -> (i < Z.to_nat bs)%nat -> length (row t i) = Z.to_nat c.
Proof.
  intros (Hs & Hc & Hl) Hi. unfold row, last_dim. rewrite Hs. simpl.
  rewrite length_take, length_drop. nia.
Qed.

Lemma torch_cat1_matrices (ts : list Tensor) (bs : Z) (cs : list Z) :
  ts <> [] -> Forall2 (is_matrix bs) cs ts ->
  torch_cat1 ts =
  Ok (mkTensor [bs; fold_right Z.add 0 cs]
        (concat (map (fun i => concat (map (fun t => row t i) ts))
                     (seq 0 (Z.to_nat bs))))).
Proof.
  intros Hne Hall. unfold torch_cat1.
  destruct ts as [|t0 rest]; [contradiction|].
  destruct cs as [|c0 cs']; [inversion Hall|].
  pose proof (Forall2_cons_1 _ _ _ _ _ Hall) as [(Hs0 & _) _].
  rewrite Hs0.
  assert (forallb (fun t => cat_compatible [bs; c0] (shape t)) (t0 :: rest) = true) as ->.
  { apply forallb_forall. intros t Hin.
    apply (proj2 (list_elem_of_In _ _)) in Hin.
    apply list_elem_of_lookup in Hin as [k Hk].
    destruct (Forall2_lookup_r _ _ _ _ _ Hall Hk) as (c & _ & (Hs & _)).
    rewrite Hs. simpl. rewrite !bool_decide_eq_true_2 by reflexivity. reflexivity. }
  f_equal. f_equal.
  - f_equal. f_equal.
    clear Hne Hs0. induction Hall as [|c t cs0 ts0 (Hs & _) _ IH]; simpl; [reflexivity|].
    rewrite Hs, IH. reflexivity.
  - f_equal. apply map_ext. intros i. f_equal.
    apply map_ext_Forall. apply Forall_forall. intros t Hin.
    apply list_elem_of_lookup in Hin as [k Hk].
    destruct (Forall2_lookup_r _ _ _ _ _ Hall Hk) as (c & _ & (Hs & _)).
    eapply slab_row. exact Hs.
Qed.

Lemma cat_row_length (ts : list Tensor) (bs : Z) (cs : list Z) (i : nat) :
  Forall2 (is_matrix bs) cs ts -> (i < Z.to_nat bs)%nat ->
  length (concat (map (fun t => row t i) ts)) = Z.to_nat (fold_right Z.add 0 cs) /\
  0 <= fold_right Z.add 0 cs.
Proof.
  intros Hall Hi. induction Hall as [|c t cs0 ts0 Hm _ IH]; simpl; [split; [reflexivity | lia]|].
  destruct IH as [IH Hpos]. pose proof Hm as (_ & Hc & _).
  rewrite length_app, IH, (row_length t bs c i Hm Hi). split; lia.
Qed.

(** Row [i] of the concatenation is the concatenation of the rows [i], in
    the order of the list. *)
Lemma cat_rows (ts : list Tensor) (bs : Z) (cs : list Z) (i : nat) :
  Forall2 (is_matrix bs) cs ts -> (i < Z.to_nat bs)%nat ->
  row (mkTensor [bs; fold_right Z.add 0 cs]
         (concat (map (fun i => concat (map (fun t => row t i) ts))
                      (seq 0 (Z.to_nat bs))))) i =
  concat (map (fun t => row t i) ts).
Proof.
  intros Hall Hi. unfold row, last_dim. simpl.
  set (C := Z.to_nat (fold_right Z.add 0 cs)).
  set (F := fun i => concat (map (fun t => row t i) ts)).
  assert (Forall (fun c => length c = C) (map F (seq 0 (Z.to_nat bs)))) as Hlen.
  { apply Forall_map. apply Forall_forall. intros j Hj.
    apply list_elem_of_In, in_seq in Hj. simpl.
    apply (cat_row_length ts bs cs j Hall). lia. }
  pose proof (chunks_concat C _ Hlen) as Hch.
  rewrite length_map, length_seq in Hch.
  pose proof (chunks_lookup (Z.to_nat bs) C (concat (map F (seq 0 (Z.to_nat bs)))) i Hi)
    as Hl.
  rewrite Hch, list_lookup_fmap, lookup_seq_lt in Hl by exact Hi.
  simpl in Hl. injection Hl as Hl. symmetry. exact Hl.
Qed.

(** ** forward of SimpleContinualLinear *)

Section Forward.
Context `{G : Generator}.

Lemma Layer_forward_LayerNorm (w : World) (embed bs : Z) (m : nnLayerNorm) (x : Tensor) :
  layer_ok (heap w) embed (LayerNorm m) -> shape x = [bs; embed] ->
  exists y, Layer_forward (LayerNorm m) x w = Some (Ok y, w) /\ shape y = [bs; embed].
Proof.
  intros (Hd & g & b & Hg & Hb & _) Hx. simpl.
  rewrite (bind_step _ _ _ _ _ (read_at _ w g Hg)).
  rewrite (bind_step _ _ _ _ _ (read_at _ w b Hb)).
  unfold F_layer_norm. rewrite Hx, Hd. unfold last_dim. simpl.
  rewrite Z.eqb_refl. eexists. split; reflexivity.
Qed.

Lemma linear_vec_length (ws : list (list R)) (b x : list R) :
  length (linear_vec ws (Some b) x) = Nat.min (length ws) (length b).
Proof. simpl. rewrite length_zip_with, length_map. reflexivity. Qed.

Lemma Layer_forward_Linear (w : World) (embed bs : Z) (m : nnLinear) (x : Tensor) :
  layer_ok (heap w) embed (Linear m) -> shape x = [bs; embed] ->
  exists y, Layer_forward (Linear m) x w = Some (Ok y, w) /\
            is_matrix bs (lin_out_features m) y.
Proof.
  intros (Hi & Ho & tw & tb & Hw & Hb & Hsw & Hsb & Hlb) Hx. simpl.
  rewrite (bind_step _ _ _ _ _ (read_at _ w tw Hw)).
  rewrite (bind_step _ _ _ _ _ (read_at _ w tb Hb)).
  unfold F_linear. rewrite Hx, Hsw. unfold last_dim, lead_dims. simpl.
  rewrite Z.eqb_refl. simpl. rewrite bool_decide_eq_true_2 by exact Hsb. simpl.
  eexists. split; [reflexivity|].
  split; [reflexivity|]. split; [exact Ho|]. simpl.
  rewrite (length_concat_uniform _ (Z.to_nat (lin_out_features m))).
  - rewrite length_map. unfold groups. rewrite length_chunks, Hx.
    unfold lead_dims, numel. simpl. rewrite Z.mul_1_r. reflexivity.
  - apply Forall_map. apply Forall_forall. intros xi _.
    rewrite linear_vec_length. unfold groups. rewrite length_chunks, Hsw, Hlb.
    unfold lead_dims, numel. simpl. rewrite Z.mul_1_r. lia.
Qed.

Lemma Sequential_forward_head (w : World) (embed bs : Z) (hd : Sequential) (x : Tensor) :
  head_ok (heap w) embed hd -> shape x = [bs; embed] ->
  exists y, Sequential_forward hd x w = Some (Ok y, w) /\
            is_matrix bs (head_out_features hd) y.
Proof.
  intros [Hall (pre & m & -> & Hpre)] Hx.
  rewrite head_out_features_snoc.
  apply Forall_app in Hall as [Hall_pre Hlast].
  apply Forall_cons in Hlast as [Hlin _].
  revert x Hx. induction pre as [|ly pre IH]; intros x Hx.
  - simpl app. cbn [Sequential_forward].
    destruct (Layer_forward_Linear w embed bs m x Hlin Hx) as (y & Hy & Hm).
    rewrite (bind_step _ _ _ _ _ Hy). exists y. split; [reflexivity | exact Hm].
  - apply Forall_cons in Hall_pre as [Hly Hall_pre].
    apply Forall_cons in Hpre as [Hln Hpre].
    destruct ly as [ln|lin]; [|destruct Hln].
    simpl app. cbn [Sequential_forward].
    destruct (Layer_forward_LayerNorm w embed bs ln x Hly Hx) as (x' & Hx' & Hs').
    rewrite (bind_step _ _ _ _ _ Hx').
    apply IH; assumption.
Qed.

Lemma forward_heads_ok (w : World) (fe : bool) (embed bs : Z) (x : Features)
    (hs : list Sequential) (start : nat) :
  Forall (head_ok (heap w) embed) hs ->
  (forall ti, (start <= ti < start + length hs)%nat ->
     exists t, head_input fe x ti = Ok t /\ shape t = [bs; embed]) ->
  exists outs,
    forward_heads fe hs start x w = Some (Ok outs, w) /\
    Forall2 (is_matrix bs) (map head_out_features hs) outs /\
    forall k hd, hs !! k = Some hd ->
      exists t o, head_input fe x (start + k) = Ok t /\
                  Sequential_forward hd t w = Some (Ok o, w) /\
                  outs !! k = Some o.
Proof.
  revert start. induction hs as [|hd hs IH]; intros start Hall Hin.
  - exists []. simpl. split; [reflexivity|]. split; [constructor|].
    intros k hd Hk. discriminate.
  - apply Forall_cons in Hall as [Hhd Hall].
    destruct (Hin start ltac:(simpl; lia)) as (t & Ht & Hs).
    destruct (Sequential_forward_head w embed bs hd t Hhd Hs) as (o & Ho & Hm).
    destruct (IH (S start) Hall) as (outs & Houts & Hms & Hper).
    { intros ti Hti. apply Hin. simpl. lia. }
    exists (o :: outs). cbn [forward_heads].
    rewrite Ht. cbn [lift]. rewrite (bind_step _ _ _ t w eq_refl).
    rewrite (bind_step _ _ _ _ _ Ho), (bind_step _ _ _ _ _ Houts).
    split; [reflexivity|]. split; [constructor; assumption|].
    intros [|k] hd' Hk; simpl in Hk.
    + injection Hk as <-. exists t, o. rewrite Nat.add_0_r. repeat split; assumption.
    + destruct (Hper k hd' Hk) as (t' & o' & Ht' & Ho' & Hl').
      exists t', o'. replace (start + S k)%nat with (S start + k)%nat by lia.
      repeat split; assumption.
Qed.

End Forward.

(** * Width of the logits *)

Section Grown.
Context `{G : Generator}.

Lemma grown_ok (fuel : nat) (embed c0 : Z) (fe wn : bool) (calls : list (Z * bool))
    (w0 w : World) (self : SimpleContinualLinear) :
  grown fuel embed c0 fe wn calls w0 = Some (Ok self, w) ->
  module_ok self w /\ embed_dim self = embed /\ feat_expand self = fe /\
  map head_out_features (heads self) = c0 :: map fst calls.
Proof.
  unfold grown. intros H. apply bind_Ok in H as (self0 & w1 & Hinit & Hup).
  apply SimpleContinualLinear_init_ok in Hinit as (Hok0 & He0 & Hf0 & Hm0).
  apply (updates_ok _ _ _ _ _ _ Hok0) in Hup as (Hok & He & Hf & Hm).
  rewrite Hm0 in Hm. split; [exact Hok|]. split; [congruence|]. split; [congruence|].
  exact Hm.
Qed.

Lemma updates_returns (fuel : nat) (calls : list (Z * bool))
    (self : SimpleContinualLinear) (w : World) :
  0 <= embed_dim self <= int64_max ->
  Forall (fun c => 0 <= fst c <= int64_max /\ fst c * embed_dim self <= int64_max) calls ->
  (forall g n, Forall (fun x => (-2 <= x <= 2)%R) (fst (normal_ 0 (2 / 100) n g))) ->
  exists self' w', updates fuel self calls w = Some (Ok self', w').
Proof.
  intros He Hcalls Hdraws. revert self w He Hcalls.
  induction calls as [|c calls IH]; intros self w He Hcalls.
  - eexists _, _. reflexivity.
  - apply Forall_cons in Hcalls as [[Hc Hce] Hcalls]. simpl.
    destruct (SimpleContinualLinear_update_returns fuel self (fst c) (snd c) w
                He Hc Hce Hdraws) as (self1 & w1 & Hup).
    rewrite (bind_step _ _ _ _ _ Hup).
    pose proof (SimpleContinualLinear_update_inv _ _ _ _ _ _ _ Hup) as (nh & _ & Hself1).
    assert (embed_dim self1 = embed_dim self) as Heq by (rewrite Hself1; reflexivity).
    apply IH; rewrite Heq; assumption.
Qed.

(** With every draw of [normal_(0, 0.02)] within [[-2, 2]] and sizes
    that fit, the constructor and the updates return. *)
Lemma grown_returns (fuel : nat) (embed c0 : Z) (fe wn : bool)
    (calls : list (Z * bool)) (w0 : World) :
  0 <= embed <= int64_max -> 0 <= c0 <= int64_max -> c0 * embed <= int64_max ->
  Forall (fun c => 0 <= fst c <= int64_max /\ fst c * embed <= int64_max) calls ->
  (forall g n, Forall (fun x => (-2 <= x <= 2)%R) (fst (normal_ 0 (2 / 100) n g))) ->
  exists self w, grown fuel embed c0 fe wn calls w0 = Some (Ok self, w).
Proof.
  intros He Hc Hce Hcalls Hdraws. unfold grown.
  destruct (SimpleContinualLinear_init_returns fuel embed c0 fe wn w0 He Hc Hce Hdraws)
    as (self0 & w1 & Hinit).
  rewrite (bind_step _ _ _ _ _ Hinit).
  pose proof (SimpleContinualLinear_init_ok _ _ _ _ _ _ _ _ Hinit) as (_ & He0 & _).
  apply updates_returns; rewrite ?He0; assumption.
Qed.

End Grown.

(** C1: a module constructed with [c0] classes and then updated with
    [c1, ..., ck] classes holds [k + 1] heads, head [i] being the one made
    for [ci]; [forward] returns under ['logits'] a tensor whose second
    dimension is [c0 + c1 + ... + ck], the concatenation along that
    dimension of the outputs of the heads in that order. *)
Theorem SimpleContinualLinear_logits_dimension `{G : Generator}
    (fuel : nat) (embed c0 : Z) (fe wn : bool) (calls : list (Z * bool))
    (w0 w : World) (self : SimpleContinualLinear) :
  grown fuel embed c0 fe wn calls w0 = Some (Ok self, w) ->
  length (heads self) = S (length calls) /\
  map head_out_features (heads self) = c0 :: map fst calls /\
  forall (x : Features) (bs : Z),
    (forall ti, (ti < S (length calls))%nat ->
       exists t, head_input fe x ti = Ok t /\ shape t = [bs; embed]) ->
    exists outs logits,
      SimpleContinualLinear_forward self x w
        = Some (Ok [("logits"%string, logits)], w) /\
      (forall ti hd, heads self !! ti = Some hd ->
         exists t o, head_input fe x ti = Ok t /\
                     Sequential_forward hd t w = Some (Ok o, w) /\
                     outs !! ti = Some o /\
                     shape o = [bs; head_out_features hd]) /\
      torch_cat1 outs = Ok logits /\
      shape logits = [bs; fold_right Z.add 0 (c0 :: map fst calls)] /\
      forall i, (i < Z.to_nat bs)%nat ->
        row logits i = concat (map (fun o => row o i) outs).
Proof.
  intros Hgrown.
  apply grown_ok in Hgrown as (Hok & He & Hf & Hm).
  assert (length (heads self) = S (length calls)) as Hlen.
  { rewrite <- (length_map head_out_features), Hm. simpl. rewrite length_map. reflexivity. }
  split; [exact Hlen|]. split; [exact Hm|].
  intros x bs Hin.
  unfold module_ok in Hok. rewrite He in Hok.
  destruct (forward_heads_ok w fe embed bs x (heads self) 0 Hok) as (outs & Hout & Hms & Hper).
  { intros ti Hti. apply Hin. lia. }
  rewrite Hm in Hms.
  assert (outs <> []) as Hne.
  { intros ->. inversion Hms. }
  pose proof (torch_cat1_matrices outs bs _ Hne Hms) as Hcat.
  eexists outs, _. split; [|split; [|split; [exact Hcat|split]]].
  - unfold SimpleContinualLinear_forward. rewrite Hf.
    rewrite (bind_step _ _ _ _ _ Hout). rewrite Hcat. reflexivity.
  - intros ti hd Hhd. destruct (Hper ti hd Hhd) as (t & o & Ht & Ho & Hl).
    exists t, o. repeat split; try assumption.
    destruct (Forall2_lookup_r _ _ _ _ _ Hms Hl) as (c & Hc & (Hs & _)).
    rewrite <- Hm, list_lookup_fmap, Hhd in Hc. injection Hc as <-. exact Hs.
  - reflexivity.
  - intros i Hi. apply (cat_rows outs bs _ i Hms Hi).
Qed.

Lemma SimpleContinualLinear_logits_dimension_witness :
  exists (self : SimpleContinualLinear) (w : @World constant_generator),
    length (heads self) = 2%nat /\
    map head_out_features (heads self) = [3; 2] /\
    exists outs logits,
      SimpleContinualLinear_forward self (Shared (mkTensor [1; 1] [1%R])) w
        = Some (Ok [("logits"%string, logits)], w) /\
      torch_cat1 outs = Ok logits /\
      shape logits = [1; 5].
Proof.
  destruct (@grown_returns constant_generator 0 1 3 false false [(2, true)] empty_world)
    as (self & w & Hg).
  - unfold int64_max. lia.
  - unfold int64_max. lia.
  - unfold int64_max. lia.
  - repeat constructor; simpl; unfold int64_max; lia.
  - exact constant_draws_in_range.
  - destruct (SimpleContinualLinear_logits_dimension 0 1 3 false false [(2, true)]
                empty_world w self Hg) as (Hlen & Hmap & Hfw).
    destruct (Hfw (Shared (mkTensor [1; 1] [1%R])) 1) as (outs & logits & H1 & _ & H3 & H4 & _).
    { intros ti _. eexists. split; reflexivity. }
    exists self, w. split; [exact Hlen|]. split; [exact Hmap|].
    exists outs, logits. split; [exact H1|]. split; [exact H3 | exact H4].
Defined.

(** * Keys of the state dict *)

(** ** Keys of the parameters *)

Lemma layers_named_key (i j : nat) (ls : list Layer) (kp : key * Param) :
  kp ∈ layers_named i j ls ->
  exists j' n, fst kp = (i, j', n) /\ (j <= j' < j + length ls)%nat.
Proof.
  revert j. induction ls as [|ly ls IH]; intros j Hin; simpl in Hin.
  - inversion Hin.
  - apply elem_of_app in Hin as [Hin|Hin].
    + apply list_elem_of_fmap in Hin as ([n p] & -> & _).
      exists j, n. split; [reflexivity | simpl; lia].
    + destruct (IH _ Hin) as (j' & n & Hk & Hj). exists j', n.
      split; [exact Hk | simpl; lia].
Qed.

Lemma Layer_parameters_keys (ly : Layer) :
  map fst (Layer_parameters ly) = [weight_name; bias_name].
Proof. destruct ly; reflexivity. Qed.

Lemma layers_named_NoDup (i j : nat) (ls : list Layer) :
  NoDup (map fst (layers_named i j ls)).
Proof.
  revert j. induction ls as [|ly ls IH]; intros j; simpl; [constructor|].
  rewrite map_app, map_map. simpl.
  apply NoDup_app. split; [|split].
  - change (map (fun x : pname * Param => (i, j, fst x)) (Layer_parameters ly))
      with (map (fun x : pname * Param => (fun n => (i, j, n)) (fst x)) (Layer_parameters ly)).
    rewrite <- (map_map fst (fun n => (i, j, n))), Layer_parameters_keys. simpl.
    apply NoDup_cons. split; [|apply NoDup_singleton].
    intros H. apply list_elem_of_singleton in H. discriminate.
  - intros k Hk1 Hk2.
    apply list_elem_of_fmap in Hk1 as (np & -> & _).
    apply list_elem_of_fmap in Hk2 as (kp & Hk & Hin).
    apply layers_named_key in Hin as (j' & n & Hkp & Hj).
    rewrite Hkp in Hk. injection Hk as Hk _. lia.
  - apply IH.
Qed.

Lemma heads_named_key (i : nat) (hs : list Sequential) (kp : key * Param) :
  kp ∈ heads_named i hs ->
  (i <= fst (fst (fst kp)) < i + length hs)%nat.
Proof.
  revert i. induction hs as [|h hs IH]; intros i Hin; simpl in Hin.
  - inversion Hin.
  - apply elem_of_app in Hin as [Hin|Hin].
    + apply layers_named_key in Hin as (j' & n & -> & _). simpl. lia.
    + apply IH in Hin. simpl. lia.
Qed.

Lemma heads_named_NoDup (i : nat) (hs : list Sequential) :
  NoDup (map fst (heads_named i hs)).
Proof.
  revert i. induction hs as [|h hs IH]; intros i; simpl; [constructor|].
  rewrite map_app. apply NoDup_app. split; [|split].
  - apply layers_named_NoDup.
  - intros k Hk1 Hk2.
    apply list_elem_of_fmap in Hk1 as (kp1 & -> & Hin1).
    apply list_elem_of_fmap in Hk2 as (kp2 & Hk & Hin2).
    apply layers_named_key in Hin1 as (j' & n & Hkp & _).
    apply heads_named_key in Hin2. rewrite <- Hk, Hkp in Hin2. simpl in Hin2. lia.
  - apply IH.
Qed.

(** ** Lookup in a state dict *)

Lemma dict_lookup_cons (kl : key * loc) (sd : list (key * loc)) (k : key) :
  dict_lookup (kl :: sd) k =
  if bool_decide (fst kl = k) then Some (snd kl) else dict_lookup sd k.
Proof. unfold dict_lookup. simpl. destruct (bool_decide (fst kl = k)); reflexivity. Qed.

Lemma dict_lookup_None (sd : list (key * loc)) (k : key) :
  k ∉ map fst sd -> dict_lookup sd k = None.
Proof.
  induction sd as [|kl sd IH]; intros Hk; [reflexivity|].
  rewrite dict_lookup_cons. simpl in Hk.
  apply not_elem_of_cons in Hk as [Hne Hk].
  rewrite bool_decide_eq_false_2 by congruence. apply IH. exact Hk.
Qed.

Lemma dict_lookup_Some (sd : list (key * loc)) (i : nat) (k : key) (l : loc) :
  NoDup (map fst sd) -> sd !! i = Some (k, l) -> dict_lookup sd k = Some l.
Proof.
  revert i. induction sd as [|kl sd IH]; intros i Hnd Hi; [discriminate|].
  rewrite dict_lookup_cons. simpl in Hnd. apply NoDup_cons in Hnd as [Hnotin Hnd].
  destruct i as [|i]; simpl in Hi.
  - injection Hi as ->. simpl. rewrite bool_decide_eq_true_2 by reflexivity. reflexivity.
  - rewrite bool_decide_eq_false_2; [eapply IH; eassumption|].
    intros Heq. apply Hnotin. rewrite Heq.
    apply list_elem_of_fmap. exists (k, l). split; [reflexivity|].
    eapply list_elem_of_lookup_2. exact Hi.
Qed.

Lemma dict_lookup_is_Some (sd : list (key * loc)) (k : key) (l : loc) :
  dict_lookup sd k = Some l -> (k, l) ∈ sd.
Proof.
  induction sd as [|kl sd IH]; [discriminate|].
  rewrite dict_lookup_cons. destruct (bool_decide_reflect (fst kl = k)) as [Heq|_].
  - intros H. injection H as <-. subst k. destruct kl. left.
  - intros H. right. apply IH. exact H.
Qed.

(** * Snapshots and the strict load *)

Lemma keys_imap (sd : list (key * loc)) (g : nat -> loc) :
  map fst (imap (fun i kl => (fst kl, g i)) sd) = map fst sd.
Proof.
  apply list_eq. intros i.
  rewrite !list_lookup_fmap, list_lookup_imap.
  destruct (sd !! i); reflexivity.
Qed.

Lemma unexpected_keys_nil (params : list (key * Param)) (sd : list (key * loc)) :
  Forall (fun k => k ∈ map fst params) (map fst sd) -> unexpected_keys params sd = [].
Proof.
  unfold unexpected_keys. induction 1 as [|k ks Hk _ IH]; simpl; [reflexivity|].
  assert (existsb (fun kp => bool_decide (fst kp = k)) params = true) as ->.
  { apply existsb_exists. apply list_elem_of_fmap in Hk as (kp & -> & Hin).
    exists kp. split; [apply list_elem_of_In; exact Hin|].
    apply bool_decide_eq_true_2. reflexivity. }
  simpl. exact IH.
Qed.

Section Snapshot.
Context `{G : Generator}.

(** [deepcopy] copies every tensor of the dict to a new storage at the
    end of the store. *)
Lemma deepcopy_Ok (sd : list (key * loc)) (w : World) :
  Forall (fun kl => is_Some (heap w !! snd kl)) sd ->
  exists ts,
    Forall2 (fun kl t => heap w !! snd kl = Some t) sd ts /\
    deepcopy sd w =
    Some (Ok (imap (fun i kl => (fst kl, (length (heap w) + i)%nat)) sd),
          mkWorld _ (heap w ++ ts) (gen w)).
Proof.
  revert w. induction sd as [|kl sd IH]; intros w Hall.
  - exists []. split; [constructor|]. simpl. rewrite app_nil_r, world_eta. reflexivity.
  - apply Forall_cons in Hall as [[t Ht] Hall].
    destruct (IH (mkWorld _ (heap w ++ [t]) (gen w))) as (ts & Hts & Hcopy).
    { eapply Forall_impl; [exact Hall|]. intros kl' [t' Ht']. exists t'.
      apply lookup_app_l_Some. exact Ht'. }
    exists (t :: ts). split.
    + constructor; [exact Ht|].
      apply Forall2_same_length_lookup. split; [eapply Forall2_length; exact Hts|].
      intros i kl' t' Hkl Ht'.
      pose proof (Forall2_lookup_lr _ _ _ _ _ _ Hts Hkl Ht') as Hl. simpl in Hl.
      destruct (Forall_lookup_1 _ _ _ _ Hall Hkl) as [t0 Ht0].
      rewrite (lookup_app_l_Some _ _ _ _ Ht0) in Hl. congruence.
    + cbn [deepcopy].
      rewrite (bind_step _ _ _ _ _ (read_at _ w t Ht)).
      rewrite (bind_step _ _ _ (length (heap w))
                 (mkWorld _ (heap w ++ [t]) (gen w)) eq_refl).
      rewrite (bind_step _ _ _ _ _ Hcopy). unfold ret. cbn [heap gen].
      rewrite <- app_assoc. simpl app. f_equal. f_equal. f_equal.
      simpl. rewrite Nat.add_0_r. f_equal.
      apply imap_ext. intros i kl' _. simpl. rewrite length_app. simpl. f_equal. lia.
Qed.

Lemma set_data__Ok (l : loc) (v : list R) (w w2 : World) (u : unit) :
  set_data_ l v w = Some (Ok u, w2) ->
  exists t, heap w !! l = Some t /\
            heap w2 = <[l := mkTensor (shape t) v]> (heap w).
Proof.
  unfold set_data_. intros H.
  apply bind_Ok in H as (t & w1 & Hr & H). apply read_Ok in Hr as [Ht ->].
  destruct (_ =? _)%nat; [|discriminate].
  apply write_data_Ok in H as (t' & Ht' & ->). rewrite Ht in Ht'. injection Ht' as <-.
  exists t. split; [exact Ht | reflexivity].
Qed.

(** In-place changes keep the tensors above [base] and every shape. *)
Lemma set_all__frame (steps : list (loc * list R)) (w w2 : World) (u : unit) (base : nat) :
  set_all_ steps w = Some (Ok u, w2) ->
  Forall (fun lv => (fst lv < base)%nat) steps ->
  (forall l, (base <= l)%nat -> heap w2 !! l = heap w !! l) /\
  (forall l t, heap w !! l = Some t ->
     exists t2, heap w2 !! l = Some t2 /\ shape t2 = shape t).
Proof.
  revert w. induction steps as [|lv steps IH]; intros w H Hall; simpl in H.
  - injection H as _ <-. split; [reflexivity|]. intros l t Ht. exists t. split; [exact Ht | reflexivity].
  - apply Forall_cons in Hall as [Hlv Hall]. simpl in Hlv.
    apply bind_Ok in H as (u1 & w1 & Hset & H).
    apply set_data__Ok in Hset as (t0 & Ht0 & Hh1).
    destruct (IH w1 H Hall) as [Hkeep Hshape]. split.
    + intros l Hl. rewrite (Hkeep l Hl), Hh1.
      apply list_lookup_insert_ne. lia.
    + intros l t Ht.
      destruct (decide (l = fst lv)) as [->|Hne].
      * destruct (Hshape (fst lv) (mkTensor (shape t0) (snd lv))) as (t2 & Ht2 & Hs2).
        { rewrite Hh1. apply list_lookup_insert_eq. eapply lookup_lt_Some. exact Ht0. }
        exists t2. split; [exact Ht2|]. rewrite Hs2. simpl.
        assert (Some t0 = Some t) as Heq by (rewrite <- Ht0, <- Ht; reflexivity).
        congruence.
      * apply Hshape. rewrite Hh1, list_lookup_insert_ne by congruence. exact Ht.
Qed.

(** *** The loop of [load_state_dict] *)

(** The loop returns the missing keys, provided the tensors it reads
    are live; it writes to the parameters it finds in the dict only. *)
Lemma load_params_total (sd : list (key * loc)) (params : list (key * Param)) (w : World) :
  Forall (fun kp => is_Some (heap w !! storage (snd kp)) /\
                    forall s, dict_lookup sd (fst kp) = Some s -> is_Some (heap w !! s))
         params ->
  exists errs w',
    load_params params sd w = Some (Ok (missing_keys params sd, errs), w') /\
    (forall l, is_Some (heap w !! l) -> is_Some (heap w' !! l)) /\
    (forall l,
       Forall (fun kp => dict_lookup sd (fst kp) = None \/ storage (snd kp) <> l) params ->
       heap w' !! l = heap w !! l).
Proof.
  revert w. induction params as [|kp params IH]; intros w Hall.
  - exists O, w. simpl. repeat split; auto.
  - apply Forall_cons in Hall as [[[tp Htp] Hsrc] Hall].
    unfold missing_keys. cbn [load_params List.filter].
    destruct (dict_lookup sd (fst kp)) as [s|] eqn:Hlk.
    + destruct (Hsrc s eq_refl) as [ts Hts].
      rewrite (bind_step _ _ _ _ _ (read_at _ w ts Hts)).
      rewrite (bind_step _ _ _ _ _ (read_at _ w tp Htp)).
      destruct (decide (shape ts = shape tp)) as [Hsh|Hsh].
      * rewrite (bind_step _ _ _ _ _ (write_data_at _ (data ts) w tp Htp)).
        set (w1 := mkWorld _ (<[storage (snd kp) := mkTensor (shape tp) (data ts)]> (heap w))
                     (gen w)).
        destruct (IH w1) as (errs & w' & Hload & Hlive & Hframe).
        { eapply Forall_impl; [exact Hall|]. intros kp' [Hp' Hs']. unfold w1. cbn [heap].
          split; [|intros s' Hs'']; apply lookup_lt_is_Some; rewrite length_insert;
            apply lookup_lt_is_Some; auto. }
        exists errs, w'. split; [exact Hload|]. split.
        -- intros l Hl. apply Hlive. unfold w1. cbn [heap].
           apply lookup_lt_is_Some. rewrite length_insert. apply lookup_lt_is_Some. exact Hl.
        -- intros l Hl. apply Forall_cons in Hl as [[Hnone|Hne] Hl]; [congruence|].
           rewrite (Hframe l Hl). unfold w1. cbn [heap].
           apply list_lookup_insert_ne. exact Hne.
      * destruct (IH w Hall) as (errs & w' & Hload & Hlive & Hframe).
        rewrite (bind_step _ _ _ _ _ Hload).
        exists (S errs), w'. split; [reflexivity|]. split; [exact Hlive|].
        intros l Hl. apply Forall_cons in Hl as [_ Hl]. apply Hframe. exact Hl.
    + destruct (IH w Hall) as (errs & w' & Hload & Hlive & Hframe).
      rewrite (bind_step _ _ _ _ _ Hload).
      exists errs, w'. split; [reflexivity|]. split; [exact Hlive|].
      intros l Hl. apply Forall_cons in Hl as [_ Hl]. apply Hframe. exact Hl.
Qed.

(** With every key present and every shape as saved, the loop gives
    each parameter the saved tensor [orig] has for it. *)
Lemma load_params_restores (orig : list Tensor) (n0 : nat)
    (sd : list (key * loc)) (params : list (key * Param)) (w : World) :
  Forall (fun kp => exists s t t',
            dict_lookup sd (fst kp) = Some s /\ (n0 <= s)%nat /\
            heap w !! s = Some t /\ orig !! storage (snd kp) = Some t /\
            (storage (snd kp) < n0)%nat /\
            heap w !! storage (snd kp) = Some t' /\ shape t' = shape t) params ->
  exists w',
    load_params params sd w = Some (Ok ([], O), w') /\
    (forall l, (n0 <= l)%nat -> heap w' !! l = heap w !! l) /\
    (forall l, heap w' !! l = heap w !! l \/ heap w' !! l = orig !! l) /\
    Forall (fun kp => heap w' !! storage (snd kp) = orig !! storage (snd kp)) params.
Proof.
  revert w. induction params as [|kp params IH]; intros w Hall.
  - exists w. simpl. repeat split; auto.
  - apply Forall_cons in Hall as [(s & t & t' & Hlk & Hs & Hts & Horig & Hp & Htp & Hsh) Hall].
    cbn [load_params]. rewrite Hlk.
    rewrite (bind_step _ _ _ _ _ (read_at _ w t Hts)).
    rewrite (bind_step _ _ _ _ _ (read_at _ w t' Htp)).
    rewrite decide_True by congruence.
    rewrite (bind_step _ _ _ _ _ (write_data_at _ (data t) w t' Htp)).
    rewrite Hsh, tensor_eta.
    set (w1 := mkWorld _ (<[storage (snd kp) := t]> (heap w)) (gen w)).
    assert (forall l, heap w1 !! l = heap w !! l \/ heap w1 !! l = orig !! l) as Hstep.
    { intros l. unfold w1. cbn [heap].
      destruct (decide (l = storage (snd kp))) as [->|Hne].
      - right. transitivity (Some t); [|symmetry; exact Horig].
        apply list_lookup_insert_eq. eapply lookup_lt_Some. exact Htp.
      - left. apply list_lookup_insert_ne. congruence. }
    destruct (IH w1) as (w' & Hload & Hkeep & Hdisj & Hrest).
    { eapply Forall_impl; [exact Hall|].
      intros kp' (s' & t2 & t2' & Hlk' & Hs' & Hts' & Horig' & Hp' & Htp' & Hsh').
      unfold w1. cbn [heap].
      destruct (decide (storage (snd kp') = storage (snd kp))) as [Heq|Hne].
      - exists s', t2, t. rewrite Heq in *. repeat split; try assumption.
        + rewrite list_lookup_insert_ne by lia. exact Hts'.
        + apply list_lookup_insert_eq. eapply lookup_lt_Some. exact Htp.
        + congruence.
      - exists s', t2, t2'. repeat split; try assumption.
        + rewrite list_lookup_insert_ne by lia. exact Hts'.
        + rewrite list_lookup_insert_ne by congruence. exact Htp'. }
    exists w'. split; [exact Hload|]. split; [|split].
    + intros l Hl. rewrite (Hkeep l Hl). unfold w1. cbn [heap].
      apply list_lookup_insert_ne. lia.
    + intros l. destruct (Hdisj l) as [H1|H1]; [|right; exact H1].
      rewrite H1. apply Hstep.
    + constructor; [|exact Hrest]. cbn beta.
      destruct (Hdisj (storage (snd kp))) as [H1|H1]; [|exact H1].
      transitivity (Some t); [|symmetry; exact Horig].
      etransitivity; [exact H1|]. unfold w1. cbn [heap].
      apply list_lookup_insert_eq. eapply lookup_lt_Some. exact Htp.
Qed.

End Snapshot.

(** * [backup] followed by [recall] *)

Section Backup.
Context `{G : Generator}.

(** [backup] returns, with a dict of fresh copies. *)
Lemma SimpleContinualLinear_backup_Ok (self : SimpleContinualLinear) (w0 : World) :
  params_allocated self w0 ->
  exists ts,
    Forall2 (fun kp t => heap w0 !! storage (snd kp) = Some t) (named_parameters self) ts /\
    SimpleContinualLinear_backup self w0 =
    Some (Ok (mkSimpleContinualLinear (embed_dim self) (feat_expand self) (with_norm self)
                (heads self)
                (Some (imap (fun i kl => (fst kl, (length (heap w0) + i)%nat))
                            (state_dict self)))),
          mkWorld _ (heap w0 ++ ts) (gen w0)).
Proof.
  intros Halloc. unfold params_allocated in Halloc.
  destruct (deepcopy_Ok (state_dict self) w0) as (ts & Hts & Hcopy).
  { unfold state_dict. apply Forall_map. exact Halloc. }
  exists ts. split.
  - unfold state_dict in Hts. apply Forall2_fmap_l in Hts. exact Hts.
  - unfold SimpleContinualLinear_backup. rewrite (bind_step _ _ _ _ _ Hcopy). reflexivity.
Qed.

Lemma snapshot_lookup (self : SimpleContinualLinear) (n0 i : nat) (kp : key * Param) :
  named_parameters self !! i = Some kp ->
  imap (fun i kl => (fst kl, (n0 + i)%nat)) (state_dict self) !! i
    = Some (fst kp, (n0 + i)%nat) /\
  dict_lookup (imap (fun i kl => (fst kl, (n0 + i)%nat)) (state_dict self)) (fst kp)
    = Some (n0 + i)%nat.
Proof.
  intros Hkp.
  assert (imap (fun i kl => (fst kl, (n0 + i)%nat)) (state_dict self) !! i
          = Some (fst kp, (n0 + i)%nat)) as Hl.
  { rewrite list_lookup_imap. unfold state_dict. rewrite list_lookup_fmap, Hkp.
    reflexivity. }
  split; [exact Hl|].
  eapply dict_lookup_Some; [|exact Hl].
  rewrite keys_imap. unfold state_dict. rewrite map_map. simpl.
  apply heads_named_NoDup.
Qed.

Lemma snapshot_keys (self : SimpleContinualLinear) (n0 : nat) :
  map fst (imap (fun i kl => (fst kl, (n0 + i)%nat)) (state_dict self))
  = map fst (named_parameters self).
Proof. rewrite keys_imap. unfold state_dict. rewrite map_map. reflexivity. Qed.

End Backup.

(** C3: after [backup()], whatever in-place changes are made to the
    tensors that existed then (the parameters of the module among them),
    the saved tensors keep the values of the time of the backup, in
    storages of their own, and [recall()] returns and gives every
    parameter back the value it had at the time of the backup. *)
Theorem backup_recall_round_trip `{G : Generator}
    (self : SimpleContinualLinear) (w0 : World) :
  params_allocated self w0 ->
  exists self1 w1 sd,
    SimpleContinualLinear_backup self w0 = Some (Ok self1, w1) /\
    old_state_dict self1 = Some sd /\ heads self1 = heads self /\
    forall (steps : list (loc * list R)) (w2 : World),
      Forall (fun lv => (fst lv < length (heap w0))%nat) steps ->
      set_all_ steps w1 = Some (Ok tt, w2) ->
      Forall2 (fun kp kl => fst kl = fst kp /\ (length (heap w0) <= snd kl)%nat /\
                            heap w2 !! snd kl = heap w0 !! storage (snd kp))
              (named_parameters self) sd /\
      exists w3,
        SimpleContinualLinear_recall self1 w2 = Some (Ok tt, w3) /\
        Forall (fun kp => heap w3 !! storage (snd kp) = heap w0 !! storage (snd kp))
               (named_parameters self1).
Proof.
  intros Halloc.
  destruct (SimpleContinualLinear_backup_Ok self w0 Halloc) as (ts & Hts & Hbackup).
  eexists _, _, _. split; [exact Hbackup|]. split; [reflexivity|]. split; [reflexivity|].
  intros steps w2 Hsteps Hset.
  destruct (set_all__frame steps _ w2 tt (length (heap w0)) Hset Hsteps) as [Hkeep Hshape].
  cbn [heap] in Hkeep, Hshape.
  set (n0 := length (heap w0)) in *.
  set (sd := imap (fun i kl => (fst kl, (n0 + i)%nat)) (state_dict self)).
  (* what holds of the parameter at index [i] *)
  assert (forall i kp, named_parameters self !! i = Some kp ->
            exists t t',
              dict_lookup sd (fst kp) = Some (n0 + i)%nat /\
              sd !! i = Some (fst kp, (n0 + i)%nat) /\
              heap w2 !! (n0 + i)%nat = Some t /\
              heap w0 !! storage (snd kp) = Some t /\
              (storage (snd kp) < n0)%nat /\
              heap w2 !! storage (snd kp) = Some t' /\ shape t' = shape t) as Hidx.
  { intros i kp Hkp.
    destruct (Forall2_lookup_l _ _ _ _ _ Hts Hkp) as (t & Hti & Ht).
    destruct (Hshape (storage (snd kp)) t) as (t' & Ht' & Hs').
    { apply lookup_app_l_Some. exact Ht. }
    destruct (snapshot_lookup self n0 i kp Hkp) as [Hl Hd].
    exists t, t'. repeat split; try assumption.
    - rewrite Hkeep by lia. rewrite lookup_app_r by (unfold n0; lia).
      replace (n0 + i - length (heap w0))%nat with i by (unfold n0; lia). exact Hti.
    - eapply lookup_lt_Some. exact Ht. }
  split.
  - apply Forall2_same_length_lookup. split.
    + unfold sd. rewrite length_imap. unfold state_dict. rewrite length_map. reflexivity.
    + intros i kp kl Hkp Hkl.
      destruct (Hidx i kp Hkp) as (t & t' & _ & Hl & Hw2 & Hw0 & _).
      rewrite Hl in Hkl. injection Hkl as <-. simpl.
      split; [reflexivity|]. split; [lia|]. congruence.
  - destruct (load_params_restores (heap w0) n0 sd (named_parameters self) w2)
      as (w3 & Hload & _ & _ & Hrest).
    { apply Forall_lookup_2. intros i kp Hkp.
      destruct (Hidx i kp Hkp) as (t & t' & Hd & _ & Hw2 & Hw0 & Hlt & Hp & Hs).
      exists (n0 + i)%nat, t, t'. repeat split; try assumption. lia. }
    exists w3. split; [|exact Hrest].
    unfold SimpleContinualLinear_recall. cbn [old_state_dict].
    unfold load_state_dict.
    change (named_parameters (mkSimpleContinualLinear _ _ _ (heads self) _))
      with (named_parameters self).
    rewrite (bind_step _ _ _ _ _ Hload). cbn [fst snd].
    rewrite unexpected_keys_nil; [reflexivity|].
    fold sd. unfold sd. rewrite snapshot_keys.
    apply Forall_forall. intros k Hk. exact Hk.
Qed.

Lemma one_head_backup :
  SimpleContinualLinear_backup one_head_module one_head_world
  = Some (Ok one_head_backed_up, one_head_backup_world).
Proof. reflexivity. Qed.

Lemma one_head_training :
  set_all_ [(0%nat, [5%R])] one_head_backup_world = Some (Ok tt, one_head_trained_world).
Proof. reflexivity. Qed.

Lemma backup_recall_round_trip_witness :
  exists w3 : @World constant_generator,
    SimpleContinualLinear_recall one_head_backed_up one_head_trained_world
      = Some (Ok tt, w3) /\
    Forall (fun kp => heap w3 !! storage (snd kp) = heap one_head_world !! storage (snd kp))
           (named_parameters one_head_backed_up).
Proof.
  destruct (backup_recall_round_trip one_head_module one_head_world one_head_allocated)
    as (self1 & w1 & sd & Hb & Hsd & _ & Hround).
  rewrite one_head_backup in Hb. injection Hb as <- <-.
  destruct (Hround [(0%nat, [5%R])] one_head_trained_world) as [_ Hrecall].
  - repeat constructor.
  - exact one_head_training.
  - exact Hrecall.
Defined.

(** * [recall] after [update] *)

Lemma missing_keys_app (a b : list (key * Param)) (sd : list (key * loc)) :
  missing_keys (a ++ b) sd = missing_keys a sd ++ missing_keys b sd.
Proof. unfold missing_keys. rewrite List.filter_app, map_app. reflexivity. Qed.

Lemma missing_keys_found (ps : list (key * Param)) (sd : list (key * loc)) :
  Forall (fun kp => is_Some (dict_lookup sd (fst kp))) ps -> missing_keys ps sd = [].
Proof.
  unfold missing_keys. induction 1 as [|kp ps [s Hs] _ IH]; simpl; [reflexivity|].
  rewrite Hs. exact IH.
Qed.

Lemma missing_keys_absent (ps : list (key * Param)) (sd : list (key * loc)) :
  Forall (fun kp => dict_lookup sd (fst kp) = None) ps -> missing_keys ps sd = map fst ps.
Proof.
  unfold missing_keys. induction 1 as [|kp ps Hs _ IH]; simpl; [reflexivity|].
  rewrite Hs. simpl. f_equal. exact IH.
Qed.

Lemma layer_ok_allocated (h : list Tensor) (embed : Z) (ly : Layer) :
  layer_ok h embed ly ->
  Forall (fun np => is_Some (h !! storage (snd np))) (Layer_parameters ly).
Proof.
  destruct ly as [m|m]; simpl.
  - intros (_ & g & b & Hg & Hb & _). repeat constructor; simpl; eexists; eassumption.
  - intros (_ & _ & tw & tb & Hw & Hb & _). repeat constructor; simpl; eexists; eassumption.
Qed.

Lemma layers_ok_allocated (h : list Tensor) (embed : Z) (i j : nat) (ls : list Layer) :
  Forall (layer_ok h embed) ls ->
  Forall (fun kp => is_Some (h !! storage (snd kp))) (layers_named i j ls).
Proof.
  intros Hall. revert j. induction Hall as [|ly ls Hly _ IH]; intros j; simpl; [constructor|].
  apply Forall_app. split; [|apply IH].
  apply Forall_map. simpl. eapply layer_ok_allocated. exact Hly.
Qed.

Section Recall.
Context `{G : Generator}.

Lemma set_all__shapes (steps : list (loc * list R)) (w w2 : World) (u : unit) :
  set_all_ steps w = Some (Ok u, w2) ->
  forall l t, heap w !! l = Some t ->
    exists t2, heap w2 !! l = Some t2 /\ shape t2 = shape t.
Proof.
  revert w. induction steps as [|lv steps IH]; intros w H; simpl in H.
  - injection H as _ <-. intros l t Ht. exists t. split; [exact Ht | reflexivity].
  - apply bind_Ok in H as (u1 & w1 & Hset & H).
    apply set_data__Ok in Hset as (t0 & Ht0 & Hh1).
    intros l t Ht.
    destruct (decide (l = fst lv)) as [->|Hne].
    + destruct (IH w1 H (fst lv) (mkTensor (shape t0) (snd lv))) as (t2 & Ht2 & Hs2).
      { rewrite Hh1. apply list_lookup_insert_eq. eapply lookup_lt_Some. exact Ht0. }
      exists t2. split; [exact Ht2|]. rewrite Hs2. simpl. congruence.
    + apply (IH w1 H). rewrite Hh1, list_lookup_insert_ne by congruence. exact Ht.
Qed.

End Recall.

(** After [backup()] and [update()], [recall()] raises: the saved dict has
    no entry for the parameters of the appended head, and the strict load
    rejects the missing keys; the failed call leaves the parameters of the
    appended head as they are. *)
Lemma recall_after_update_missing_keys `{G : Generator}
    (fuel : nat) (self self1 self2 : SimpleContinualLinear) (nb_classes : Z)
    (freeze_old : bool) (steps : list (loc * list R)) (w0 w1 w2 w3 : World) :
  params_allocated self w0 ->
  SimpleContinualLinear_backup self w0 = Some (Ok self1, w1) ->
  SimpleContinualLinear_update fuel self1 nb_classes freeze_old w1 = Some (Ok self2, w2) ->
  set_all_ steps w2 = Some (Ok tt, w3) ->
  exists w4 sd new_head,
    SimpleContinualLinear_recall self2 w3 = Some (Raise RuntimeError, w4) /\
    old_state_dict self2 = Some sd /\
    heads self2 =
      (if freeze_old then map (map freeze_layer) (heads self) else heads self)
      ++ [new_head] /\
    missing_keys (named_parameters self2) sd =
      map fst (layers_named (length (heads self)) 0 new_head) /\
    missing_keys (named_parameters self2) sd <> [] /\
    unexpected_keys (named_parameters self2) sd = [] /\
    Forall (fun kp => heap w4 !! storage (snd kp) = heap w3 !! storage (snd kp))
           (layers_named (length (heads self)) 0 new_head).
Proof.
  intros Halloc Hbackup Hupdate Hsteps.
  destruct (SimpleContinualLinear_backup_Ok self w0 Halloc) as (ts & Hts & Hb).
  rewrite Hb in Hbackup. injection Hbackup as <- <-.
  apply SimpleContinualLinear_update_inv in Hupdate as (new_head & Hfresh & ->).
  cbn [heads embed_dim with_norm feat_expand old_state_dict] in *.
  set (n0 := length (heap w0)) in *.
  set (sd := imap (fun i kl => (fst kl, (n0 + i)%nat)) (state_dict self)) in *.
  set (old_heads := if freeze_old then map (map freeze_layer) (heads self) else heads self).
  set (n := length (heads self)).
  set (w1 := mkWorld _ (heap w0 ++ ts) (gen w0)) in *.
  pose proof (set_all__shapes steps w2 w3 tt Hsteps) as Hshape.
  pose proof (fresh_head_ok _ _ _ _ _ _ Hfresh) as [[Hnew_ok _] _].
  pose proof (fresh_head_parameters _ _ _ _ _ _ n Hfresh) as Hnew_fresh.
  (* the parameters of the updated module *)
  assert (length old_heads = n) as Hlen_old.
  { unfold old_heads, n. destruct freeze_old; [apply length_map | reflexivity]. }
  assert (exists f, (forall p, storage (f p) = storage p) /\
            heads_named 0 old_heads =
            map (fun kp => (fst kp, f (snd kp))) (named_parameters self)) as (f & Hf & Hold).
  { unfold old_heads, named_parameters. destruct freeze_old.
    - exists freeze_param. split; [reflexivity | apply heads_named_freeze].
    - exists (fun p => p). split; [reflexivity|].
      rewrite <- (map_id (heads_named 0 (heads self))) at 1.
      apply map_ext. intros [k p]. reflexivity. }
  assert (named_parameters
            (mkSimpleContinualLinear (embed_dim self) (feat_expand self) (with_norm self)
               (old_heads ++ [new_head]) (Some sd))
          = map (fun kp => (fst kp, f (snd kp))) (named_parameters self)
            ++ layers_named n 0 new_head) as Hparams.
  { unfold named_parameters at 1. cbn [heads].
    rewrite heads_named_app, Hold, Hlen_old. simpl. rewrite app_nil_r. reflexivity. }
  (* allocation *)
  assert (forall l, is_Some (heap w1 !! l) -> is_Some (heap w3 !! l)) as Hlive.
  { intros l [t Ht].
    destruct (Hshape l t) as (t2 & Ht2 & _); [|exists t2; exact Ht2].
    eapply fresh_head_keeps; eassumption. }
  assert (forall k s, dict_lookup sd k = Some s -> is_Some (heap w1 !! s)) as Hsrc.
  { intros k s Hks. apply dict_lookup_is_Some in Hks.
    unfold sd in Hks. apply list_elem_of_lookup in Hks as [i Hi].
    rewrite list_lookup_imap in Hi.
    destruct (state_dict self !! i) as [kl|] eqn:Hkl; [|discriminate].
    simpl in Hi. injection Hi as _ <-.
    apply lookup_lt_is_Some. unfold w1. cbn [heap]. rewrite length_app.
    apply lookup_lt_Some in Hkl. unfold state_dict in Hkl. rewrite length_map in Hkl.
    rewrite <- (Forall2_length _ _ _ Hts). unfold n0. lia. }
  assert (Forall (fun kp => is_Some (dict_lookup sd (fst kp)) /\
                            (storage (snd kp) < n0)%nat)
                 (map (fun kp => (fst kp, f (snd kp))) (named_parameters self))) as Hold_found.
  { apply Forall_map. apply Forall_lookup_2. intros i kp Hkp. simpl.
    destruct (snapshot_lookup self n0 i kp Hkp) as [_ Hd].
    split; [eexists; exact Hd|]. rewrite Hf.
    destruct (Forall2_lookup_l _ _ _ _ _ Hts Hkp) as (t & _ & Ht).
    eapply lookup_lt_Some. exact Ht. }
  assert (Forall (fun kp => dict_lookup sd (fst kp) = None) (layers_named n 0 new_head))
    as Hnew_absent.
  { apply Forall_forall. intros kp Hin. apply dict_lookup_None.
    unfold sd. rewrite snapshot_keys. intros Hk.
    apply list_elem_of_fmap in Hk as (kp' & Heq & Hin').
    apply heads_named_key in Hin'. apply layers_named_key in Hin as (j' & nm & Hkp & _).
    rewrite <- Heq, Hkp in Hin'. simpl in Hin'. unfold n in Hin'. lia. }
  assert (Forall (fun kp => is_Some (heap w3 !! storage (snd kp))) (layers_named n 0 new_head))
    as Hnew_live.
  { pose proof (layers_ok_allocated _ _ n 0 _ Hnew_ok) as Hl.
    eapply Forall_impl; [exact Hl|]. intros kp [t Ht]. simpl in Ht.
    destruct (Hshape _ _ Ht) as (t2 & Ht2 & _). exists t2. exact Ht2. }
  (* the loop *)
  destruct (load_params_total sd
              (map (fun kp => (fst kp, f (snd kp))) (named_parameters self)
               ++ layers_named n 0 new_head) w3) as (errs & w4 & Hload & _ & Hframe).
  { apply Forall_app. split.
    - eapply Forall_impl; [exact Hold_found|]. intros kp [Hfound Hlt]. split.
      + apply Hlive. apply lookup_lt_is_Some. unfold w1. cbn [heap].
        rewrite length_app. unfold n0 in Hlt. lia.
      + intros s Hs. apply Hlive. eapply Hsrc. exact Hs.
    - apply Forall_forall. intros kp Hin. split.
      + rewrite Forall_forall in Hnew_live. apply Hnew_live. exact Hin.
      + rewrite Forall_forall in Hnew_absent. intros s Hs.
        rewrite (Hnew_absent kp Hin) in Hs. discriminate. }
  assert (missing_keys
            (map (fun kp => (fst kp, f (snd kp))) (named_parameters self)
             ++ layers_named n 0 new_head) sd
          = map fst (layers_named n 0 new_head)) as Hmissing.
  { rewrite missing_keys_app, missing_keys_found, missing_keys_absent.
    - reflexivity.
    - exact Hnew_absent.
    - eapply Forall_impl; [exact Hold_found|]. intros kp [H _]. exact H. }
  assert (map fst (layers_named n 0 new_head) <> []) as Hne.
  { destruct Hfresh as (_ & _ & -> & _). destruct (with_norm self); discriminate. }
  exists w4, sd, new_head.
  rewrite Hparams, Hmissing.
  split; [|split; [reflexivity|split; [reflexivity|split; [reflexivity|split; [exact Hne|split]]]]].
  - unfold SimpleContinualLinear_recall. cbn [old_state_dict].
    unfold load_state_dict. rewrite Hparams.
    rewrite (bind_step _ _ _ _ _ Hload). cbn [fst snd]. rewrite Hmissing.
    destruct (map fst (layers_named n 0 new_head)); [contradiction | reflexivity].
  - apply unexpected_keys_nil. unfold sd. rewrite snapshot_keys.
    apply Forall_forall. intros k Hk. rewrite map_app. apply elem_of_app. left.
    rewrite map_map. simpl. exact Hk.
  - apply Forall_forall. intros kp Hin. apply Hframe.
    rewrite Forall_forall in Hnew_fresh. destruct (Hnew_fresh kp Hin) as [_ Hge].
    unfold w1 in Hge. cbn [heap] in Hge. rewrite length_app in Hge.
    apply Forall_app. split.
    + eapply Forall_impl; [exact Hold_found|]. intros kp' [_ Hlt]. right.
      unfold n0 in Hlt. lia.
    + eapply Forall_impl; [exact Hnew_absent|]. intros kp' H. left. exact H.
Qed.

Lemma one_head_backed_up_update_returns :
  exists (self2 : SimpleContinualLinear) (w2 : @World constant_generator),
    SimpleContinualLinear_update 0 one_head_backed_up 1 true one_head_backup_world
    = Some (Ok self2, w2).
Proof.
  apply SimpleContinualLinear_update_returns.
  - simpl. unfold int64_max. lia.
  - unfold int64_max. lia.
  - simpl. unfold int64_max. lia.
  - exact constant_draws_in_range.
Qed.



Section CopyBack.
Context `{G : Generator}.

Lemma load_params_app_found (sd : list (key * loc)) (a b : list (key * Param))
    (w w' : World) :
  load_params a sd w = Some (Ok ([], O), w') ->
  load_params (a ++ b) sd w = load_params b sd w'.
Proof.
  revert w. induction a as [|kp a IH]; intros w H.
  - simpl in H. injection H as <-. reflexivity.
  - simpl in H |- *. destruct (dict_lookup sd (fst kp)) as [s|].
    + apply bind_Ok in H as (ti & w1 & Hr1 & H). rewrite (bind_step _ _ _ _ _ Hr1).
      apply bind_Ok in H as (tp & w2 & Hr2 & H). rewrite (bind_step _ _ _ _ _ Hr2).
      destruct (decide (shape ti = shape tp)).
      * apply bind_Ok in H as (u & w3 & Hw & H). rewrite (bind_step _ _ _ _ _ Hw).
        apply IH. exact H.
      * apply bind_Ok in H as (r & w3 & _ & H). discriminate.
    + apply bind_Ok in H as (r & w3 & _ & H). discriminate.
Qed.

Lemma load_params_absent (sd : list (key * loc)) (b : list (key * Param)) (w : World) :
  Forall (fun kp => dict_lookup sd (fst kp) = None) b ->
  load_params b sd w = Some (Ok (map fst b, O), w).
Proof.
  induction 1 as [|kp b Hkp _ IH]; simpl; [reflexivity|].
  rewrite Hkp, (bind_step _ _ _ _ _ IH). reflexivity.
Qed.

Lemma set_all__keeps (steps : list (loc * list R)) (w w2 : World) (u : unit) (l : loc) :
  set_all_ steps w = Some (Ok u, w2) ->
  Forall (fun lv => fst lv <> l) steps ->
  heap w2 !! l = heap w !! l.
Proof.
  revert w. induction steps as [|lv steps IH]; intros w H Hall; simpl in H.
  - injection H as _ <-. reflexivity.
  - apply Forall_cons in Hall as [Hlv Hall].
    apply bind_Ok in H as (u1 & w1 & Hset & H).
    apply set_data__Ok in Hset as (t0 & Ht0 & Hh1).
    rewrite (IH w1 H Hall), Hh1.
    apply list_lookup_insert_ne. exact Hlv.
Qed.

(** The failed [recall] has copied the saved values back into the
    parameters of the heads that were there at the backup, whatever was
    written since to tensors other than the saved copies. *)
Lemma recall_after_update_restores
    (fuel : nat) (self self1 self2 : SimpleContinualLinear) (nb_classes : Z)
    (freeze_old : bool) (steps : list (loc * list R)) (w0 w1 w2 w3 : World) :
  params_allocated self w0 ->
  SimpleContinualLinear_backup self w0 = Some (Ok self1, w1) ->
  SimpleContinualLinear_update fuel self1 nb_classes freeze_old w1 = Some (Ok self2, w2) ->
  Forall (fun lv => (fst lv < length (heap w0))%nat \/
                    (length (heap w1) <= fst lv)%nat) steps ->
  set_all_ steps w2 = Some (Ok tt, w3) ->
  exists w4,
    SimpleContinualLinear_recall self2 w3 = Some (Raise RuntimeError, w4) /\
    Forall (fun kp => heap w4 !! storage (snd kp) = heap w0 !! storage (snd kp))
           (named_parameters self).
Proof.
  intros Halloc Hbackup Hupdate Hlow Hsteps.
  destruct (SimpleContinualLinear_backup_Ok self w0 Halloc) as (ts & Hts & Hb).
  rewrite Hb in Hbackup. injection Hbackup as <- <-.
  apply SimpleContinualLinear_update_inv in Hupdate as (new_head & Hfresh & ->).
  cbn [heads embed_dim with_norm feat_expand old_state_dict] in *.
  set (n0 := length (heap w0)) in *.
  set (sd := imap (fun i kl => (fst kl, (n0 + i)%nat)) (state_dict self)) in *.
  set (old_heads := if freeze_old then map (map freeze_layer) (heads self) else heads self).
  set (n := length (heads self)).
  pose proof (set_all__shapes steps w2 w3 tt Hsteps) as Hshape.
  assert (length old_heads = n) as Hlen_old.
  { unfold old_heads, n. destruct freeze_old; [apply length_map | reflexivity]. }
  assert (exists f, (forall p, storage (f p) = storage p) /\
            heads_named 0 old_heads =
            map (fun kp => (fst kp, f (snd kp))) (named_parameters self)) as (f & Hf & Hold).
  { unfold old_heads, named_parameters. destruct freeze_old.
    - exists freeze_param. split; [reflexivity | apply heads_named_freeze].
    - exists (fun p => p). split; [reflexivity|].
      rewrite <- (map_id (heads_named 0 (heads self))) at 1.
      apply map_ext. intros [k p]. reflexivity. }
  assert (named_parameters
            (mkSimpleContinualLinear (embed_dim self) (feat_expand self) (with_norm self)
               (old_heads ++ [new_head]) (Some sd))
          = map (fun kp => (fst kp, f (snd kp))) (named_parameters self)
            ++ layers_named n 0 new_head) as Hparams.
  { unfold named_parameters at 1. cbn [heads].
    rewrite heads_named_app, Hold, Hlen_old. simpl. rewrite app_nil_r. reflexivity. }
  assert (Forall (fun kp => dict_lookup sd (fst kp) = None) (layers_named n 0 new_head))
    as Hnew_absent.
  { apply Forall_forall. intros kp Hin. apply dict_lookup_None.
    unfold sd. rewrite snapshot_keys. intros Hk.
    apply list_elem_of_fmap in Hk as (kp' & Heq & Hin').
    apply heads_named_key in Hin'. apply layers_named_key in Hin as (j' & nm & Hkp & _).
    rewrite <- Heq, Hkp in Hin'. simpl in Hin'. unfold n in Hin'. lia. }
  destruct (load_params_restores (heap w0) n0 sd
              (map (fun kp => (fst kp, f (snd kp))) (named_parameters self)) w3)
    as (w4 & Hload & _ & _ & Hrest).
  { apply Forall_map. apply Forall_lookup_2. intros i kp Hkp. simpl.
    destruct (Forall2_lookup_l _ _ _ _ _ Hts Hkp) as (t & Hti & Ht).
    destruct (snapshot_lookup self n0 i kp Hkp) as [_ Hd].
    assert (heap w2 !! storage (snd kp) = Some t) as Hw2.
    { eapply fresh_head_keeps; [exact Hfresh|]. cbn [heap].
      apply lookup_app_l_Some. exact Ht. }
    destruct (Hshape _ _ Hw2) as (t' & Ht' & Hs').
    exists (n0 + i)%nat, t, t'. rewrite Hf.
    split; [exact Hd|]. split; [lia|]. split; [|split; [exact Ht|split; [|split; assumption]]].
    - rewrite (set_all__keeps steps w2 w3 tt (n0 + i)%nat Hsteps); cycle 1.
      { eapply Forall_impl; [exact Hlow|]. intros lv Hlv. cbn beta in Hlv.
        cbn [heap] in Hlv. rewrite length_app in Hlv.
        apply lookup_lt_Some in Hti. fold n0 in Hlv. lia. }
      eapply fresh_head_keeps; [exact Hfresh|]. cbn [heap].
      rewrite lookup_app_r by (unfold n0; lia).
      replace (n0 + i - length (heap w0))%nat with i by (unfold n0; lia). exact Hti.
    - eapply lookup_lt_Some. exact Ht. }
  exists w4. split.
  - unfold SimpleContinualLinear_recall. cbn [old_state_dict].
    unfold load_state_dict. rewrite Hparams.
    unfold bind at 1.
    rewrite (load_params_app_found _ _ _ _ _ Hload).
    rewrite (load_params_absent sd _ w4 Hnew_absent).
    cbn [fst snd].
    destruct Hfresh as (_ & _ & -> & _). destruct (with_norm self); reflexivity.
  - apply Forall_map in Hrest. eapply Forall_impl; [exact Hrest|].
    intros kp Hkp. simpl in Hkp. rewrite Hf in Hkp. exact Hkp.
Qed.


(** The failed [recall] has copied the saved values back into the
    parameters of the heads that were there at the backup. *)
Lemma recall_after_update_copies_back
    (fuel : nat) (self self1 self2 : SimpleContinualLinear) (nb_classes : Z)
    (freeze_old : bool) (steps : list (loc * list R)) (w0 w1 w2 w3 : World) :
  params_allocated self w0 ->
  SimpleContinualLinear_backup self w0 = Some (Ok self1, w1) ->
  SimpleContinualLinear_update fuel self1 nb_classes freeze_old w1 = Some (Ok self2, w2) ->
  Forall (fun lv => (fst lv < length (heap w0))%nat) steps ->
  set_all_ steps w2 = Some (Ok tt, w3) ->
  exists w4,
    SimpleContinualLinear_recall self2 w3 = Some (Raise RuntimeError, w4) /\
    Forall (fun kp => heap w4 !! storage (snd kp) = heap w0 !! storage (snd kp))
           (named_parameters self).
Proof.
  intros Halloc Hbackup Hupdate Hlow Hsteps.
  apply (recall_after_update_restores fuel self self1 self2 nb_classes freeze_old steps
           w0 w1 w2 w3 Halloc Hbackup Hupdate); [|exact Hsteps].
  eapply Forall_impl; [exact Hlow|]. intros lv Hlv. left. exact Hlv.
Qed.

End CopyBack.

(** C8 (amended): when [update()] has been called since the last
    [backup()], [recall()] raises a [RuntimeError]: the saved dict has no
    entry for the parameters of the appended head, and the strict load
    rejects the missing keys.  It raises only after it has copied every
    saved entry back: the parameters of the heads that were there at the
    backup hold their saved values again, whatever was written to them
    since, and the parameters of the appended head are left as they are. *)
Theorem recall_after_update_raises `{G : Generator}
    (fuel : nat) (self self1 self2 : SimpleContinualLinear) (nb_classes : Z)
    (freeze_old : bool) (steps : list (loc * list R)) (w0 w1 w2 w3 : World) :
  params_allocated self w0 ->
  SimpleContinualLinear_backup self w0 = Some (Ok self1, w1) ->
  SimpleContinualLinear_update fuel self1 nb_classes freeze_old w1 = Some (Ok self2, w2) ->
  Forall (fun lv => (fst lv < length (heap w0))%nat \/
                    (length (heap w1) <= fst lv)%nat) steps ->
  set_all_ steps w2 = Some (Ok tt, w3) ->
  exists w4 sd new_head,
    SimpleContinualLinear_recall self2 w3 = Some (Raise RuntimeError, w4) /\
    old_state_dict self2 = Some sd /\
    heads self2 =
      (if freeze_old then map (map freeze_layer) (heads self) else heads self)
      ++ [new_head] /\
    missing_keys (named_parameters self2) sd =
      map fst (layers_named (length (heads self)) 0 new_head) /\
    missing_keys (named_parameters self2) sd <> [] /\
    unexpected_keys (named_parameters self2) sd = [] /\
    Forall (fun kp => heap w4 !! storage (snd kp) = heap w3 !! storage (snd kp))
           (layers_named (length (heads self)) 0 new_head) /\
    Forall (fun kp => heap w4 !! storage (snd kp) = heap w0 !! storage (snd kp))
           (named_parameters self).
Proof.
  intros Halloc Hbackup Hupdate Hfree Hsteps.
  destruct (recall_after_update_missing_keys fuel self self1 self2 nb_classes freeze_old
              steps w0 w1 w2 w3 Halloc Hbackup Hupdate Hsteps)
    as (w4 & sd & new_head & Hrecall & Hsd & Hheads & Hmiss & Hne & Hunexp & Hnew).
  destruct (recall_after_update_restores fuel self self1 self2 nb_classes freeze_old
              steps w0 w1 w2 w3 Halloc Hbackup Hupdate Hfree Hsteps)
    as (w4' & Hrecall' & Hrest).
  assert (w4' = w4) as -> by congruence.
  exists w4, sd, new_head. repeat (split; [assumption|]). exact Hrest.
Qed.

(** The module of one head after [backup()], [update(1)] and a training
    step that has set the old weight to [5]. *)
Lemma one_head_trained_after_update :
  exists (self2 : SimpleContinualLinear) (w2 w3 : @World constant_generator),
    SimpleContinualLinear_update 0 one_head_backed_up 1 true one_head_backup_world
    = Some (Ok self2, w2) /\
    set_all_ [(O, [5%R])] w2 = Some (Ok tt, w3) /\
    heap w3 !! O = Some (mkTensor [1; 1] [5%R]) /\
    (exists p, named_parameters self2 = ((O, O, weight_name), mkParam O false) :: p).
Proof.
  destruct one_head_backed_up_update_returns as (self2 & w2 & Hup).
  pose proof Hup as Hinv.
  apply SimpleContinualLinear_update_inv in Hinv as (new_head & Hfresh & ->).
  assert (heap w2 !! O = Some (mkTensor [1; 1] [0%R])) as H0.
  { eapply fresh_head_keeps; [exact Hfresh | reflexivity]. }
  eexists _, w2, (mkWorld _ (<[O := mkTensor [1; 1] [5%R]]> (heap w2)) (gen w2)).
  split; [exact Hup|]. split; [|split].
  - assert (set_data_ O [5%R] w2
            = Some (Ok tt, mkWorld _ (<[O := mkTensor [1; 1] [5%R]]> (heap w2)) (gen w2)))
      as Hset.
    { unfold set_data_. rewrite (bind_step _ _ _ _ _ (read_at O w2 _ H0)).
      cbn [data length Nat.eqb]. rewrite (write_data_at O _ w2 _ H0). reflexivity. }
    cbn [set_all_ fst snd]. rewrite (bind_step _ _ _ _ _ Hset). reflexivity.
  - cbn [heap]. apply list_lookup_insert_eq. eapply lookup_lt_Some. exact H0.
  - eexists. reflexivity.
Qed.

Lemma recall_after_update_raises_witness :
  exists (self2 : SimpleContinualLinear) (w2 w3 w4 : @World constant_generator),
    SimpleContinualLinear_update 0 one_head_backed_up 1 true one_head_backup_world
    = Some (Ok self2, w2) /\
    set_all_ [(O, [5%R])] w2 = Some (Ok tt, w3) /\
    heap w3 !! O = Some (mkTensor [1; 1] [5%R]) /\
    SimpleContinualLinear_recall self2 w3 = Some (Raise RuntimeError, w4) /\
    Forall (fun kp => heap w4 !! storage (snd kp) = heap one_head_world !! storage (snd kp))
           (named_parameters one_head_module).
Proof.
  destruct one_head_trained_after_update as (self2 & w2 & w3 & Hup & Hset & H5 & _).
  destruct (recall_after_update_raises 0 one_head_module one_head_backed_up self2 1 true
              [(O, [5%R])] one_head_world one_head_backup_world w2 w3
              one_head_allocated one_head_backup Hup)
    as (w4 & sd & new_head & Hrecall & _ & _ & _ & _ & _ & _ & Hrest).
  - constructor; [left; simpl; lia | constructor].
  - exact Hset.
  - exists self2, w2, w3, w4.
    split; [exact Hup|]. split; [exact Hset|]. split; [exact H5|].
    split; [exact Hrecall | exact Hrest].
Defined.

(** C8, as stated, fails: after [backup()] with a zero weight,
    [update(1)] and a training step that sets the old weight to [5],
    [recall()] raises, and yet the old weight is [0] again, the value it
    had before the update. *)
Lemma recall_after_update_restores_counterexample :
  exists (self2 : SimpleContinualLinear) (w2 w3 w4 : @World constant_generator),
    SimpleContinualLinear_update 0 one_head_backed_up 1 true one_head_backup_world
    = Some (Ok self2, w2) /\
    set_all_ [(O, [5%R])] w2 = Some (Ok tt, w3) /\
    heap w3 !! O = Some (mkTensor [1; 1] [5%R]) /\
    SimpleContinualLinear_recall self2 w3 = Some (Raise RuntimeError, w4) /\
    heap w4 !! O = Some (mkTensor [1; 1] [0%R]) /\
    ~ recall_raises_without_restoring self2 w3.
Proof.
  destruct one_head_trained_after_update as (self2 & w2 & w3 & Hup & Hset & H5 & p & Hp).
  destruct (@recall_after_update_restores constant_generator 0 one_head_module
              one_head_backed_up self2 1 true [(O, [5%R])] one_head_world
              one_head_backup_world w2 w3 one_head_allocated one_head_backup Hup)
    as (w4 & Hrecall & Hrest).
  - constructor; [left; simpl; lia | constructor].
  - exact Hset.
  - assert (heap w4 !! O = Some (mkTensor [1; 1] [0%R])) as H0.
    { apply Forall_cons in Hrest as [H _]. exact H. }
    exists self2, w2, w3, w4.
    split; [exact Hup|]. split; [exact Hset|]. split; [exact H5|].
    split; [exact Hrecall|]. split; [exact H0|].
    intros (e & w' & Hraise & Hsame).
    rewrite Hrecall in Hraise. injection Hraise as _ <-.
    rewrite Hp in Hsame. apply Forall_cons in Hsame as [Hsame _].
    cbn [snd storage] in Hsame. rewrite H0, H5 in Hsame.
    injection Hsame as Hsame. lra.
Qed.

(** * Construction of the cosine classifiers *)

(** ** The constructors of the cosine heads set up the invariants *)

Section CosineInit.
Context `{G : Generator}.

Lemma CosineLinear_init_ok (in_features out_features nb_proxy : Z)
    (to_reduce sigma : bool) (g g' : Gen) (self : CosineLinear) :
  CosineLinear_init in_features out_features nb_proxy to_reduce sigma g = Ok (self, g') ->
  CosineLinear_ok self /\
  cl_in_features self = in_features /\
  cl_out_features self = out_features * nb_proxy /\
  cl_nb_proxy self = nb_proxy /\
  cl_to_reduce self = to_reduce /\
  cl_sigma self = (if sigma then Some 1%R else None).
Proof.
  unfold CosineLinear_init.
  destruct (torch_Tensor [out_features * nb_proxy; in_features]) as [t|e] eqn:Ht;
    [|discriminate].
  apply torch_Tensor_Ok in Ht as (Hs & Hd & _ & Hdata).
  cbn [rbind]. unfold shape_at. rewrite Hs. cbn [lookup list_lookup rbind].
  destruct (in_features =? 0); [discriminate|].
  pose proof (uniform_length (- (1 / sqrt (IZR in_features)))
                (1 / sqrt (IZR in_features)) (length (data t)) g) as Hlen.
  destruct (uniform_ _ _ _ g) as [vals g1]. simpl in Hlen.
  intros H. injection H as <- <-. cbn.
  repeat split; try reflexivity.
  - exact Hd.
  - cbn [data shape cl_weight]. rewrite Hlen, Hdata, repeat_length.
    apply Forall_cons in Hd as [Ho Hd]. apply Forall_cons in Hd as [Hi _].
    rewrite !numel_2. rewrite Z2Nat.id by nia. reflexivity.
Qed.

Lemma SplitCosineLinear_init_ok (in_features out_features1 out_features2 nb_proxy : Z)
    (sigma : bool) (g g' : Gen) (self : SplitCosineLinear) :
  SplitCosineLinear_init in_features out_features1 out_features2 nb_proxy sigma g
  = Ok (self, g') ->
  SplitCosineLinear_ok self /\
  sc_nb_proxy self = nb_proxy /\
  cl_out_features (sc_fc1 self) = out_features1 * nb_proxy /\
  cl_out_features (sc_fc2 self) = out_features2 * nb_proxy /\
  sc_sigma self = (if sigma then Some 1%R else None).
Proof.
  unfold SplitCosineLinear_init.
  destruct (CosineLinear_init in_features out_features1 nb_proxy false false g)
    as [[fc1 g1]|e] eqn:H1; [|discriminate].
  cbn [rbind fst snd].
  destruct (CosineLinear_init in_features out_features2 nb_proxy false false g1)
    as [[fc2 g2]|e] eqn:H2; [|discriminate].
  cbn [rbind fst snd]. intros H. injection H as <- <-.
  apply CosineLinear_init_ok in H1 as (Hok1 & Hi1 & Ho1 & _ & Hr1 & Hs1).
  apply CosineLinear_init_ok in H2 as (Hok2 & Hi2 & Ho2 & _ & Hr2 & Hs2).
  unfold SplitCosineLinear_ok. cbn.
  split; [|repeat split; assumption].
  split; [exact Hok1|]. split; [exact Hok2|]. repeat split; assumption.
Qed.

End CosineInit.

(** * Bounds of the reduced scores *)

(** ** The reduced score is a weighted mean of the proxies *)

Lemma exp_sum_pos (s : nat -> R) (l : list nat) :
  l <> [] -> (0 < Rsum (map (fun k => exp (s k)) l))%R.
Proof.
  induction l as [|a l IH]; [congruence|]. intros _. simpl.
  pose proof (exp_pos (s a)) as Ha.
  destruct l as [|a' l]; [simpl; lra|].
  assert (0 < Rsum (map (fun k => exp (s k)) (a' :: l)))%R by (apply IH; congruence).
  lra.
Qed.

Lemma weighted_sum_bounds (s : nat -> R) (l : list nat) (z lo hi : R) :
  (0 < z)%R -> (forall j, In j l -> (lo <= s j <= hi)%R) ->
  (lo * (Rsum (map (fun k => exp (s k)) l) / z)
   <= Rsum (map (fun j => exp (s j) / z * s j) l)
   <= hi * (Rsum (map (fun k => exp (s k)) l) / z))%R.
Proof.
  intros Hz. induction l as [|a l IH]; intros Hb; simpl.
  - unfold Rdiv. rewrite Rmult_0_l, !Rmult_0_r. lra.
  - destruct IH as [IH1 IH2]; [intros j Hj; apply Hb; right; exact Hj|].
    destruct (Hb a (or_introl eq_refl)) as [Ha1 Ha2].
    assert (0 < exp (s a) / z)%R as Hq
      by (apply Rdiv_lt_0_compat; [apply exp_pos | exact Hz]).
    replace ((exp (s a) + Rsum (map (fun k => exp (s k)) l)) / z)%R
      with (exp (s a) / z + Rsum (map (fun k => exp (s k)) l) / z)%R
      by (unfold Rdiv; ring).
    split; nra.
Qed.

Lemma proxy_score_between (s : nat -> R) (nb : nat) (lo hi : R) :
  (0 < nb)%nat -> (forall j, (j < nb)%nat -> (lo <= s j <= hi)%R) ->
  (lo <= proxy_score s nb <= hi)%R.
Proof.
  intros Hnb Hb. unfold proxy_score.
  set (z := Rsum (map (fun k => exp (s k)) (seq 0 nb))).
  assert (0 < z)%R as Hz.
  { apply exp_sum_pos. destruct nb; [lia | discriminate]. }
  destruct (weighted_sum_bounds s (seq 0 nb) z lo hi Hz) as [H1 H2].
  { intros j Hj. apply in_seq in Hj. apply Hb. lia. }
  fold z in H1, H2.
  replace (z / z)%R with 1%R in H1, H2 by (field; lra).
  lra.
Qed.

Lemma proxy_score_ext (s s' : nat -> R) (nb : nat) :
  (forall j, (j < nb)%nat -> s j = s' j) -> proxy_score s nb = proxy_score s' nb.
Proof.
  intros H. unfold proxy_score.
  assert (Rsum (map (fun k => exp (s k)) (seq 0 nb)) =
          Rsum (map (fun k => exp (s' k)) (seq 0 nb))) as ->.
  { apply Rsum_map_ext. intros j Hj. apply in_seq in Hj. rewrite H by lia. reflexivity. }
  apply Rsum_map_ext. intros j Hj. apply in_seq in Hj. rewrite H by lia. reflexivity.
Qed.

(** In exact arithmetic, every entry of the result of [reduce_proxies]
    lies between the least and the greatest of the proxy similarities of
    its class: if the [nb_proxy] similarities of class [c] in row [i] are
    all within [[lo, hi]], so is the reduced score.  (Floating-point
    rounding of the softmax weights can leave the interval by an ulp.) *)
Theorem reduce_proxies_between (out : Tensor) (nb_proxy bs C : Z) :
  1 < nb_proxy <= int64_max -> 0 <= C < 2 ^ 53 ->
  wf_tensor out -> shape out = [bs; C * nb_proxy] ->
  exists r,
    reduce_proxies out nb_proxy = Ok r /\
    forall (i c : nat) (lo hi : R), Z.of_nat i < bs -> Z.of_nat c < C ->
      (forall j : nat, (j < Z.to_nat nb_proxy)%nat ->
         (lo <= entry2 out i (c * Z.to_nat nb_proxy + j) <= hi)%R) ->
      (lo <= entry2 r i c <= hi)%R.
Proof.
  intros Hnb HC Hwf Hshape.
  destruct (reduce_proxies_reduces out nb_proxy bs C Hnb HC Hwf Hshape) as (r & Hr & _ & He).
  exists r. split; [exact Hr|].
  intros i c lo hi Hi Hc Hb. rewrite (He i c Hi Hc).
  apply proxy_score_between; [lia | exact Hb].
Qed.

Lemma reduce_proxies_between_witness :
  exists r, reduce_proxies proxy_pair 2 = Ok r /\ (1 <= entry2 r 0 0 <= 3)%R.
Proof.
  destruct (reduce_proxies_between proxy_pair 2 1 1) as (r & Hr & Hb).
  - unfold int64_max. lia.
  - lia.
  - exact wf_proxy_pair.
  - reflexivity.
  - exists r. split; [exact Hr|].
    apply (Hb 0%nat 0%nat 1%R 3%R); [lia | lia |].
    intros j Hj. unfold entry2.
    destruct j as [|[|j]]; [simpl; lra | simpl; lra | simpl in Hj; lia].
Defined.

(** ** Reduced cosine scores *)

Lemma cosine_matrix_bounded (x w : Tensor) (bs o k : Z) (i j : nat) :
  shape x = [bs; k] -> shape w = [o; k] ->
  (i < Z.to_nat bs)%nat -> (j < Z.to_nat o)%nat ->
  (-1 <= entry2 (cosine_matrix x w) i j <= 1)%R.
Proof.
  intros Hx Hw Hi Hj.
  rewrite (cosine_matrix_entry x w bs o k i j Hx Hw Hi Hj). apply cosine_bounded.
Qed.

(** With [to_reduce=True] the logits of [CosineLinear.forward],
    before the scaling by [sigma], still lie in [[-1, 1]]: the proxy
    reduction of cosines is a weighted mean of cosines. *)
Theorem CosineLinear_reduced_bounded (self : CosineLinear) (input : Tensor) (bs C : Z) :
  CosineLinear_ok self -> cl_to_reduce self = true ->
  1 <= cl_nb_proxy self <= int64_max ->
  cl_out_features self = C * cl_nb_proxy self -> C < 2 ^ 53 ->
  wf_tensor input -> shape input = [bs; cl_in_features self] ->
  exists r,
    CosineLinear_forward self input
      = Ok [("logits"%string, apply_sigma (cl_sigma self) r)] /\
    shape r = [bs; C] /\
    forall i c : nat, Z.of_nat i < bs -> Z.of_nat c < C ->
      (-1 <= entry2 r i c <= 1)%R.
Proof.
  intros Hok Hred Hnb Hout HC Hwi Hi.
  rewrite (CosineLinear_forward_unfold self input bs Hok Hwi Hi), Hred.
  destruct Hok as [Hww Hw].
  set (sim := cosine_matrix input (cl_weight self)).
  assert (shape sim = [bs; cl_out_features self]) as Hs
    by (apply (cosine_matrix_shape input _ bs _ (cl_in_features self)); assumption).
  assert (wf_tensor sim) as Hwsim
    by (apply (cosine_matrix_wf input _ bs (cl_out_features self) (cl_in_features self));
        assumption).
  destruct (wf_matrix_length sim bs _ Hwsim Hs) as (Hbs & Ho & _).
  assert (0 <= C) as HC0 by nia.
  assert (forall i j : nat, Z.of_nat i < bs -> Z.of_nat j < cl_out_features self ->
            (-1 <= entry2 sim i j <= 1)%R) as Hbound.
  { intros i j Hi' Hj'.
    apply (cosine_matrix_bounded input _ bs (cl_out_features self) (cl_in_features self));
      try assumption; lia. }
  destruct (Z.eq_dec (cl_nb_proxy self) 1) as [H1|H1].
  - rewrite H1 in *. exists sim. cbn [rbind reduce_proxies Z.eqb Pos.eqb].
    split; [reflexivity|]. split; [rewrite Hs; f_equal; f_equal; lia|].
    intros i c Hi' Hc'. apply Hbound; lia.
  - destruct (reduce_proxies_reduces sim (cl_nb_proxy self) bs C) as (r & Hr & Hsr & He);
      try lia; try assumption.
    { rewrite Hs, Hout. reflexivity. }
    exists r. rewrite Hr. cbn [rbind]. split; [reflexivity|]. split; [exact Hsr|].
    intros i c Hi' Hc'. rewrite (He i c Hi' Hc').
    apply proxy_score_between; [lia|].
    intros j Hj. apply Hbound; [exact Hi'|].
    rewrite Hout. rewrite Nat2Z.inj_add, Nat2Z.inj_mul, Z2Nat.id by lia.
    assert (Z.of_nat j < cl_nb_proxy self) by lia. nia.
Qed.

Lemma wf_two_proxy_weight : wf_tensor two_proxy_weight.
Proof. split; [repeat constructor; unfold int64_max; lia | reflexivity]. Qed.

Lemma CosineLinear_reduced_bounded_witness :
  exists r,
    CosineLinear_forward reducing_cosine_head unit_matrix
      = Ok [("logits"%string, apply_sigma (Some 2%R) r)] /\
    shape r = [1; 1] /\
    forall i c : nat, Z.of_nat i < 1 -> Z.of_nat c < 1 ->
      (-1 <= entry2 r i c <= 1)%R.
Proof.
  apply (CosineLinear_reduced_bounded reducing_cosine_head unit_matrix 1 1).
  - split; [exact wf_two_proxy_weight | reflexivity].
  - reflexivity.
  - simpl. unfold int64_max. lia.
  - reflexivity.
  - lia.
  - exact wf_unit_matrix.
  - reflexivity.
Defined.

(** * Score blocks and rejected inputs of the cosine heads *)

(** ** The logits of the split head are its two score blocks *)

Lemma SplitCosineLinear_forward_blocks_aux
    (self : SplitCosineLinear) (x : Tensor) (bs : Z) :
  SplitCosineLinear_ok self -> wf_tensor x -> shape x = [bs; sc_in_features self] ->
  let old := cosine_matrix x (cl_weight (sc_fc1 self)) in
  let new := cosine_matrix x (cl_weight (sc_fc2 self)) in
  let o1 := cl_out_features (sc_fc1 self) in
  let o2 := cl_out_features (sc_fc2 self) in
  SplitCosineLinear_forward self x =
  (out <- reduce_proxies (hcat old new) (sc_nb_proxy self);;
   old_scores <- reduce_proxies old (sc_nb_proxy self);;
   new_scores <- reduce_proxies new (sc_nb_proxy self);;
   Ok [("old_scores"%string, old_scores); ("new_scores"%string, new_scores);
       ("logits"%string, apply_sigma (sc_sigma self) out)]) /\
  shape old = [bs; o1] /\ shape new = [bs; o2] /\ wf_tensor old /\ wf_tensor new /\
  (forall i j : nat, Z.of_nat i < bs -> Z.of_nat j < o1 + o2 ->
     entry2 (hcat old new) i j =
     if (j <? Z.to_nat o1)%nat then entry2 old i j else entry2 new i (j - Z.to_nat o1)).
Proof.
  intros (Hok1 & Hok2 & Hin1 & Hin2 & Hr1 & Hr2 & Hs1 & Hs2) Hwx Hx old new o1 o2.
  assert (shape x = [bs; cl_in_features (sc_fc1 self)]) as Hx1 by (rewrite Hin1; exact Hx).
  assert (shape x = [bs; cl_in_features (sc_fc2 self)]) as Hx2 by (rewrite Hin2; exact Hx).
  pose proof (CosineLinear_forward_unfold _ x bs Hok1 Hwx Hx1) as Hf1.
  pose proof (CosineLinear_forward_unfold _ x bs Hok2 Hwx Hx2) as Hf2.
  rewrite Hr1, Hs1 in Hf1. rewrite Hr2, Hs2 in Hf2. simpl in Hf1, Hf2.
  fold old in Hf1. fold new in Hf2.
  destruct Hok1 as [Hww1 Hw1]. destruct Hok2 as [Hww2 Hw2].
  assert (shape old = [bs; o1]) as Hso
    by (apply (cosine_matrix_shape x _ bs o1 (cl_in_features (sc_fc1 self))); assumption).
  assert (shape new = [bs; o2]) as Hsn
    by (apply (cosine_matrix_shape x _ bs o2 (cl_in_features (sc_fc2 self))); assumption).
  assert (wf_tensor old) as Hwo
    by (apply (cosine_matrix_wf x _ bs o1 (cl_in_features (sc_fc1 self))); assumption).
  assert (wf_tensor new) as Hwn
    by (apply (cosine_matrix_wf x _ bs o2 (cl_in_features (sc_fc2 self))); assumption).
  split; [|split; [exact Hso|split; [exact Hsn|split; [exact Hwo|split; [exact Hwn|]]]]].
  - unfold SplitCosineLinear_forward. rewrite Hf1, Hf2. cbn [rbind].
    rewrite !getitem_logits. cbn [rbind].
    rewrite (torch_cat1_pair old new bs o1 o2 Hso Hsn). reflexivity.
  - intros i j Hi Hj.
    apply (hcat_entry old new bs o1 o2); try assumption; lia.
Qed.

(** In [SplitCosineLinear.forward] the logits, before the scaling by
    [sigma], are ['old_scores'] and ['new_scores'] side by side: column
    [j] is column [j] of the old scores for [j < c1] and column [j - c1]
    of the new scores otherwise.  Reducing the concatenation is the same
    as concatenating the reductions. *)
Theorem SplitCosineLinear_logits_blocks
    (self : SplitCosineLinear) (x : Tensor) (bs c1 c2 : Z) :
  SplitCosineLinear_ok self -> wf_tensor x -> shape x = [bs; sc_in_features self] ->
  1 <= sc_nb_proxy self <= int64_max ->
  cl_out_features (sc_fc1 self) = c1 * sc_nb_proxy self ->
  cl_out_features (sc_fc2 self) = c2 * sc_nb_proxy self ->
  c1 + c2 < 2 ^ 53 -> (c1 + c2) * sc_nb_proxy self <= int64_max ->
  exists old_scores new_scores out,
    SplitCosineLinear_forward self x =
      Ok [("old_scores"%string, old_scores); ("new_scores"%string, new_scores);
          ("logits"%string, apply_sigma (sc_sigma self) out)] /\
    shape old_scores = [bs; c1] /\ shape new_scores = [bs; c2] /\
    shape out = [bs; c1 + c2] /\
    forall i j : nat, Z.of_nat i < bs -> Z.of_nat j < c1 + c2 ->
      entry2 out i j =
      if (j <? Z.to_nat c1)%nat then entry2 old_scores i j
      else entry2 new_scores i (j - Z.to_nat c1).
Proof.
  intros Hok Hwx Hx Hnb Ho1 Ho2 Hc Hsum.
  destruct (SplitCosineLinear_forward_blocks_aux self x bs Hok Hwx Hx)
    as (Hfw & Hso & Hsn & Hwo & Hwn & Hent).
  set (old := cosine_matrix x (cl_weight (sc_fc1 self))) in *.
  set (new := cosine_matrix x (cl_weight (sc_fc2 self))) in *.
  set (nb := sc_nb_proxy self) in *.
  set (o1 := cl_out_features (sc_fc1 self)) in *.
  set (o2 := cl_out_features (sc_fc2 self)) in *.
  destruct (wf_matrix_length old bs o1 Hwo Hso) as (Hbs & Hp1 & _).
  destruct (wf_matrix_length new bs o2 Hwn Hsn) as (_ & Hp2 & _).
  assert (0 <= c1) as Hc1 by nia. assert (0 <= c2) as Hc2 by nia.
  rewrite Hfw.
  destruct (Z.eq_dec nb 1) as [H1|H1].
  - rewrite H1 in *. exists old, new, (hcat old new).
    cbn [rbind reduce_proxies Z.eqb Pos.eqb].
    assert (o1 = c1) as E1 by lia. assert (o2 = c2) as E2 by lia.
    split; [reflexivity|]. rewrite <- E1, <- E2.
    split; [exact Hso|]. split; [exact Hsn|].
    split; [apply hcat_shape; assumption|].
    intros i j Hi Hj. apply Hent; assumption.
  - destruct (reduce_proxies_reduces old nb bs c1) as (r1 & Hr1 & Hs1 & He1);
      try lia; try assumption.
    { rewrite Hso, Ho1. reflexivity. }
    destruct (reduce_proxies_reduces new nb bs c2) as (r2 & Hr2 & Hs2 & He2);
      try lia; try assumption.
    { rewrite Hsn, Ho2. reflexivity. }
    destruct (reduce_proxies_reduces (hcat old new) nb bs (c1 + c2)) as (r & Hr & Hs & He);
      try lia.
    { apply (hcat_wf old new bs o1 o2); try assumption. lia. }
    { rewrite (hcat_shape old new bs o1 o2 Hso Hsn). f_equal. f_equal. lia. }
    exists r1, r2, r. rewrite Hr, Hr1, Hr2. cbn [rbind].
    split; [reflexivity|]. split; [exact Hs1|]. split; [exact Hs2|]. split; [exact Hs|].
    intros i j Hi Hj. rewrite (He i j Hi Hj).
    assert (forall q : nat, (q < Z.to_nat nb)%nat ->
              Z.of_nat (j * Z.to_nat nb + q) < o1 + o2) as Hcol.
    { intros q Hq. rewrite Nat2Z.inj_add, Nat2Z.inj_mul, Z2Nat.id by lia.
      assert (Z.of_nat q < nb) by lia. nia. }
    destruct (Nat.ltb_spec j (Z.to_nat c1)) as [Hlt|Hge].
    + rewrite (He1 i j Hi ltac:(lia)). apply proxy_score_ext. intros q Hq.
      rewrite (Hent i _ Hi (Hcol q Hq)).
      destruct (Nat.ltb_spec (j * Z.to_nat nb + q) (Z.to_nat o1)) as [_|Hbad];
        [reflexivity|].
      exfalso. rewrite Ho1, Z2Nat.inj_mul in Hbad by lia. nia.
    + rewrite (He2 i (j - Z.to_nat c1)%nat Hi ltac:(lia)). apply proxy_score_ext.
      intros q Hq. rewrite (Hent i _ Hi (Hcol q Hq)).
      destruct (Nat.ltb_spec (j * Z.to_nat nb + q) (Z.to_nat o1)) as [Hbad|_].
      * exfalso. rewrite Ho1, Z2Nat.inj_mul in Hbad by lia. nia.
      * f_equal. rewrite Ho1, Z2Nat.inj_mul by lia. nia.
Qed.

Lemma SplitCosineLinear_logits_blocks_witness :
  exists old_scores new_scores out,
    SplitCosineLinear_forward split_head_2_proxies row_3_4 =
      Ok [("old_scores"%string, old_scores); ("new_scores"%string, new_scores);
          ("logits"%string, apply_sigma (Some 3%R) out)] /\
    shape old_scores = [1; 1] /\ shape new_scores = [1; 2] /\
    shape out = [1; 1 + 2] /\
    forall i j : nat, Z.of_nat i < 1 -> Z.of_nat j < 1 + 2 ->
      entry2 out i j =
      if (j <? Z.to_nat 1)%nat then entry2 old_scores i j
      else entry2 new_scores i (j - Z.to_nat 1).
Proof.
  apply (SplitCosineLinear_logits_blocks split_head_2_proxies row_3_4 1 1 2
           split_head_2_proxies_ok wf_row_3_4 eq_refl).
  - simpl. unfold int64_max. lia.
  - reflexivity.
  - reflexivity.
  - lia.
  - simpl. unfold int64_max. lia.
Defined.

(** ** Inputs that [reduce_proxies] and the cosine head reject *)

Lemma round_half_even_nonneg (n d : Z) : 0 <= n -> 0 < d -> 0 <= round_half_even n d.
Proof.
  intros Hn Hd. unfold round_half_even.
  assert (0 <= n / d) by (apply Z.div_pos; lia).
  repeat destruct (_ <? _); try lia. destruct (Z.even _); lia.
Qed.

Lemma int_true_divide_sign (a b : Z) (f : pyfloat) :
  0 <= a -> b < 0 -> int_true_divide a b = Ok f -> int_of_float f <= 0.
Proof.
  intros Ha Hb. unfold int_true_divide.
  destruct (Z.eqb_spec b 0) as [|_]; [lia|].
  destruct (Z.eqb_spec a 0) as [_|Hne].
  { intros H. injection H as <-. vm_compute. discriminate. }
  set (e := Z.max (-1074) (floor_log2_quot (Z.abs a) (Z.abs b) - 52)).
  set (m := round_half_even (Z.abs a * 2 ^ Z.max 0 (- e)) (Z.abs b * 2 ^ Z.max 0 e)).
  assert (0 <= m) as Hm.
  { apply round_half_even_nonneg.
    - apply Z.mul_nonneg_nonneg; [lia | apply Z.pow_nonneg; lia].
    - apply Z.mul_pos_pos; [lia | apply Z.pow_pos_nonneg; lia]. }
  destruct (_ <=? _); [discriminate|]. intros H. injection H as <-.
  assert (Z.sgn a * Z.sgn b = -1) as -> by (rewrite Z.sgn_pos, Z.sgn_neg by lia; lia).
  unfold int_of_float. cbn [fmant fexp].
  destruct (Z.leb_spec 0 e).
  - assert (0 <= 2 ^ e) by (apply Z.pow_nonneg; lia). nia.
  - assert (0 < 2 ^ (- e)) by (apply Z.pow_pos_nonneg; lia).
    replace (-1 * m) with (- m) by lia.
    rewrite Z.quot_opp_l by lia.
    assert (0 <= Z.quot m (2 ^ (- e))) by (apply Z.quot_pos; lia). lia.
Qed.

Lemma view_nonpositive (t : Tensor) (bs c nb : Z) :
  0 <= bs -> c <= 0 -> nb < 0 -> view t [bs; c; nb] = Raise RuntimeError.
Proof.
  intros Hbs Hc Hnb. unfold view, infer_size.
  destruct (existsb _ _) eqn:Hex; [reflexivity|].
  cbn [existsb] in Hex. rewrite !orb_false_iff in Hex.
  destruct Hex as [[Hb1 _] [[Hc1 _] [[Hn1 _] _]]].
  apply Z.ltb_ge in Hb1, Hc1, Hn1.
  assert (nb = -1) as -> by lia.
  destruct (Z.eq_dec c (-1)) as [->|Hc2].
  - cbn [List.filter]. destruct (Z.eqb_spec (-1) bs); reflexivity.
  - assert (c = 0) as -> by lia.
    cbn [List.filter]. destruct (Z.eqb_spec (-1) bs) as [|_]; [lia|].
    cbn. replace (bs * (0 * 1)) with 0 by lia. reflexivity.
Qed.

(** [reduce_proxies] never returns a tensor when [nb_proxy] is zero or
    negative: it raises (a division by zero, a failed assertion, or the
    [view] of a size that is not positive). *)
Theorem reduce_proxies_nonpositive_raises (out : Tensor) (nb_proxy : Z) :
  wf_tensor out -> nb_proxy <= 0 -> raises (reduce_proxies out nb_proxy).
Proof.
  intros [Hd _] Hnb. unfold raises, reduce_proxies.
  destruct (Z.eqb_spec nb_proxy 1) as [|_]; [lia|].
  unfold shape_at.
  destruct (shape out) as [|bs [|cols rest]] eqn:Hs; cbn [lookup list_lookup rbind].
  - eexists; reflexivity.
  - eexists; reflexivity.
  - apply Forall_cons in Hd as [Hbs Hd]. apply Forall_cons in Hd as [Hcols _].
    destruct (int_true_divide cols nb_proxy) as [f|e] eqn:Hf; cbn [rbind];
      [|eexists; reflexivity].
    destruct (is_integer f); cbn [negb]; [|eexists; reflexivity].
    assert (nb_proxy < 0) as Hneg.
    { destruct (Z.eq_dec nb_proxy 0) as [->|]; [|lia].
      unfold int_true_divide in Hf. simpl in Hf. discriminate. }
    rewrite (view_nonpositive out bs (int_of_float f) nb_proxy); [| lia | | exact Hneg].
    + eexists; reflexivity.
    + eapply int_true_divide_sign; [| exact Hneg | exact Hf]. lia.
Qed.

Lemma reduce_proxies_nonpositive_raises_witness : raises (reduce_proxies zero_pair (-2)).
Proof.
  apply (reduce_proxies_nonpositive_raises zero_pair (-2)).
  - exact wf_zero_pair.
  - lia.
Defined.

Lemma dot_zero_l (u v : list R) : Forall (fun x => x = 0%R) u -> dot u v = 0%R.
Proof.
  unfold dot. intros H. revert v. induction H as [|x u -> _ IH]; intros v.
  - reflexivity.
  - destruct v as [|y v]; [reflexivity|]. simpl. rewrite IH. lra.
Qed.

Lemma normalized_zero (v : list R) :
  Forall (fun x => x = 0%R) v -> Forall (fun x => x = 0%R) (normalized v).
Proof.
  intros H. unfold normalized. apply Forall_map.
  eapply Forall_impl; [exact H|]. intros x ->. simpl. unfold Rdiv. apply Rmult_0_l.
Qed.

(** An all-zero input row gives all-zero logits in
    [CosineLinear.forward] (without proxy reduction): the norm is clamped
    from below before the division, so the row is normalised to zero and
    no division by zero occurs. *)
Theorem CosineLinear_zero_row (self : CosineLinear) (input : Tensor) (bs : Z) (i : nat) :
  CosineLinear_ok self -> cl_to_reduce self = false ->
  wf_tensor input -> shape input = [bs; cl_in_features self] ->
  Z.of_nat i < bs -> Forall (fun x => x = 0%R) (row input i) ->
  exists out,
    CosineLinear_forward self input = Ok [("logits"%string, out)] /\
    forall j : nat, Z.of_nat j < cl_out_features self -> entry2 out i j = 0%R.
Proof.
  intros Hok Hred Hwi Hi Hlt Hzero.
  rewrite (CosineLinear_forward_unfold self input bs Hok Hwi Hi), Hred.
  destruct Hok as [Hww Hw]. cbn [rbind].
  eexists. split; [reflexivity|]. intros j Hj.
  assert (entry2 (cosine_matrix input (cl_weight self)) i j = 0%R) as H0.
  { rewrite (cosine_matrix_entry input _ bs (cl_out_features self) (cl_in_features self))
      by (try assumption; lia).
    apply dot_zero_l. apply normalized_zero. exact Hzero. }
  destruct (cl_sigma self) as [s|]; simpl.
  - rewrite entry2_tensor_scale, H0. lra.
  - exact H0.
Qed.

Lemma CosineLinear_zero_row_witness :
  exists out,
    CosineLinear_forward cosine_head_1x1 (mkTensor [1; 1] [0%R])
      = Ok [("logits"%string, out)] /\
    forall j : nat, Z.of_nat j < 1 -> entry2 out 0 j = 0%R.
Proof.
  apply (CosineLinear_zero_row cosine_head_1x1 (mkTensor [1; 1] [0%R]) 1 0).
  - split; [exact wf_unit_matrix | reflexivity].
  - reflexivity.
  - split; [repeat constructor; unfold int64_max; lia | reflexivity].
  - reflexivity.
  - lia.
  - repeat constructor.
Defined.

(** [CosineLinear.forward] raises a [RuntimeError] on a batch whose
    rows do not have [in_features] entries. *)
Theorem CosineLinear_forward_width_mismatch
    (self : CosineLinear) (input : Tensor) (bs k : Z) :
  CosineLinear_ok self -> wf_tensor input -> shape input = [bs; k] ->
  k <> cl_in_features self ->
  CosineLinear_forward self input = Raise RuntimeError.
Proof.
  intros [Hww Hw] Hwi Hi Hk. unfold CosineLinear_forward.
  rewrite (F_normalize_matrix input bs k Hwi Hi). cbn [rbind].
  rewrite (F_normalize_matrix _ _ _ Hww Hw). cbn [rbind].
  rewrite (F_linear_mismatch _ _ bs (cl_out_features self) k (cl_in_features self));
    [reflexivity | reflexivity | reflexivity | exact Hk].
Qed.

Lemma CosineLinear_forward_width_mismatch_witness :
  CosineLinear_forward cosine_head_1x1 zero_pair = Raise RuntimeError.
Proof.
  apply (CosineLinear_forward_width_mismatch cosine_head_1x1 zero_pair 1 2).
  - split; [exact wf_unit_matrix | reflexivity].
  - exact wf_zero_pair.
  - reflexivity.
  - simpl. lia.
Defined.

(** * Resampling in [trunc_normal_] *)

(** ** The resampling loop of [trunc_normal_] *)

Section Resampling.
Context `{G : Generator}.

Lemma sum_bool_all_true (cond : list bool) :
  Forall (fun c => c = true) cond -> sum_bool cond = length cond.
Proof.
  unfold sum_bool. induction 1 as [|c cond -> _ IH]; simpl; [reflexivity|].
  rewrite IH. reflexivity.
Qed.

Lemma tensor_normal__at (mean std : R) (n : nat) (w : World) :
  (0 <= std)%R ->
  tensor_normal_ mean std n w =
  Some (Ok (fst (normal_ mean std n (gen w))),
        mkWorld _ (heap w) (snd (normal_ mean std n (gen w)))).
Proof.
  intros Hstd. unfold tensor_normal_.
  rewrite (proj2 (Rltb_false std 0)) by exact Hstd.
  destruct (normal_ mean std n (gen w)). reflexivity.
Qed.

Lemma trunc_normal_loop_diverges (fuel : nat) (mean std a b : R) (tmp : list R)
    (w : World) :
  (b < a)%R -> (0 <= std)%R -> tmp <> [] ->
  trunc_normal_loop fuel mean std a b tmp w = None.
Proof.
  intros Hab Hstd. revert tmp w.
  induction fuel as [|fuel IH]; intros tmp w Hne.
  - simpl.
    rewrite sum_bool_all_true.
    + rewrite length_map. destruct tmp; [congruence | reflexivity].
    + apply Forall_map. apply Forall_forall. intros x _. simpl.
      destruct (Rlt_dec x a) as [Hx|Hx].
      * rewrite (proj2 (Rltb_true x a) Hx). reflexivity.
      * rewrite (proj2 (Rltb_true b x)) by lra. apply orb_true_r.
  - cbn [trunc_normal_loop].
    set (cond := map (fun x => Rltb x a || Rltb b x) tmp).
    assert (Forall (fun c => c = true) cond) as Hall.
    { apply Forall_map. apply Forall_forall. intros x _. simpl.
      destruct (Rlt_dec x a) as [Hx|Hx].
      * rewrite (proj2 (Rltb_true x a) Hx). reflexivity.
      * rewrite (proj2 (Rltb_true b x)) by lra. apply orb_true_r. }
    rewrite (sum_bool_all_true cond Hall).
    assert (length cond = length tmp) as Hlen by apply length_map.
    destruct (length cond) eqn:Hc; [destruct tmp; simpl in *; congruence|].
    cbn [Nat.eqb].
    rewrite (bind_step _ _ _ _ _ (tensor_normal__at mean std (length tmp) w Hstd)).
    apply IH. intros Hnil.
    assert (length (torch_where cond (fst (normal_ mean std (length tmp) (gen w))) tmp)
            = length cond) as Hl.
    { apply torch_where_length; [rewrite normal_length; lia | lia]. }
    rewrite Hnil in Hl. simpl in Hl. lia.
Qed.

Lemma torch_where_lookup_false (cond : list bool) (x y : list R) (i : nat) (v : R) :
  length x = length y -> cond !! i = Some false -> y !! i = Some v ->
  torch_where cond x y !! i = Some v.
Proof.
  intros Hlen Hc Hy. unfold torch_where.
  assert (is_Some (x !! i)) as [u Hu].
  { apply lookup_lt_is_Some. rewrite Hlen. eapply lookup_lt_Some. exact Hy. }
  rewrite !lookup_zip_with, Hc, Hu, Hy. reflexivity.
Qed.

Lemma trunc_normal_loop_keeps (fuel : nat) (mean std a b : R) (tmp : list R)
    (w w1 : World) (res : list R) :
  trunc_normal_loop fuel mean std a b tmp w = Some (Ok res, w1) ->
  forall (i : nat) (x : R), tmp !! i = Some x -> (a <= x <= b)%R -> res !! i = Some x.
Proof.
  revert tmp w. induction fuel as [|fuel IH]; intros tmp w H i x Hi Hx.
  - simpl in H. destruct (_ =? _)%nat; [|discriminate].
    injection H as <- _. exact Hi.
  - cbn [trunc_normal_loop] in H.
    destruct (_ =? _)%nat.
    + injection H as <- _. exact Hi.
    + apply bind_Ok in H as (fresh & w2 & Hfresh & H).
      apply tensor_normal__Ok in Hfresh as (_ & _ & Hlen).
      apply (IH _ _ H i x); [|exact Hx].
      apply torch_where_lookup_false; [exact Hlen | | exact Hi].
      rewrite list_lookup_fmap, Hi. simpl. f_equal.
      rewrite (proj2 (Rltb_false x a)), (proj2 (Rltb_false b x)) by lra. reflexivity.
Qed.

End Resampling.

(** With an empty interval ([b < a]) [trunc_normal_] never returns on
    a tensor that has entries: every draw is out of range, so the loop
    has not ended after any number of resampling rounds. *)
Theorem trunc_normal__empty_interval `{G : Generator}
    (fuel : nat) (tensor : loc) (mean std a b : R) (w : World) (t : Tensor) :
  heap w !! tensor = Some t -> data t <> [] -> (0 <= std)%R -> (b < a)%R ->
  trunc_normal_ fuel tensor mean std a b w = None.
Proof.
  intros Ht Hne Hstd Hab. unfold trunc_normal_.
  rewrite (bind_step _ _ _ _ _ (read_at tensor w t Ht)).
  rewrite (bind_step _ _ _ _ _ (tensor_normal__at mean std (length (data t)) w Hstd)).
  unfold bind at 1. rewrite trunc_normal_loop_diverges; [reflexivity | exact Hab | exact Hstd |].
  intros Hnil.
  pose proof (normal_length mean std (length (data t)) (gen w)) as Hl.
  rewrite Hnil in Hl. destruct (data t); simpl in Hl; congruence.
Qed.

Lemma trunc_normal__empty_interval_witness :
  trunc_normal_ 5 0%nat 0 1 2 (-2) example_world = None.
Proof.
  apply (trunc_normal__empty_interval 5 0%nat 0 1 2 (-2) example_world (mkTensor [1] [7%R])).
  - reflexivity.
  - discriminate.
  - lra.
  - lra.
Defined.

(** [trunc_normal_] resamples only the entries that are out of range:
    an entry of the first draw that lies in [[a, b]] is the entry the
    tensor holds at that position when the call returns. *)
Theorem trunc_normal__keeps_in_range `{G : Generator}
    (fuel : nat) (tensor : loc) (mean std a b : R) (w w1 : World) (l : loc) (t : Tensor) :
  heap w !! tensor = Some t ->
  trunc_normal_ fuel tensor mean std a b w = Some (Ok l, w1) ->
  exists d,
    heap w1 !! tensor = Some (mkTensor (shape t) d) /\
    forall (i : nat) (x : R),
      fst (normal_ mean std (length (data t)) (gen w)) !! i = Some x ->
      (a <= x <= b)%R -> d !! i = Some x.
Proof.
  intros Ht H. unfold trunc_normal_ in H.
  rewrite (bind_step _ _ _ _ _ (read_at tensor w t Ht)) in H.
  apply bind_Ok in H as (tmp & w2 & Hdraw & H).
  apply tensor_normal__Ok in Hdraw as (-> & Hh2 & _).
  apply bind_Ok in H as (res & w3 & Hloop & H).
  pose proof (trunc_normal_loop_keeps _ _ _ _ _ _ _ _ _ Hloop) as Hkeep.
  apply trunc_normal_loop_Ok in Hloop as (Hh3 & _).
  apply bind_Ok in H as (u & w4 & Hwrite & H).
  injection H as _ <-.
  apply write_data_Ok in Hwrite as (t' & Ht' & ->).
  assert (t' = t) as -> by (rewrite Hh3, Hh2, Ht in Ht'; congruence).
  exists res. split; [|exact Hkeep].
  cbn [heap]. apply list_lookup_insert_eq. eapply lookup_lt_Some. exact Ht'.
Qed.

(** On two entries with the first draw [(100, 1)]: the first entry is
    resampled (to [0]), the second is kept. *)
Lemma trunc_normal__two_entries :
  trunc_normal_ 1 0%nat 0 1 (-2) 2 two_entry_world =
  Some (Ok 0%nat,
        @mkWorld replay_generator [mkTensor [2] [(0 + 1 * 0)%R; (0 + 1 * 1)%R]] []).
Proof.
  assert (Rltb 1 0 = false) as H10 by (apply Rltb_false; lra).
  assert (Rltb (0 + 1 * 100) (-2) = false) as H1 by (apply Rltb_false; lra).
  assert (Rltb 2 (0 + 1 * 100) = true) as H2 by (apply Rltb_true; lra).
  assert (Rltb (0 + 1 * 1) (-2) = false) as H3 by (apply Rltb_false; lra).
  assert (Rltb 2 (0 + 1 * 1) = false) as H4 by (apply Rltb_false; lra).
  assert (Rltb (0 + 1 * 0) (-2) = false) as H5 by (apply Rltb_false; lra).
  assert (Rltb 2 (0 + 1 * 0) = false) as H6 by (apply Rltb_false; lra).
  unfold trunc_normal_, bind, read, tensor_normal_, two_entry_world. simpl.
  rewrite H10. simpl. rewrite H1, H2, H3, H4. simpl.
  unfold bind, tensor_normal_. simpl. rewrite H10. simpl.
  rewrite H5, H6, H3, H4. simpl. reflexivity.
Qed.

Lemma trunc_normal__keeps_in_range_witness :
  exists d,
    heap (@mkWorld replay_generator [mkTensor [2] [(0 + 1 * 0)%R; (0 + 1 * 1)%R]] [])
      !! 0%nat = Some (mkTensor [2] d) /\
    fst (@normal_ replay_generator 0 1 2 [100%R; 1%R]) !! 1%nat = Some (0 + 1 * 1)%R /\
    d !! 1%nat = Some (0 + 1 * 1)%R.
Proof.
  destruct (trunc_normal__keeps_in_range 1 0%nat 0 1 (-2) 2 two_entry_world _ 0%nat
              (mkTensor [2] [7%R; 7%R]) eq_refl trunc_normal__two_entries)
    as (d & Hd & Hkeep).
  exists d. split; [exact Hd|]. split; [reflexivity|].
  apply (Hkeep 1%nat); [reflexivity | lra].
Defined.

(** A negative [std] makes [trunc_normal_] raise a [RuntimeError]
    before anything is written: the tensor and the generator are as they
    were. *)
Theorem trunc_normal__negative_std `{G : Generator}
    (fuel : nat) (tensor : loc) (mean std a b : R) (w : World) (t : Tensor) :
  heap w !! tensor = Some t -> (std < 0)%R ->
  trunc_normal_ fuel tensor mean std a b w = Some (Raise RuntimeError, w).
Proof.
  intros Ht Hstd. unfold trunc_normal_.
  rewrite (bind_step _ _ _ _ _ (read_at tensor w t Ht)).
  unfold bind, tensor_normal_. rewrite (proj2 (Rltb_true std 0) Hstd). reflexivity.
Qed.

Lemma trunc_normal__negative_std_witness :
  trunc_normal_ 0 0%nat 0 (-1) (-2) 2 example_world = Some (Raise RuntimeError, example_world).
Proof.
  apply (trunc_normal__negative_std 0 0%nat 0 (-1) (-2) 2 example_world (mkTensor [1] [7%R])).
  - reflexivity.
  - lra.
Defined.

(** * The plain linear head *)

(** ** SimpleLinear *)

Section SimpleLinearInit.
Context `{G : Generator}.

Lemma tensor_uniform__at (l : loc) (lo hi : R) (w : World) (t : Tensor) :
  heap w !! l = Some t -> (lo <= hi)%R ->
  tensor_uniform_ l lo hi w =
  Some (Ok tt,
        mkWorld _ (<[l := mkTensor (shape t)
                             (fst (uniform_ lo hi (length (data t)) (gen w)))]> (heap w))
                  (snd (uniform_ lo hi (length (data t)) (gen w)))).
Proof.
  intros Ht Hle. unfold tensor_uniform_.
  rewrite (bind_step _ _ _ _ _ (read_at l w t Ht)).
  rewrite (proj2 (Rltb_false hi lo)) by exact Hle.
  unfold bind. destruct (uniform_ lo hi (length (data t)) (gen w)) as [vals g'].
  cbn [fst snd]. unfold write_data. cbn [heap gen]. rewrite Ht. reflexivity.
Qed.

Lemma kaiming_bound_nonneg (x : R) : (0 <= sqrt 3 * (1 / sqrt x))%R.
Proof.
  apply Rmult_le_pos; [apply sqrt_pos|].
  destruct (Rle_lt_dec x 0) as [Hx|Hx].
  - rewrite (sqrt_neg_0 x Hx). unfold Rdiv. rewrite Rinv_0. lra.
  - apply Rlt_le. apply Rdiv_lt_0_compat; [lra | apply sqrt_lt_R0; exact Hx].
Qed.

End SimpleLinearInit.

(** What the constructor computes when its two tensors can be
    allocated. *)
Lemma SimpleLinear_init_computes `{G : Generator}
    (in_features out_features : Z) (w : World) :
  0 < in_features <= int64_max -> 0 < out_features <= int64_max ->
  out_features * in_features <= int64_max ->
  let n := length (heap w) in
  let bound := (sqrt 3 * (1 / sqrt (IZR in_features)))%R in
  let draw := uniform_ (- bound) bound (Z.to_nat (out_features * in_features)) (gen w) in
  SimpleLinear_init in_features out_features true w =
  Some (Ok (mkSimpleLinear in_features out_features
              (mkParam n true) (Some (mkParam (S n) true))),
        mkWorld _ (heap w ++ [mkTensor [out_features; in_features] (fst draw);
                              mkTensor [out_features]
                                (repeat 0%R (Z.to_nat out_features))])
                  (snd draw)).
Proof.
  intros Hi Ho Hoi n bound draw.
  pose proof (kaiming_bound_nonneg (IZR in_features)) as Hb. fold bound in Hb.
  unfold SimpleLinear_init.
  rewrite (bind_step _ _ _ _ _
             (new_parameter_Ok [out_features; in_features] _ w
                (torch_Tensor_returns [out_features; in_features]
                   ltac:(repeat constructor; lia)
                   ltac:(rewrite numel_2; exact Hoi)))).
  cbn beta.
  set (tw := mkTensor [out_features; in_features]
               (repeat 0%R (Z.to_nat (numel [out_features; in_features])))).
  set (tb := mkTensor [out_features] (repeat 0%R (Z.to_nat (numel [out_features])))).
  set (w1 := mkWorld _ (heap w ++ [tw]) (gen w)).
  set (w2 := mkWorld _ (heap w ++ [tw; tb]) (gen w)).
  assert ((p <-- new_parameter [out_features];; ret (Some p)) w1
          = Some (Ok (Some (mkParam (S n) true)), w2)) as Hnew.
  { rewrite (bind_step _ _ _ _ _
               (new_parameter_Ok [out_features] _ w1
                  (torch_Tensor_returns [out_features]
                     ltac:(repeat constructor; lia)
                     ltac:(rewrite numel_1; lia)))).
    unfold ret, w1, w2. cbn [heap gen]. rewrite length_tail1, app_tail2. reflexivity. }
  rewrite (bind_step _ _ _ _ _ Hnew). fold n.
  assert (heap w2 !! n = Some tw) as Hw by apply lookup_tail2_0.
  assert (kaiming_uniform_ n 1 w2 =
          Some (Ok tt, mkWorld _ (heap w ++ [mkTensor [out_features; in_features] (fst draw); tb])
                         (snd draw))) as Hk.
  { unfold kaiming_uniform_.
    rewrite (bind_step _ _ _ _ _ (read_at n w2 tw Hw)).
    cbn [shape tw existsb].
    destruct (Z.eqb_spec 0 out_features) as [|_]; [lia|].
    destruct (Z.eqb_spec 0 in_features) as [|_]; [lia|].
    cbn [orb].
    replace (in_features * numel []) with in_features by (unfold numel; simpl; lia).
    fold bound.
    rewrite (tensor_uniform__at n (- bound) bound w2 tw Hw) by lra.
    cbn [shape data tw]. rewrite repeat_length, numel_2.
    unfold w2, n. cbn [heap gen]. rewrite insert_tail2_0. reflexivity. }
  set (w3 := mkWorld _ (heap w ++ [mkTensor [out_features; in_features] (fst draw); tb])
                      (snd draw)) in *.
  assert (heap w3 !! S n = Some tb) as Hbias by apply lookup_tail2_1.
  assert (SimpleLinear_reset_parameters
            (mkSimpleLinear in_features out_features (mkParam n true)
               (Some (mkParam (S n) true))) w2
          = Some (Ok tt,
                  mkWorld _ (heap w ++ [mkTensor [out_features; in_features] (fst draw);
                                        mkTensor [out_features]
                                          (repeat 0%R (Z.to_nat out_features))])
                            (snd draw))) as Hreset.
  { unfold SimpleLinear_reset_parameters.
    cbn [sl_weight sl_bias storage fmap option_fmap option_map].
    rewrite (bind_step _ _ _ _ _ Hk).
    rewrite (constant__Ok (S n) 0 w3 tb Hbias).
    cbn [shape data tb]. rewrite repeat_length, numel_1.
    unfold w3, n. cbn [heap gen]. rewrite insert_tail2_1. reflexivity. }
  rewrite (bind_step _ _ _ _ _ Hreset). reflexivity.
Qed.

(** When the constructor of [SimpleLinear] returns for [bias=True] and
    positive sizes, the module has two new trainable parameters: the
    weight, of shape [(out_features, in_features)], holds one uniform draw
    with the bounds [-sqrt(3) / sqrt(in_features)] and
    [sqrt(3) / sqrt(in_features)], and the bias, of shape
    [(out_features,)], is zero; nothing else in the store has changed. *)
Theorem SimpleLinear_init_result `{G : Generator}
    (in_features out_features : Z) (self : SimpleLinear) (w w1 : World) :
  0 < in_features -> 0 < out_features ->
  SimpleLinear_init in_features out_features true w = Some (Ok self, w1) ->
  let n := length (heap w) in
  let bound := (sqrt 3 * (1 / sqrt (IZR in_features)))%R in
  let draw := uniform_ (- bound) bound (Z.to_nat (out_features * in_features)) (gen w) in
  self = mkSimpleLinear in_features out_features
           (mkParam n true) (Some (mkParam (S n) true)) /\
  heap w1 = heap w ++ [mkTensor [out_features; in_features] (fst draw);
                       mkTensor [out_features] (repeat 0%R (Z.to_nat out_features))] /\
  gen w1 = snd draw.
Proof.
  intros Hi Ho H n bound draw.
  assert (exists t, torch_Tensor [out_features; in_features] = Ok t) as [t Ht].
  { destruct (torch_Tensor [out_features; in_features]) as [t|e] eqn:Ht; [eauto|].
    exfalso. unfold SimpleLinear_init in H.
    rewrite (bind_raise _ _ _ _ _ (new_parameter_Raise _ _ w Ht)) in H. discriminate. }
  apply torch_Tensor_Ok in Ht as (_ & Hd & Hn & _).
  apply Forall_cons in Hd as [Hdo Hd]. apply Forall_cons in Hd as [Hdi _].
  rewrite numel_2 in Hn.
  rewrite (SimpleLinear_init_computes in_features out_features w
             ltac:(lia) ltac:(lia) Hn) in H.
  injection H as <- <-. repeat split; reflexivity.
Qed.

Lemma SimpleLinear_init_result_witness :
  exists (self : SimpleLinear) (w1 : @World constant_generator),
    @SimpleLinear_init constant_generator 3 2 true empty_world = Some (Ok self, w1) /\
    self = mkSimpleLinear 3 2 (mkParam O true) (Some (mkParam (S O) true)) /\
    heap w1 =
      [mkTensor [2; 3]
         (fst (@uniform_ constant_generator
                 (- (sqrt 3 * (1 / sqrt (IZR 3)))) (sqrt 3 * (1 / sqrt (IZR 3)))
                 (Z.to_nat (2 * 3)) tt));
       mkTensor [2] (repeat 0%R (Z.to_nat 2))].
Proof.
  pose proof (@SimpleLinear_init_computes constant_generator 3 2 empty_world
                ltac:(unfold int64_max; lia) ltac:(unfold int64_max; lia)
                ltac:(unfold int64_max; lia)) as Hrun.
  cbv zeta in Hrun.
  destruct (@SimpleLinear_init_result constant_generator 3 2 _ empty_world _
              ltac:(lia) ltac:(lia) Hrun) as (Hself & Hheap & _).
  eexists _, _. split; [exact Hrun|]. split; [exact Hself | exact Hheap].
Defined.

Lemma F_linear_bias_entries (x w b : Tensor) (bs o k : Z) :
  wf_tensor x -> shape x = [bs; k] -> wf_tensor w -> shape w = [o; k] ->
  wf_tensor b -> shape b = [o] ->
  exists y,
    F_linear x w (Some b) = Ok y /\ shape y = [bs; o] /\
    forall i j : nat, Z.of_nat i < bs -> Z.of_nat j < o ->
      entry2 y i j = (dot (row x i) (row w j) + nth j (data b) 0)%R.
Proof.
  intros Hwx Hx Hww Hw Hwb Hb.
  destruct (wf_matrix_length x bs k Hwx Hx) as (Hbs & Hk & _).
  destruct (wf_matrix_length w o k Hww Hw) as (Ho & _ & _).
  assert (length (data b) = Z.to_nat o) as Hlb.
  { destruct Hwb as [_ Hl]. rewrite Hb, numel_1 in Hl. lia. }
  unfold F_linear. rewrite Hw, Hx. unfold last_dim, lead_dims. cbn [List.last removelast].
  rewrite Z.eqb_refl. cbn [negb]. rewrite bool_decide_true by exact Hb. cbn [negb app].
  eexists. split; [reflexivity|]. split; [reflexivity|].
  intros i j Hi Hj. unfold entry2. cbn [shape data fmap option_fmap option_map].
  unfold last_dim. cbn [List.last].
  assert (i < Z.to_nat bs)%nat as Hi' by lia.
  assert (j < Z.to_nat o)%nat as Hj' by lia.
  set (f := linear_vec (groups w) (Some (data b))).
  assert (Forall (fun c => length c = Z.to_nat o) (map f (groups x))) as Hall.
  { apply Forall_map. apply Forall_forall. intros v _. unfold f.
    rewrite linear_vec_length, (length_groups_matrix w o k Hw). lia. }
  rewrite (nth_concat_uniform (map f (groups x)) (Z.to_nat o) i j (f (row x i)) Hall);
    [| rewrite list_lookup_fmap, (row_groups x bs k i Hx Hi'); reflexivity | exact Hj'].
  assert (is_Some (data b !! j)) as [v Hv] by (apply lookup_lt_is_Some; lia).
  rewrite (nth_lookup_Some _ _ 0%R _ Hv).
  apply nth_lookup_Some. unfold f. simpl.
  rewrite lookup_zip_with, list_lookup_fmap, (row_groups w o k j Hw Hj'), Hv.
  reflexivity.
Qed.

(** [SimpleLinear.forward] is the affine map [x @ W.T + b]: on a
    batch of shape [(bs, in_features)] the logits have shape
    [(bs, out_features)] and entry [(i, j)] is the dot product of row [i]
    of the input with row [j] of the weight, plus entry [j] of the bias;
    no parameter is changed. *)
Theorem SimpleLinear_forward_affine `{G : Generator}
    (self : SimpleLinear) (pb : Param) (input tw tb : Tensor) (w : World) (bs : Z) :
  heap w !! storage (sl_weight self) = Some tw ->
  sl_bias self = Some pb -> heap w !! storage pb = Some tb ->
  wf_tensor tw -> shape tw = [sl_out_features self; sl_in_features self] ->
  wf_tensor tb -> shape tb = [sl_out_features self] ->
  wf_tensor input -> shape input = [bs; sl_in_features self] ->
  exists logits,
    SimpleLinear_forward self input w = Some (Ok [("logits"%string, logits)], w) /\
    shape logits = [bs; sl_out_features self] /\
    forall i j : nat, Z.of_nat i < bs -> Z.of_nat j < sl_out_features self ->
      entry2 logits i j = (dot (row input i) (row tw j) + nth j (data tb) 0)%R.
Proof.
  intros Hw Hpb Hb Hww Hsw Hwb Hsb Hwx Hsx.
  destruct (F_linear_bias_entries input tw tb bs _ _ Hwx Hsx Hww Hsw Hwb Hsb)
    as (y & Hy & Hshape & Hent).
  exists y. split; [|split; assumption].
  unfold SimpleLinear_forward.
  rewrite (bind_step _ _ _ _ _ (read_at _ w tw Hw)).
  rewrite Hpb. unfold read_opt.
  rewrite (bind_step _ _ _ _ _ (bind_step _ _ _ _ _ (read_at _ w tb Hb))).
  unfold ret at 1. unfold bind, lift. rewrite Hy. reflexivity.
Qed.

Lemma wf_one_entry : wf_tensor (mkTensor [1] [0%R]).
Proof. split; [repeat constructor; unfold int64_max; lia | reflexivity]. Qed.

Lemma wf_zero_matrix : wf_tensor (mkTensor [1; 1] [0%R]).
Proof. split; [repeat constructor; unfold int64_max; lia | reflexivity]. Qed.

Lemma SimpleLinear_forward_affine_witness :
  exists logits,
    SimpleLinear_forward simple_linear_1x1 unit_matrix one_head_world
      = Some (Ok [("logits"%string, logits)], one_head_world) /\
    shape logits = [1; 1] /\
    forall i j : nat, Z.of_nat i < 1 -> Z.of_nat j < 1 ->
      entry2 logits i j =
      (dot (row unit_matrix i) (row (mkTensor [1%Z; 1%Z] [0%R]) j) + nth j [0%R] 0)%R.
Proof.
  exact (@SimpleLinear_forward_affine constant_generator simple_linear_1x1
           (mkParam (S O) true) unit_matrix (mkTensor [1; 1] [0%R]) (mkTensor [1] [0%R])
           one_head_world 1 eq_refl eq_refl eq_refl wf_zero_matrix eq_refl
           wf_one_entry eq_refl wf_unit_matrix eq_refl).
Defined.

(** [SimpleLinear.forward] raises a [RuntimeError], and changes
    nothing, on a batch whose rows do not have [in_features] entries. *)
Theorem SimpleLinear_forward_width_mismatch `{G : Generator}
    (self : SimpleLinear) (pb : Param) (input tw tb : Tensor) (w : World) (bs k : Z) :
  heap w !! storage (sl_weight self) = Some tw ->
  sl_bias self = Some pb -> heap w !! storage pb = Some tb ->
  shape tw = [sl_out_features self; sl_in_features self] ->
  shape input = [bs; k] -> k <> sl_in_features self ->
  SimpleLinear_forward self input w = Some (Raise RuntimeError, w).
Proof.
  intros Hw Hpb Hb Hsw Hsx Hk.
  unfold SimpleLinear_forward.
  rewrite (bind_step _ _ _ _ _ (read_at _ w tw Hw)).
  rewrite Hpb. unfold read_opt.
  rewrite (bind_step _ _ _ _ _ (bind_step _ _ _ _ _ (read_at _ w tb Hb))).
  unfold ret at 1. unfold bind, lift, F_linear.
  rewrite Hsw, Hsx. unfold last_dim. cbn [List.last].
  destruct (Z.eqb_spec k (sl_in_features self)) as [|_]; [contradiction|]. reflexivity.
Qed.

Lemma SimpleLinear_forward_width_mismatch_witness :
  SimpleLinear_forward simple_linear_1x1 zero_pair one_head_world
    = Some (Raise RuntimeError, one_head_world).
Proof.
  apply (@SimpleLinear_forward_width_mismatch constant_generator simple_linear_1x1
           (mkParam (S O) true) zero_pair (mkTensor [1; 1] [0%R]) (mkTensor [1] [0%R])
           one_head_world 1 2 eq_refl eq_refl eq_refl eq_refl eq_refl).
  simpl. lia.
Defined.

(** * [forward] leaves the store alone *)

(** ** [forward] reads the store and never writes it *)

Section ForwardFrame.
Context `{G : Generator}.

Lemma lift_world {A : Type} (r : result A) (w w1 : World) (x : result A) :
  lift r w = Some (x, w1) -> x = r /\ w1 = w.
Proof. destruct r; simpl; intros H; injection H as <- <-; split; reflexivity. Qed.

Lemma Layer_forward_world (ly : Layer) (x : Tensor) (w w1 : World) (r : result Tensor) :
  Layer_forward ly x w = Some (r, w1) -> w1 = w.
Proof.
  destruct ly as [m|m]; unfold Layer_forward, bind, read.
  - destruct (heap w !! storage (ln_weight m)); [|discriminate].
    destruct (heap w !! storage (ln_bias m)); [|discriminate].
    intros H. apply lift_world in H as [_ ->]. reflexivity.
  - destruct (heap w !! storage (lin_weight m)); [|discriminate].
    destruct (heap w !! storage (lin_bias m)); [|discriminate].
    intros H. apply lift_world in H as [_ ->]. reflexivity.
Qed.

Lemma Sequential_forward_world (ls : Sequential) (x : Tensor) (w w1 : World)
    (r : result Tensor) :
  Sequential_forward ls x w = Some (r, w1) -> w1 = w.
Proof.
  revert x. induction ls as [|ly ls IH]; intros x; simpl.
  - intros H. injection H as _ <-. reflexivity.
  - unfold bind. destruct (Layer_forward ly x w) as [[[y|e] w2]|] eqn:Hl; [| |discriminate].
    + apply Layer_forward_world in Hl as ->. apply IH.
    + apply Layer_forward_world in Hl as ->. intros H. injection H as _ <-. reflexivity.
Qed.

Lemma forward_heads_world (fe : bool) (hs : list Sequential) (ti : nat) (x : Features)
    (w w1 : World) (r : result (list Tensor)) :
  forward_heads fe hs ti x w = Some (r, w1) -> w1 = w.
Proof.
  revert ti r w1. induction hs as [|h hs IH]; intros ti r w1; simpl.
  - intros H. injection H as _ <-. reflexivity.
  - unfold bind at 1.
    destruct (lift (head_input fe x ti) w) as [[[t|e] w2]|] eqn:Hin; [| |discriminate].
    + apply lift_world in Hin as [_ ->]. unfold bind at 1.
      destruct (Sequential_forward h t w) as [[[o|e] w3]|] eqn:Hs; [| |discriminate].
      * apply Sequential_forward_world in Hs as ->. unfold bind at 1.
        destruct (forward_heads fe hs (S ti) x w) as [[[os|e] w4]|] eqn:Hr; [| |discriminate].
        -- apply IH in Hr as ->. intros H. injection H as _ <-. reflexivity.
        -- apply IH in Hr as ->. intros H. injection H as _ <-. reflexivity.
      * apply Sequential_forward_world in Hs as ->.
        intros H. injection H as _ <-. reflexivity.
    + apply lift_world in Hin as [_ ->]. intros H. injection H as _ <-. reflexivity.
Qed.

End ForwardFrame.

(** [SimpleContinualLinear.forward] never changes the store: whether
    it returns or raises, every parameter, the saved state dict and the
    generator are as they were before the call. *)
Theorem SimpleContinualLinear_forward_frame `{G : Generator}
    (self : SimpleContinualLinear) (x : Features) (w w1 : World) (r : result dict) :
  SimpleContinualLinear_forward self x w = Some (r, w1) -> w1 = w.
Proof.
  unfold SimpleContinualLinear_forward. unfold bind at 1.
  destruct (forward_heads _ _ _ _ w) as [[[outs|e] w2]|] eqn:Hf; [| |discriminate].
  - apply forward_heads_world in Hf as ->. unfold bind.
    destruct (lift (torch_cat1 outs) w) as [[[t|e] w3]|] eqn:Hc; [| |discriminate].
    + apply lift_world in Hc as [_ ->]. intros H. injection H as _ <-. reflexivity.
    + apply lift_world in Hc as [_ ->]. intros H. injection H as _ <-. reflexivity.
  - apply forward_heads_world in Hf as ->. intros H. injection H as _ <-. reflexivity.
Qed.

Lemma SimpleContinualLinear_forward_frame_witness :
  exists r,
    SimpleContinualLinear_forward one_head_module (Shared unit_matrix) one_head_world
    = Some (r, one_head_world).
Proof.
  destruct (SimpleContinualLinear_forward one_head_module (Shared unit_matrix) one_head_world)
    as [[r w1]|] eqn:H.
  - exists r. f_equal. f_equal.
    exact (@SimpleContinualLinear_forward_frame constant_generator one_head_module
             (Shared unit_matrix) one_head_world w1 r H).
  - vm_compute in H. discriminate.
Defined.

(** * Growth of the multi-head classifier *)

(** ** The old heads compute the same logits after [update] *)

Section OldLogits.
Context `{G : Generator}.

Lemma Layer_forward_freeze (ly : Layer) (x : Tensor) (w : World) :
  Layer_forward (freeze_layer ly) x w = Layer_forward ly x w.
Proof. destruct ly; reflexivity. Qed.

(** A layer that has run in [w] runs alike in a store that holds the
    tensors of [w]. *)
Lemma Layer_forward_mono (ly : Layer) (x : Tensor) (w w' : World) (r : result Tensor) :
  (forall l t, heap w !! l = Some t -> heap w' !! l = Some t) ->
  Layer_forward ly x w = Some (r, w) -> Layer_forward ly x w' = Some (r, w').
Proof.
  intros Hext. destruct ly as [m|m]; unfold Layer_forward, bind, read.
  - destruct (heap w !! storage (ln_weight m)) as [g|] eqn:Hg; [|discriminate].
    destruct (heap w !! storage (ln_bias m)) as [h|] eqn:Hh; [|discriminate].
    rewrite (Hext _ _ Hg), (Hext _ _ Hh).
    destruct (F_layer_norm x (ln_normalized_shape m) g h); simpl;
      intros H; injection H as <-; reflexivity.
  - destruct (heap w !! storage (lin_weight m)) as [g|] eqn:Hg; [|discriminate].
    destruct (heap w !! storage (lin_bias m)) as [h|] eqn:Hh; [|discriminate].
    rewrite (Hext _ _ Hg), (Hext _ _ Hh).
    destruct (F_linear x g (Some h)); simpl;
      intros H; injection H as <-; reflexivity.
Qed.

Lemma Sequential_forward_mono (ls : Sequential) (freeze : bool) (x : Tensor)
    (w w' : World) (y : Tensor) :
  (forall l t, heap w !! l = Some t -> heap w' !! l = Some t) ->
  Sequential_forward ls x w = Some (Ok y, w) ->
  Sequential_forward (if freeze then map freeze_layer ls else ls) x w' = Some (Ok y, w').
Proof.
  intros Hext. revert x. induction ls as [|ly ls IH]; intros x H.
  - simpl in H. injection H as <-. destruct freeze; reflexivity.
  - simpl in H. apply bind_Ok in H as (z & w1 & Hl & H).
    pose proof (Layer_forward_world _ _ _ _ _ Hl) as ->.
    apply (Layer_forward_mono _ _ _ w' _ Hext) in Hl.
    specialize (IH z H).
    destruct freeze; simpl.
    + rewrite (bind_step _ _ _ _ _ (eq_trans (Layer_forward_freeze ly x w') Hl)). exact IH.
    + rewrite (bind_step _ _ _ _ _ Hl). exact IH.
Qed.

Lemma forward_heads_mono (fe freeze : bool) (hs : list Sequential) (ti : nat)
    (x : Features) (w w' : World) (outs : list Tensor) :
  (forall l t, heap w !! l = Some t -> heap w' !! l = Some t) ->
  forward_heads fe hs ti x w = Some (Ok outs, w) ->
  forward_heads fe (if freeze then map (map freeze_layer) hs else hs) ti x w'
  = Some (Ok outs, w').
Proof.
  intros Hext. revert ti outs. induction hs as [|h hs IH]; intros ti outs H.
  - simpl in H. injection H as <-. destruct freeze; reflexivity.
  - simpl in H. apply bind_Ok in H as (t & w1 & Hin & H).
    apply lift_world in Hin as [Hin ->].
    apply bind_Ok in H as (o & w2 & Hs & H).
    pose proof (Sequential_forward_world _ _ _ _ _ Hs) as ->.
    apply bind_Ok in H as (os & w3 & Hr & H).
    pose proof (forward_heads_world _ _ _ _ _ _ _ Hr) as ->.
    injection H as <-.
    specialize (IH _ _ Hr).
    pose proof (Sequential_forward_mono h freeze t w w' o Hext Hs) as Hs'.
    assert (lift (head_input fe x ti) w' = Some (Ok t, w')) as Hin'
      by (rewrite <- Hin; reflexivity).
    destruct freeze; simpl.
    + rewrite (bind_step _ _ _ _ _ Hin'), (bind_step _ _ _ _ _ Hs'),
        (bind_step _ _ _ _ _ IH). reflexivity.
    + rewrite (bind_step _ _ _ _ _ Hin'), (bind_step _ _ _ _ _ Hs'),
        (bind_step _ _ _ _ _ IH). reflexivity.
Qed.

Lemma forward_heads_app (fe : bool) (hs hs' : list Sequential) (ti : nat)
    (x : Features) (w : World) (outs outs' : list Tensor) :
  forward_heads fe hs ti x w = Some (Ok outs, w) ->
  forward_heads fe hs' (ti + length hs) x w = Some (Ok outs', w) ->
  forward_heads fe (hs ++ hs') ti x w = Some (Ok (outs ++ outs'), w).
Proof.
  revert ti outs. induction hs as [|h hs IH]; intros ti outs H H'.
  - simpl in H. injection H as <-. simpl in H'. rewrite Nat.add_0_r in H'. exact H'.
  - simpl in H. apply bind_Ok in H as (t & w1 & Hin & H).
    pose proof (proj2 (lift_world _ _ _ _ Hin)) as ->.
    apply bind_Ok in H as (o & w2 & Hs & H).
    pose proof (Sequential_forward_world _ _ _ _ _ Hs) as ->.
    apply bind_Ok in H as (os & w3 & Hr & H).
    pose proof (forward_heads_world _ _ _ _ _ _ _ Hr) as ->.
    injection H as <-.
    simpl in H'. rewrite <- Nat.add_succ_comm in H'.
    specialize (IH _ _ Hr H').
    simpl. rewrite (bind_step _ _ _ _ _ Hin), (bind_step _ _ _ _ _ Hs),
      (bind_step _ _ _ _ _ IH). reflexivity.
Qed.

End OldLogits.

(** [update] does not change what the module computes for the old
    classes: on the same input the logits after the call are, row by row,
    the logits before the call followed by the output of the new head. *)
Theorem update_keeps_old_logits `{G : Generator}
    (fuel : nat) (self self' : SimpleContinualLinear) (nb_classes : Z)
    (freeze_old : bool) (w w' : World) (x : Features) (bs : Z) :
  module_ok self w -> heads self <> [] ->
  (forall ti, (ti <= length (heads self))%nat ->
     exists t, head_input (feat_expand self) x ti = Ok t /\
               shape t = [bs; embed_dim self]) ->
  SimpleContinualLinear_update fuel self nb_classes freeze_old w = Some (Ok self', w') ->
  exists logits logits' new_out,
    SimpleContinualLinear_forward self x w = Some (Ok [("logits"%string, logits)], w) /\
    SimpleContinualLinear_forward self' x w' = Some (Ok [("logits"%string, logits')], w') /\
    shape logits = [bs; fold_right Z.add 0 (map head_out_features (heads self))] /\
    shape logits' =
      [bs; fold_right Z.add 0 (map head_out_features (heads self)) + nb_classes] /\
    shape new_out = [bs; nb_classes] /\
    forall i, (i < Z.to_nat bs)%nat ->
      row logits' i = row logits i ++ row new_out i /\
      length (row logits i) =
        Z.to_nat (fold_right Z.add 0 (map head_out_features (heads self))).
Proof.
  intros Hok Hne Hin Hup.
  set (fe := feat_expand self) in *. set (embed := embed_dim self) in *.
  destruct (forward_heads_ok w fe embed bs x (heads self) 0 Hok) as (outs & Hout & Hms & _).
  { intros ti Hti. apply Hin. lia. }
  apply SimpleContinualLinear_update_inv in Hup as (new_head & Hfresh & ->).
  destruct (fresh_head_ok _ _ _ _ _ _ Hfresh) as [Hnew_ok Hnew_width].
  assert (forall l t, heap w !! l = Some t -> heap w' !! l = Some t) as Hext
    by (intros l t; apply (fresh_head_keeps _ _ _ _ _ _ l t Hfresh)).
  (* the new head *)
  destruct (Hin (length (heads self)) ltac:(lia)) as (t & Ht & Hst).
  destruct (Sequential_forward_head w' embed bs new_head t Hnew_ok Hst)
    as (new_out & Hnew & Hnm).
  rewrite Hnew_width in Hnm.
  set (old_heads := if freeze_old then map (map freeze_layer) (heads self) else heads self).
  assert (length old_heads = length (heads self)) as Hlen
    by (unfold old_heads; destruct freeze_old; [apply length_map | reflexivity]).
  assert (forward_heads fe [new_head] (0 + length old_heads) x w'
          = Some (Ok [new_out], w')) as Hlast.
  { cbn [forward_heads Nat.add]. rewrite Hlen, Ht. cbn [lift].
    unfold ret at 1. unfold bind at 1. cbn beta iota.
    rewrite (bind_step _ _ _ _ _ Hnew). reflexivity. }
  pose proof (forward_heads_mono fe freeze_old (heads self) 0 x w w' outs Hext Hout) as Hold.
  fold old_heads in Hold.
  pose proof (forward_heads_app fe old_heads [new_head] 0 x w' outs [new_out] Hold Hlast)
    as Hall.
  (* the concatenations *)
  assert (outs <> []) as Hne_outs.
  { intros ->. inversion Hms as [Hnil|]. symmetry in Hnil.
    apply map_eq_nil in Hnil. contradiction. }
  assert (Forall2 (is_matrix bs) (map head_out_features (heads self) ++ [nb_classes])
                  (outs ++ [new_out])) as Hms'.
  { apply Forall2_app; [exact Hms | constructor; [exact Hnm | constructor]]. }
  pose proof (torch_cat1_matrices outs bs _ Hne_outs Hms) as Hcat.
  pose proof (torch_cat1_matrices (outs ++ [new_out]) bs _
                ltac:(intros Habs; apply app_eq_nil in Habs as [_ Habs]; discriminate)
                Hms') as Hcat'.
  assert (fold_right Z.add 0 (map head_out_features (heads self) ++ [nb_classes])
          = fold_right Z.add 0 (map head_out_features (heads self)) + nb_classes) as Hsum.
  { rewrite fold_right_app. simpl.
    generalize (map head_out_features (heads self)). intros cs.
    induction cs as [|c cs IH]; simpl; lia. }
  eexists _, _, new_out.
  split; [|split; [|split; [|split; [|split]]]].
  - unfold SimpleContinualLinear_forward. fold fe.
    rewrite (bind_step _ _ _ _ _ Hout). rewrite Hcat. reflexivity.
  - unfold SimpleContinualLinear_forward. cbn [feat_expand heads]. fold fe old_heads.
    rewrite (bind_step _ _ _ _ _ Hall). rewrite Hcat'. reflexivity.
  - reflexivity.
  - cbn [shape]. rewrite Hsum. reflexivity.
  - apply Hnm.
  - intros i Hi. split.
    + rewrite (cat_rows (outs ++ [new_out]) bs _ i Hms' Hi).
      rewrite (cat_rows outs bs _ i Hms Hi).
      rewrite map_app, concat_app. simpl. rewrite app_nil_r. reflexivity.
    + rewrite (cat_rows outs bs _ i Hms Hi).
      apply (cat_row_length outs bs _ i Hms Hi).
Qed.

Lemma one_head_ok : @module_ok constant_generator one_head_module one_head_world.
Proof.
  unfold module_ok. constructor; [|constructor]. split.
  - constructor; [|constructor]. simpl. split; [reflexivity|]. split; [lia|].
    eexists _, _. repeat split; reflexivity.
  - exists [], (mkLinear 1 1 (mkParam O true) (mkParam (S O) true)).
    split; [reflexivity | constructor].
Qed.

Lemma update_keeps_old_logits_witness :
  exists (self' : SimpleContinualLinear) (w' : @World constant_generator)
         logits logits' new_out,
    SimpleContinualLinear_forward one_head_module (Shared unit_matrix) one_head_world
      = Some (Ok [("logits"%string, logits)], one_head_world) /\
    SimpleContinualLinear_forward self' (Shared unit_matrix) w'
      = Some (Ok [("logits"%string, logits')], w') /\
    forall i, (i < Z.to_nat 1)%nat -> row logits' i = row logits i ++ row new_out i.
Proof.
  destruct (one_head_update_returns true) as (self' & w' & Hup).
  destruct (@update_keeps_old_logits constant_generator 0 one_head_module self' 1 true
              one_head_world w' (Shared unit_matrix) 1 one_head_ok)
    as (logits & logits' & new_out & H1 & H2 & _ & _ & _ & H3).
  - discriminate.
  - intros ti _. exists unit_matrix. split; reflexivity.
  - exact Hup.
  - exists self', w', logits, logits', new_out.
    split; [exact H1|]. split; [exact H2|]. intros i Hi. apply (H3 i Hi).
Defined.

(** ** Inputs that [forward] rejects *)

Section ForwardInputs.
Context `{G : Generator}.

Lemma forward_heads_inputs (fe : bool) (hs : list Sequential) (start : nat)
    (x : Features) (w w1 : World) (outs : list Tensor) :
  forward_heads fe hs start x w = Some (Ok outs, w1) ->
  forall k, (k < length hs)%nat -> exists t, head_input fe x (start + k) = Ok t.
Proof.
  revert start outs w w1. induction hs as [|h hs IH]; intros start outs w w1 H k Hk.
  - simpl in Hk. lia.
  - simpl in H. apply bind_Ok in H as (t & w2 & Hin & H).
    apply lift_world in Hin as [Hin ->].
    apply bind_Ok in H as (o & w3 & _ & H).
    apply bind_Ok in H as (os & w4 & Hr & _).
    destruct k as [|k].
    + rewrite Nat.add_0_r. exists t. symmetry. exact Hin.
    + rewrite <- Nat.add_succ_comm. apply (IH _ _ _ _ Hr). simpl in Hk. lia.
Qed.

End ForwardInputs.

(** [forward] does not return logits unless every head gets an input:
    if the input of some head cannot be taken (with [feat_expand], a
    sequence or a tensor with fewer slices than there are heads), the call
    does not return. *)
Theorem SimpleContinualLinear_forward_needs_inputs `{G : Generator}
    (self : SimpleContinualLinear) (x : Features) (w : World) (ti : nat) (e : exn) :
  (ti < length (heads self))%nat ->
  head_input (feat_expand self) x ti = Raise e ->
  forall d w1, SimpleContinualLinear_forward self x w <> Some (Ok d, w1).
Proof.
  intros Hti Hin d w1 H. unfold SimpleContinualLinear_forward in H.
  apply bind_Ok in H as (outs & w2 & Hf & _).
  destruct (forward_heads_inputs _ _ _ _ _ _ _ Hf ti Hti) as (t & Ht).
  simpl in Ht. congruence.
Qed.

Lemma SimpleContinualLinear_forward_needs_inputs_witness :
  ~ exists d w1,
      @SimpleContinualLinear_forward constant_generator
        (mkSimpleContinualLinear 1 true false (heads one_head_module) None)
        (PerHead []) one_head_world = Some (Ok d, w1).
Proof.
  intros (d & w1 & H).
  apply (@SimpleContinualLinear_forward_needs_inputs constant_generator
           (mkSimpleContinualLinear 1 true false (heads one_head_module) None)
           (PerHead []) one_head_world 0%nat IndexError
           ltac:(simpl; lia) eq_refl d w1 H).
Defined.

(** ** Construction and the missing backup *)

Section Growth.
Context `{G : Generator}.

Lemma updates_old_state_dict (fuel : nat) (calls : list (Z * bool))
    (self self' : SimpleContinualLinear) (w w' : World) :
  updates fuel self calls w = Some (Ok self', w') ->
  old_state_dict self' = old_state_dict self.
Proof.
  revert self w. induction calls as [|c calls IH]; intros self w H; simpl in H.
  - injection H as <- _. reflexivity.
  - apply bind_Ok in H as (self1 & w1 & Hup & H).
    apply SimpleContinualLinear_update_inv in Hup as (new_head & _ & ->).
    rewrite (IH _ _ H). reflexivity.
Qed.

End Growth.

(** [recall()] on a module on which [backup()] was never called
    raises an [AttributeError] and changes nothing, however many times the
    module has been updated: neither [__init__] nor [update] sets
    [old_state_dict]. *)
Theorem recall_without_backup_raises `{G : Generator}
    (fuel : nat) (embed c0 : Z) (fe wn : bool) (calls : list (Z * bool))
    (w0 w : World) (self : SimpleContinualLinear) :
  grown fuel embed c0 fe wn calls w0 = Some (Ok self, w) ->
  forall w2, SimpleContinualLinear_recall self w2 = Some (Raise AttributeError, w2).
Proof.
  intros H w2. unfold grown in H.
  apply bind_Ok in H as (self0 & w1 & Hinit & Hup).
  apply SimpleContinualLinear_init_inv in Hinit as (head & _ & ->).
  apply updates_old_state_dict in Hup. cbn [old_state_dict] in Hup.
  unfold SimpleContinualLinear_recall. rewrite Hup. reflexivity.
Qed.

Lemma recall_without_backup_raises_witness :
  exists (self : SimpleContinualLinear) (w : @World constant_generator),
    grown 0 1 3 false false [(2, true)] empty_world = Some (Ok self, w) /\
    SimpleContinualLinear_recall self w = Some (Raise AttributeError, w).
Proof.
  destruct (@grown_returns constant_generator 0 1 3 false false [(2, true)] empty_world)
    as (self & w & Hg).
  - unfold int64_max. lia.
  - unfold int64_max. lia.
  - unfold int64_max. lia.
  - repeat constructor; simpl; unfold int64_max; lia.
  - exact constant_draws_in_range.
  - exists self, w. split; [exact Hg|].
    exact (recall_without_backup_raises 0 1 3 false false [(2, true)] empty_world w self Hg w).
Defined.

(** The constructor of [SimpleContinualLinear] builds exactly one
    head out of new trainable parameters (a layer normalisation of unit
    weight and zero bias when [with_norm] is set, then a linear layer whose
    weight entries are draws of [normal_(0, 0.02)] within [[-2, 2]] and
    whose bias is zero), keeps the two flags and the embedding size, and
    stores no backup. *)
Theorem SimpleContinualLinear_init_single_head `{G : Generator}
    (fuel : nat) (embed nb : Z) (fe wn : bool)
    (self : SimpleContinualLinear) (w w' : World) :
  SimpleContinualLinear_init fuel embed nb fe wn w = Some (Ok self, w') ->
  exists head,
    heads self = [head] /\ fresh_head w w' wn embed nb head /\
    head_out_features head = nb /\
    embed_dim self = embed /\ feat_expand self = fe /\ with_norm self = wn /\
    old_state_dict self = None /\ module_ok self w'.
Proof.
  intros H.
  pose proof (SimpleContinualLinear_init_ok _ _ _ _ _ _ _ _ H) as (Hok & _).
  apply SimpleContinualLinear_init_inv in H as (head & Hfresh & ->).
  exists head. destruct (fresh_head_ok _ _ _ _ _ _ Hfresh) as [_ Hw].
  split; [reflexivity|]. split; [exact Hfresh|]. split; [exact Hw|].
  split; [reflexivity|]. split; [reflexivity|]. split; [reflexivity|].
  split; [reflexivity | exact Hok].
Qed.

Lemma SimpleContinualLinear_init_single_head_witness :
  exists (self : SimpleContinualLinear) (w' : @World constant_generator) head,
    heads self = [head] /\ head_out_features head = 3 /\ old_state_dict self = None.
Proof.
  destruct (@SimpleContinualLinear_init_returns constant_generator 0 1 3 false true
              empty_world) as (self & w' & Hinit).
  - unfold int64_max. lia.
  - unfold int64_max. lia.
  - unfold int64_max. lia.
  - exact constant_draws_in_range.
  - destruct (SimpleContinualLinear_init_single_head 0 1 3 false true self empty_world w'
                Hinit) as (head & H1 & _ & H2 & _ & _ & _ & H3 & _).
    exists self, w', head. split; [exact H1|]. split; [exact H2 | exact H3].
Defined.

(** ** The failed [recall] has written to the old heads *)

Lemma recall_after_update_copies_back_witness :
  exists (self2 : SimpleContinualLinear) (w2 w4 : @World constant_generator),
    SimpleContinualLinear_update 0 one_head_backed_up 1 true one_head_backup_world
    = Some (Ok self2, w2) /\
    SimpleContinualLinear_recall self2 w2 = Some (Raise RuntimeError, w4) /\
    Forall (fun kp => heap w4 !! storage (snd kp) = heap one_head_world !! storage (snd kp))
           (named_parameters one_head_module).
Proof.
  destruct one_head_backed_up_update_returns as (self2 & w2 & Hup).
  destruct (@recall_after_update_copies_back constant_generator 0 one_head_module
              one_head_backed_up self2 1 true [] one_head_world one_head_backup_world w2 w2
              one_head_allocated one_head_backup Hup (List.Forall_nil _) eq_refl)
    as (w4 & Hrecall & Hrest).
  exists self2, w2, w4. split; [exact Hup|]. split; [exact Hrecall | exact Hrest].
Defined.

(** * Returning constructors of the cosine classifiers *)

(** ** The constructors of the cosine heads *)

(** What the constructor of [CosineLinear] computes when its weight can
    be allocated. *)
Lemma CosineLinear_init_computes `{G : Generator}
    (in_features out_features nb_proxy : Z) (to_reduce sigma : bool) (g : Gen) :
  0 < in_features <= int64_max -> 0 <= out_features * nb_proxy <= int64_max ->
  out_features * nb_proxy * in_features <= int64_max ->
  let stdv := (1 / sqrt (IZR in_features))%R in
  let draw :=
    uniform_ (- stdv) stdv (Z.to_nat (out_features * nb_proxy * in_features)) g in
  CosineLinear_init in_features out_features nb_proxy to_reduce sigma g =
  Ok (mkCosineLinear in_features (out_features * nb_proxy) nb_proxy to_reduce
        (mkTensor [out_features * nb_proxy; in_features] (fst draw))
        (if sigma then Some 1%R else None),
      snd draw).
Proof.
  intros Hi Ho Hoi stdv draw. unfold CosineLinear_init.
  rewrite (torch_Tensor_returns [out_features * nb_proxy; in_features]
             ltac:(repeat constructor; lia) ltac:(rewrite numel_2; exact Hoi)).
  cbn [rbind shape_at shape lookup list_lookup].
  destruct (Z.eqb_spec in_features 0) as [|_]; [lia|].
  cbn [data]. rewrite repeat_length, numel_2. fold stdv draw.
  destruct draw as [vals g']. reflexivity.
Qed.

(** When the constructor of [CosineLinear] returns, [in_features] is
    positive and the module is this one: its [out_features] is
    [out_features * nb_proxy]; its weight, of shape
    [(out_features * nb_proxy, in_features)], holds one uniform draw with
    the bounds [-1 / sqrt(in_features)] and [1 / sqrt(in_features)]; its
    [sigma] is [1] when it is asked for and absent otherwise; the
    generator has advanced by that one draw. *)
Theorem CosineLinear_init_result `{G : Generator}
    (in_features out_features nb_proxy : Z) (to_reduce sigma : bool) (g g' : Gen)
    (self : CosineLinear) :
  CosineLinear_init in_features out_features nb_proxy to_reduce sigma g = Ok (self, g') ->
  let stdv := (1 / sqrt (IZR in_features))%R in
  let draw :=
    uniform_ (- stdv) stdv (Z.to_nat (out_features * nb_proxy * in_features)) g in
  0 < in_features /\
  self = mkCosineLinear in_features (out_features * nb_proxy) nb_proxy to_reduce
           (mkTensor [out_features * nb_proxy; in_features] (fst draw))
           (if sigma then Some 1%R else None) /\
  g' = snd draw /\
  CosineLinear_ok self.
Proof.
  intros H stdv draw.
  pose proof (CosineLinear_init_ok _ _ _ _ _ _ _ _ H) as (Hok & _).
  pose proof H as H'. unfold CosineLinear_init in H'.
  destruct (torch_Tensor [out_features * nb_proxy; in_features]) as [t|e] eqn:Ht;
    [|discriminate].
  apply torch_Tensor_Ok in Ht as (Hs & Hd & Hn & _).
  apply Forall_cons in Hd as [Hdo Hd]. apply Forall_cons in Hd as [Hdi _].
  rewrite numel_2 in Hn.
  cbn [rbind] in H'. unfold shape_at in H'. rewrite Hs in H'.
  cbn [lookup list_lookup rbind] in H'.
  destruct (Z.eqb_spec in_features 0) as [|Hne]; [discriminate|].
  clear H'.
  assert (0 < in_features) as Hpos by lia.
  rewrite (CosineLinear_init_computes in_features out_features nb_proxy to_reduce sigma g
             ltac:(lia) ltac:(lia) Hn) in H.
  injection H as <- <-. repeat split; try reflexivity; try exact Hpos.
  all: apply Hok.
Qed.

Lemma CosineLinear_init_result_witness :
  exists (self : CosineLinear) (g' : @Gen constant_generator),
    @CosineLinear_init constant_generator 4 2 3 true true tt = Ok (self, g') /\
    cl_out_features self = 2 * 3 /\ shape (cl_weight self) = [2 * 3; 4] /\
    cl_sigma self = Some 1%R /\ CosineLinear_ok self.
Proof.
  pose proof (@CosineLinear_init_computes constant_generator 4 2 3 true true tt
                ltac:(unfold int64_max; lia) ltac:(unfold int64_max; lia)
                ltac:(unfold int64_max; lia)) as Hrun.
  cbv zeta in Hrun.
  destruct (@CosineLinear_init_result constant_generator 4 2 3 true true tt _ _ Hrun)
    as (_ & Hself & _ & Hok).
  eexists _, _. split; [exact Hrun|]. repeat split; try reflexivity; apply Hok.
Defined.

(** A [CosineLinear] cannot be built with [in_features = 0]: the
    constructor raises a [ZeroDivisionError] when [reset_parameters]
    divides by the square root of the number of input features. *)
Theorem CosineLinear_init_zero_features `{G : Generator}
    (out_features nb_proxy : Z) (to_reduce sigma : bool) (g : Gen) :
  0 <= out_features * nb_proxy <= int64_max ->
  CosineLinear_init 0 out_features nb_proxy to_reduce sigma g = Raise ZeroDivisionError.
Proof.
  intros Ho. unfold CosineLinear_init.
  rewrite (torch_Tensor_returns [out_features * nb_proxy; 0]
             ltac:(repeat constructor; unfold int64_max in *; lia)
             ltac:(rewrite numel_2; unfold int64_max; lia)).
  reflexivity.
Qed.

Lemma CosineLinear_init_zero_features_witness :
  @CosineLinear_init constant_generator 0 2 3 false true tt = Raise ZeroDivisionError.
Proof.
  apply (@CosineLinear_init_zero_features constant_generator 2 3 false true tt).
  unfold int64_max. lia.
Defined.

(** The constructor of [SplitCosineLinear] returns when the two weights
    can be allocated. *)
Lemma SplitCosineLinear_init_computes `{G : Generator}
    (in_features out_features1 out_features2 nb_proxy : Z) (sigma : bool) (g : Gen) :
  0 < in_features <= int64_max ->
  0 <= out_features1 * nb_proxy <= int64_max ->
  out_features1 * nb_proxy * in_features <= int64_max ->
  0 <= out_features2 * nb_proxy <= int64_max ->
  out_features2 * nb_proxy * in_features <= int64_max ->
  exists self g',
    SplitCosineLinear_init in_features out_features1 out_features2 nb_proxy sigma g
      = Ok (self, g') /\
    SplitCosineLinear_ok self /\
    sc_in_features self = in_features /\
    sc_out_features self = (out_features1 + out_features2) * nb_proxy /\
    sc_nb_proxy self = nb_proxy /\
    shape (cl_weight (sc_fc1 self)) = [out_features1 * nb_proxy; in_features] /\
    shape (cl_weight (sc_fc2 self)) = [out_features2 * nb_proxy; in_features] /\
    sc_sigma self = (if sigma then Some 1%R else None).
Proof.
  intros Hi Ho1 Hoi1 Ho2 Hoi2.
  destruct (SplitCosineLinear_init in_features out_features1 out_features2 nb_proxy sigma g)
    as [[self g']|e] eqn:H.
  - exists self, g'. split; [reflexivity|].
    pose proof (SplitCosineLinear_init_ok _ _ _ _ _ _ _ _ H) as (Hok & Hnb & Hc1 & Hc2 & Hs).
    pose proof Hok as ([_ Hw1] & [_ Hw2] & Hin1 & Hin2 & _).
    unfold SplitCosineLinear_init in H.
    rewrite (CosineLinear_init_computes in_features out_features1 nb_proxy false false g
               Hi Ho1 Hoi1) in H.
    cbn [rbind fst snd] in H.
    rewrite (CosineLinear_init_computes in_features out_features2 nb_proxy false false _
               Hi Ho2 Hoi2) in H.
    cbn [rbind fst snd] in H. injection H as <- _.
    split; [exact Hok|]. cbn. repeat split; reflexivity.
  - exfalso. unfold SplitCosineLinear_init in H.
    rewrite (CosineLinear_init_computes in_features out_features1 nb_proxy false false g
               Hi Ho1 Hoi1) in H.
    cbn [rbind fst snd] in H.
    rewrite (CosineLinear_init_computes in_features out_features2 nb_proxy false false _
               Hi Ho2 Hoi2) in H.
    discriminate.
Qed.

(** When the constructor of [SplitCosineLinear] returns, the two
    sublayers have no [sigma] and do not reduce proxies themselves, their
    weights have the shapes [(out_features1 * nb_proxy, in_features)] and
    [(out_features2 * nb_proxy, in_features)], the module's own [sigma] is
    [1] when it is asked for and absent otherwise, and its [out_features]
    is [(out_features1 + out_features2) * nb_proxy]. *)
Theorem SplitCosineLinear_init_result `{G : Generator}
    (in_features out_features1 out_features2 nb_proxy : Z) (sigma : bool) (g g' : Gen)
    (self : SplitCosineLinear) :
  SplitCosineLinear_init in_features out_features1 out_features2 nb_proxy sigma g
    = Ok (self, g') ->
  SplitCosineLinear_ok self /\
  sc_in_features self = in_features /\
  sc_out_features self = (out_features1 + out_features2) * nb_proxy /\
  sc_nb_proxy self = nb_proxy /\
  cl_sigma (sc_fc1 self) = None /\ cl_sigma (sc_fc2 self) = None /\
  cl_to_reduce (sc_fc1 self) = false /\ cl_to_reduce (sc_fc2 self) = false /\
  cl_nb_proxy (sc_fc1 self) = nb_proxy /\ cl_nb_proxy (sc_fc2 self) = nb_proxy /\
  shape (cl_weight (sc_fc1 self)) = [out_features1 * nb_proxy; in_features] /\
  shape (cl_weight (sc_fc2 self)) = [out_features2 * nb_proxy; in_features] /\
  sc_sigma self = (if sigma then Some 1%R else None).
Proof.
  intros H.
  pose proof (SplitCosineLinear_init_ok _ _ _ _ _ _ _ _ H) as (Hok & Hnb & Hc1 & Hc2 & Hs).
  unfold SplitCosineLinear_init in H.
  destruct (CosineLinear_init in_features out_features1 nb_proxy false false g)
    as [[fc1 g1]|e] eqn:H1; [|discriminate].
  cbn [rbind fst snd] in H.
  destruct (CosineLinear_init in_features out_features2 nb_proxy false false g1)
    as [[fc2 g2]|e] eqn:H2; [|discriminate].
  cbn [rbind fst snd] in H. injection H as <- _.
  apply CosineLinear_init_ok in H1 as ([_ Hw1] & Hi1 & Ho1 & Hn1 & Hr1 & Hs1).
  apply CosineLinear_init_ok in H2 as ([_ Hw2] & Hi2 & Ho2 & Hn2 & Hr2 & Hs2).
  cbn [sc_fc1 sc_fc2 sc_in_features sc_out_features sc_nb_proxy sc_sigma] in *.
  rewrite Hw1, Hw2, Ho1, Ho2, Hi1, Hi2.
  repeat split; try reflexivity; try assumption; apply Hok.
Qed.

Lemma SplitCosineLinear_init_result_witness :
  exists (self : SplitCosineLinear) (g' : @Gen constant_generator),
    @SplitCosineLinear_init constant_generator 4 2 1 3 true tt = Ok (self, g') /\
    SplitCosineLinear_ok self /\
    sc_out_features self = (2 + 1) * 3 /\
    shape (cl_weight (sc_fc1 self)) = [2 * 3; 4] /\
    shape (cl_weight (sc_fc2 self)) = [1 * 3; 4] /\
    sc_sigma self = Some 1%R.
Proof.
  destruct (@SplitCosineLinear_init_computes constant_generator 4 2 1 3 true tt)
    as (self & g' & Hrun & _); try (unfold int64_max; lia).
  destruct (@SplitCosineLinear_init_result constant_generator 4 2 1 3 true tt g' self Hrun)
    as (Hok & _ & Hout & _ & _ & _ & _ & _ & _ & _ & Hw1 & Hw2 & Hs).
  exists self, g'. split; [exact Hrun|]. split; [exact Hok|]. split; [exact Hout|].
  split; [exact Hw1|]. split; [exact Hw2 | exact Hs].
Defined.

(** ** The shape assertion below 53 bits *)

Lemma reduce_proxies_assert_small_witness : reduce_proxies_assert_claim zero_pair 2 2.
Proof.
  apply (reduce_proxies_assert_small zero_pair 2 1 2).
  - unfold int64_max. lia.
  - lia.
  - exact wf_zero_pair.
  - reflexivity.
Defined.
